(** * The AI request scheduler and the retry wrapper

    A shallow embedding of these pieces of the assistant:

    - [Server.safeAIRequest], the retry wrapper of the HTTP server
      ([async function safeAIRequest<T>(fn, retries = 2)]);
    - [AiScheduler], the module [extension/out/AiScheduler.js]: the job
      queue [jobQueue], the flag [isRunning], the timestamp [lastCallTime],
      [runAI], [processQueue] and the status bar countdown;
    - [Analysis.analyzeDocument] of the extension, as far as its flag
      [isAnalyzing] and its cancel token go;
    - [Handlers], the routes [/analyze], [/fix] and [/explain] of the
      server with [safeBody] and the clean-up of the answer in [/fix];
    - [Extension], the helpers [findCodeBlockRange] and [escapeHTML];
    - [Debounce], the listener of the document changes,
      [scheduleAnalysis] with its timeout, and the command that switches
      the analysis on and off;
    - [Inline], [provideInlineCompletionItems] of the suggestion
      provider.

    Asynchronous code is modelled by its suspension points: a call runs
    up to its next [await], where it leaves a continuation in the state
    (a pending timer, a pending call of [job.fn], a pending post); an
    event of the JavaScript event loop resumes one continuation.  Each
    event carries the time that [Date.now()] shows while it is handled. *)

From Stdlib Require Import Ascii String DecimalString.
From Stdlib Require Import List ZArith Lia Bool Arith Permutation Sorted.
From Equations Require Import Equations.
Import ListNotations.

Local Open Scope Z_scope.

(** JavaScript values that the code only passes along (results of the
    model call, thrown errors) are kept abstract as labels. *)
Definition JsValue := string.

(** What a promise settles with. *)
Inductive Outcome : Type :=
| Fulfilled (value : JsValue)
| Thrown (err : JsValue).

Arguments Fulfilled value%_string.
Arguments Thrown err%_string.

(* ================================================================= *)
(** ** The retry wrapper of the server *)

Module Server.

(** The observable effects of one call of [safeAIRequest], in order. *)
Inductive Effect : Type :=
| Invoke (n : nat)          (* the n-th call of [fn] *)
| Warn (err : JsValue)      (* console.warn("AI request failed, retrying...", err) *)
| SetTimeout (ms : Z).      (* await new Promise(resolve => setTimeout(resolve, ms)) *)

(** [fn] is an effectful thunk: its n-th call may settle differently from
    the one before.  The world counts the calls made so far and logs the
    effects. *)
Record World : Type := mkWorld {
  calls : nat;
  effects : list Effect
}.

Definition emit (es : list Effect) (w : World) : World :=
  mkWorld (calls w) (effects w ++ es).

(** [await fn()] *)
Definition call_fn (fn : nat -> Outcome) (w : World) : Outcome * World :=
  (fn (calls w), mkWorld (S (calls w)) (effects w ++ [Invoke (calls w)])).

Equations? safeAIRequest (fn : nat -> Outcome) (retries : Z) (w : World)
  : Outcome * World by wf (Z.to_nat retries) lt :=
  safeAIRequest fn retries w with call_fn fn w => {
    | (Fulfilled value, w1) => (Fulfilled value, w1);
    | (Thrown err, w1) with Z_le_gt_dec retries 0 => {
        | left _ => (Thrown err, w1);
        | right _ =>
            safeAIRequest fn (retries - 1)
              (emit [Warn err; SetTimeout 1000] w1)
      }
  }.
Proof. lia. Qed.

(** [retries = 2] when the argument is left out. *)
Definition safeAIRequest_default (fn : nat -> Outcome) (w : World) :=
  safeAIRequest fn 2 w.

Definition world0 : World := mkWorld 0 [].

(** The backoff delays and the calls of [fn] in a log. *)
Definition is_delay (e : Effect) : bool :=
  match e with SetTimeout _ => true | _ => false end.
Definition is_invoke (e : Effect) : bool :=
  match e with Invoke _ => true | _ => false end.

Definition delays (w : World) : list Effect := filter is_delay (effects w).
Definition attempts (w : World) : list Effect := filter is_invoke (effects w).

(** The effects of one failed attempt: the call, the warning, the wait. *)
Definition retry_round (errs : nat -> JsValue) (i : nat) : list Effect :=
  [Invoke i; Warn (errs i); SetTimeout 1000].

End Server.

(* ================================================================= *)
(** ** The scheduler: extension/out/AiScheduler.js *)

Module AiScheduler.

(** A queue entry [{ fn, resolve, reject, priority }].  [fn] is the thunk,
    named by a label; [handle] stands for the pair [resolve]/[reject] of
    the promise that [runAI] returned for this entry. *)
Record Job : Type := mkJob {
  fn : string;
  handle : nat;
  priority : Z
}.

Arguments mkJob fn%_string handle%_nat priority%_Z.

(** [Array.prototype.sort(cmp)]: the entries are compared by the number
    that [cmp] returns, and the sort is stable (ECMAScript 2019): each
    entry, taken from left to right, goes behind the entries it does not
    have to precede. *)
Fixpoint insert {A : Type} (cmp : A -> A -> Z) (x : A) (l : list A) : list A :=
  match l with
  | [] => [x]
  | y :: l' => if 0 <? cmp y x then x :: l else y :: insert cmp x l'
  end.

Definition sort {A : Type} (cmp : A -> A -> Z) (l : list A) : list A :=
  fold_left (fun acc x => insert cmp x acc) l [].

(** [(a, b) => b.priority - a.priority] *)
Definition byPriority (a b : Job) : Z := priority b - priority a.

(** [Math.ceil(ms / 1000)] on an integer number of milliseconds. *)
Definition ceil_seconds (ms : Z) : Z := - ((- ms) / 1000).

(** The hourglass U+23F3 that opens the countdown text, as its UTF-8 bytes. *)
Definition hourglass : string :=
  String "226"%char (String "143"%char (String "179"%char EmptyString)).

Definition cooldownText (remaining : Z) : string :=
  (hourglass ++ " AI Cooldown: "
     ++ NilZero.string_of_int (Z.to_int remaining) ++ "s")%string.

Definition readyText : string := "$(check) AI Ready".

Record State : Type := mkState {
  (* the variables of the module *)
  jobQueue : list Job;
  isRunning : bool;
  lastCallTime : Z;
  statusBarItem : option string;    (* the [text] of the item; [None] is [null] *)
  cooldownInterval : option nat;    (* the id that [setInterval] returned *)
  (* the event loop: what is suspended or scheduled *)
  sleeping : list Z;                (* calls of [processQueue] at [await sleep(wait)], by due time *)
  inFlight : list Job;              (* calls of [processQueue] at [await job.fn()] *)
  intervals : list (nat * Z);       (* live [setInterval] timers with their variable [remaining] *)
  nextTimerId : nat;
  (* history variables, which the code does not have: what it did so far *)
  nextHandle : nat;
  submitted : list Job;             (* every entry that [runAI] pushed, in order *)
  dispatched : list (Job * Z);      (* every [job.fn()] call with its starting time, in order *)
  settled : list (Job * Z * Outcome) (* every [job.resolve]/[job.reject] call, in order *)
}.

Definition init : State :=
  mkState [] false 0 None None [] [] [] 0 0 [] [] [].

Definition set_jobQueue (q : list Job) (s : State) : State :=
  mkState q (isRunning s) (lastCallTime s) (statusBarItem s) (cooldownInterval s)
    (sleeping s) (inFlight s) (intervals s) (nextTimerId s)
    (nextHandle s) (submitted s) (dispatched s) (settled s).

Definition set_isRunning (b : bool) (s : State) : State :=
  mkState (jobQueue s) b (lastCallTime s) (statusBarItem s) (cooldownInterval s)
    (sleeping s) (inFlight s) (intervals s) (nextTimerId s)
    (nextHandle s) (submitted s) (dispatched s) (settled s).

Definition set_lastCallTime (t : Z) (s : State) : State :=
  mkState (jobQueue s) (isRunning s) t (statusBarItem s) (cooldownInterval s)
    (sleeping s) (inFlight s) (intervals s) (nextTimerId s)
    (nextHandle s) (submitted s) (dispatched s) (settled s).

Definition set_statusBarItem (i : option string) (s : State) : State :=
  mkState (jobQueue s) (isRunning s) (lastCallTime s) i (cooldownInterval s)
    (sleeping s) (inFlight s) (intervals s) (nextTimerId s)
    (nextHandle s) (submitted s) (dispatched s) (settled s).

Definition set_cooldownInterval (i : option nat) (s : State) : State :=
  mkState (jobQueue s) (isRunning s) (lastCallTime s) (statusBarItem s) i
    (sleeping s) (inFlight s) (intervals s) (nextTimerId s)
    (nextHandle s) (submitted s) (dispatched s) (settled s).

Definition set_sleeping (l : list Z) (s : State) : State :=
  mkState (jobQueue s) (isRunning s) (lastCallTime s) (statusBarItem s) (cooldownInterval s)
    l (inFlight s) (intervals s) (nextTimerId s)
    (nextHandle s) (submitted s) (dispatched s) (settled s).

Definition set_inFlight (l : list Job) (s : State) : State :=
  mkState (jobQueue s) (isRunning s) (lastCallTime s) (statusBarItem s) (cooldownInterval s)
    (sleeping s) l (intervals s) (nextTimerId s)
    (nextHandle s) (submitted s) (dispatched s) (settled s).

Definition set_intervals (l : list (nat * Z)) (n : nat) (s : State) : State :=
  mkState (jobQueue s) (isRunning s) (lastCallTime s) (statusBarItem s) (cooldownInterval s)
    (sleeping s) (inFlight s) l n
    (nextHandle s) (submitted s) (dispatched s) (settled s).

Definition log_submitted (j : Job) (s : State) : State :=
  mkState (jobQueue s) (isRunning s) (lastCallTime s) (statusBarItem s) (cooldownInterval s)
    (sleeping s) (inFlight s) (intervals s) (nextTimerId s)
    (S (nextHandle s)) (submitted s ++ [j]) (dispatched s) (settled s).

Definition log_dispatched (j : Job) (t : Z) (s : State) : State :=
  mkState (jobQueue s) (isRunning s) (lastCallTime s) (statusBarItem s) (cooldownInterval s)
    (sleeping s) (inFlight s) (intervals s) (nextTimerId s)
    (nextHandle s) (submitted s) (dispatched s ++ [(j, t)]) (settled s).

Definition log_settled (j : Job) (t : Z) (o : Outcome) (s : State) : State :=
  mkState (jobQueue s) (isRunning s) (lastCallTime s) (statusBarItem s) (cooldownInterval s)
    (sleeping s) (inFlight s) (intervals s) (nextTimerId s)
    (nextHandle s) (submitted s) (dispatched s) (settled s ++ [(j, t, o)]).

(** [initScheduler(statusItem)] with a status bar item showing [text]. *)
Definition initScheduler (text : string) (s : State) : State :=
  set_statusBarItem (Some text) s.

(** [clearInterval(id)] *)
Definition clearInterval (id : nat) (s : State) : State :=
  set_intervals (filter (fun e => negb (fst e =? id)%nat) (intervals s)) (nextTimerId s) s.

Definition stopCooldown (s : State) : State :=
  match statusBarItem s with
  | None => s
  | Some _ =>
      let s1 := match cooldownInterval s with
                | Some id => clearInterval id s
                | None => s
                end in
      set_statusBarItem (Some readyText) (set_cooldownInterval None s1)
  end.

Definition startCooldown (ms : Z) (s : State) : State :=
  match statusBarItem s with
  | None => s
  | Some _ =>
      let remaining := ceil_seconds ms in
      let s1 := set_statusBarItem (Some (cooldownText remaining)) s in
      let id := nextTimerId s1 in
      set_cooldownInterval (Some id)
        (set_intervals (intervals s1 ++ [(id, remaining)]) (S id) s1)
  end.

(** The callback that [startCooldown] hands to [setInterval], for the
    timer [id] whose variable [remaining] has the given value. *)
Definition cooldownTick (id : nat) (remaining : Z) (s : State) : State :=
  let remaining := remaining - 1 in
  let s1 := set_intervals
              (map (fun e => if (fst e =? id)%nat then (id, remaining) else e) (intervals s))
              (nextTimerId s) s in
  if remaining <=? 0 then stopCooldown s1
  else set_statusBarItem (Some (cooldownText remaining)) s1.

Section Spacing.

(** The minimum spacing in milliseconds: the constant [MIN_DELAY] of the
    source, [minSpacingMs] in the specification. *)
Variable minDelay : Z.

(** [processQueue] from [stopCooldown()] on: what runs when the cooldown
    is over, or at once when there is none.  [job.fn()] is called and the
    activation is suspended until the call settles. *)
Definition processQueue_dispatch (now : Z) (s : State) : State :=
  let s := stopCooldown s in
  match jobQueue s with
  | [] => s
  | job :: rest =>
      let s := set_jobQueue rest s in
      let s := set_isRunning true s in
      log_dispatched job now (set_inFlight (inFlight s ++ [job]) s)
  end.

(** [processQueue] up to its first suspension. *)
Definition processQueue (now : Z) (s : State) : State :=
  if isRunning s then s
  else if (length (jobQueue s) =? 0)%nat then s
  else
    let diff := now - lastCallTime s in
    if diff <? minDelay then
      let wait := minDelay - diff in
      let s := startCooldown wait s in
      set_sleeping (sleeping s ++ [now + wait]) s
    else processQueue_dispatch now s.

(** [processQueue] from the point where [job.fn()] has settled. *)
Definition processQueue_settle (now : Z) (job : Job) (o : Outcome) (s : State) : State :=
  let s := match o with
           | Fulfilled _ => log_settled job now o (set_lastCallTime now s)
           | Thrown _ => log_settled job now o s
           end in
  let s := set_isRunning false s in
  if (0 <? length (jobQueue s))%nat then processQueue now s else s.

(** [runAI(fn, priority = 1)]: the executor of the promise. *)
Definition runAI (now : Z) (f : string) (priority : option Z) (s : State) : State :=
  let priority := match priority with Some p => p | None => 1 end in
  let job := mkJob f (nextHandle s) priority in
  let s := log_submitted job s in
  let s := set_jobQueue (jobQueue s ++ [job]) s in
  let s := set_jobQueue (sort byPriority (jobQueue s)) s in
  processQueue now s.

(** *** The event loop *)

Inductive Event : Type :=
| InitScheduler (text : string)           (* a caller runs [initScheduler] *)
| RunAI (f : string) (priority : option Z) (* a caller runs [runAI] *)
| SleepDone (k : nat)                     (* the timer of the k-th sleeping activation fires *)
| FnSettled (h : nat) (o : Outcome)       (* the pending [job.fn()] of handle [h] settles *)
| IntervalTick (id : nat).                (* the interval timer [id] fires *)

Arguments InitScheduler text%_string.
Arguments RunAI f%_string priority.

Fixpoint take_nth {A : Type} (k : nat) (l : list A) : option (A * list A) :=
  match l, k with
  | [], _ => None
  | x :: l', O => Some (x, l')
  | x :: l', S k' =>
      match take_nth k' l' with
      | Some (y, r) => Some (y, x :: r)
      | None => None
      end
  end.

Fixpoint take_job (h : nat) (l : list Job) : option (Job * list Job) :=
  match l with
  | [] => None
  | j :: l' =>
      if (handle j =? h)%nat then Some (j, l')
      else match take_job h l' with
           | Some (j', r) => Some (j', j :: r)
           | None => None
           end
  end.

Fixpoint lookup_interval (id : nat) (l : list (nat * Z)) : option Z :=
  match l with
  | [] => None
  | (i, r) :: l' => if (i =? id)%nat then Some r else lookup_interval id l'
  end.

(** One turn of the event loop, at the time [t] that [Date.now()] shows
    during it.  [None]: the event cannot happen in this state (a timer
    before it is due, a call that is not pending). *)
Definition step (t : Z) (e : Event) (s : State) : option State :=
  match e with
  | InitScheduler text => Some (initScheduler text s)
  | RunAI f p => Some (runAI t f p s)
  | SleepDone k =>
      match take_nth k (sleeping s) with
      | Some (due, rest) =>
          if t <? due then None
          else Some (processQueue_dispatch t (set_sleeping rest s))
      | None => None
      end
  | FnSettled h o =>
      match take_job h (inFlight s) with
      | Some (job, rest) => Some (processQueue_settle t job o (set_inFlight rest s))
      | None => None
      end
  | IntervalTick id =>
      match lookup_interval id (intervals s) with
      | Some remaining => Some (cooldownTick id remaining s)
      | None => None
      end
  end.

Fixpoint run (evs : list (Z * Event)) (s : State) : option State :=
  match evs with
  | [] => Some s
  | (t, e) :: evs' =>
      match step t e s with
      | Some s' => run evs' s'
      | None => None
      end
  end.

End Spacing.

Definition MIN_DELAY : Z := 21000.

(** A run in which no job is submitted while an activation of
    [processQueue] sleeps through a cooldown. *)
Fixpoint calm (d : Z) (evs : list (Z * Event)) (s : State) : Prop :=
  match evs with
  | [] => True
  | (t, e) :: evs' =>
      match e with
      | RunAI _ _ => sleeping s = []
      | _ => True
      end
      /\ match step d t e s with
         | Some s' => calm d evs' s'
         | None => True
         end
  end.

(** At most one activation of [processQueue] is suspended, asleep or at
    a call; [isRunning] is up while a call is pending; a sleeper wakes up
    [d] after the last success. *)
Definition one_activation (d : Z) (s : State) : Prop :=
  (length (sleeping s) + length (inFlight s) <= 1)%nat
  /\ (inFlight s <> [] -> isRunning s = true)
  /\ (forall due, In due (sleeping s) -> due = lastCallTime s + d).

(** The events of a trace happen in the order of their times. *)
Fixpoint well_timed (evs : list (Z * Event)) : bool :=
  match evs with
  | [] => true
  | (t, _) :: evs' =>
      match evs' with
      | [] => true
      | (t', _) :: _ => (t <=? t') && well_timed evs'
      end
  end.

(** The events that belong to the status bar: the call of [initScheduler]
    and the ticks of the countdown. *)
Definition is_display (e : Event) : bool :=
  match e with
  | InitScheduler _ | IntervalTick _ => true
  | _ => false
  end.

Definition without_display (evs : list (Z * Event)) : list (Z * Event) :=
  filter (fun te => negb (is_display (snd te))) evs.

(** The state seen without the status bar: [statusBarItem] and
    [cooldownInterval] are [null] and no interval timer exists. *)
Definition hide (s : State) : State :=
  mkState (jobQueue s) (isRunning s) (lastCallTime s) None None
    (sleeping s) (inFlight s) [] 0
    (nextHandle s) (submitted s) (dispatched s) (settled s).

(** The jobs in the order in which [job.fn()] was called. *)
Definition dispatchOrder (s : State) : list Job := map fst (dispatched s).

(** The jobs whose promise was settled, in the order of settlement. *)
Definition settledJob (e : Job * Z * Outcome) : Job := fst (fst e).
Definition settledJobs (s : State) : list Job := map settledJob (settled s).

(** The time of the latest fulfilled call in a settlement log, 0 when
    there is none. *)
Definition lastSuccess (log : list (Job * Z * Outcome)) : Z :=
  fold_left (fun acc e => match snd e with
                          | Fulfilled _ => snd (fst e)
                          | Thrown _ => acc
                          end) log 0.

(** A queue in dispatch order: priorities never increase from the head on. *)
Definition descending (q : list Job) : Prop :=
  StronglySorted (fun a b => priority b <= priority a) q.

(** The jobs of one priority class. *)
Definition ofPriority (p : Z) (j : Job) : bool := priority j =? p.

(** What the history variables say about the variables of the module. *)
Record Hist (s : State) : Prop := mkHist {
  inv_handles : map handle (submitted s) = seq 0 (nextHandle s);
  inv_queue : Permutation (submitted s) (dispatchOrder s ++ jobQueue s);
  inv_flight : Permutation (dispatchOrder s) (settledJobs s ++ inFlight s);
  inv_sorted : descending (jobQueue s);
  inv_fifo : forall p,
      filter (ofPriority p) (submitted s)
      = filter (ofPriority p) (dispatchOrder s) ++ filter (ofPriority p) (jobQueue s);
  inv_last : lastCallTime s = lastSuccess (settled s)
}.

(** The loop is never left without a continuation while jobs wait. *)
Record Live (s : State) : Prop := mkLive {
  inv_running : isRunning s = true -> inFlight s <> [];
  inv_live : jobQueue s <> [] -> inFlight s <> [] \/ sleeping s <> []
}.

Definition Inv (s : State) : Prop := Hist s /\ Live s.

(** A turn either leaves the queue alone or takes its head and calls it. *)
Definition takes_head (now : Z) (s s' : State) : Prop :=
  (jobQueue s' = jobQueue s /\ inFlight s' = inFlight s
   /\ dispatched s' = dispatched s)
  \/ (exists job, jobQueue s = job :: jobQueue s'
                  /\ inFlight s' = inFlight s ++ [job]
                  /\ dispatched s' = dispatched s ++ [(job, now)]).

(** The events by which the loop goes on without a new submission: a
    sleep that ends, a call that settles. *)
Definition is_progress (e : Event) : bool :=
  match e with
  | SleepDone _ | FnSettled _ _ => true
  | _ => false
  end.

(** A bound on the number of such events that can still happen. *)
Definition pending (s : State) : nat :=
  3 * length (jobQueue s) + 2 * length (inFlight s) + length (sleeping s).

(** Nothing is suspended and no timer of the loop is set. *)
Definition quiescent (s : State) : Prop := sleeping s = [] /\ inFlight s = [].

(** The settlements that the calls of [job.fn()] delivered in a trace:
    time, handle and outcome. *)
Definition settlements (evs : list (Z * Event)) : list (Z * nat * Outcome) :=
  flat_map (fun te => match snd te with
                      | FnSettled h o => [(fst te, h, o)]
                      | _ => []
                      end) evs.

Definition settlementOf (e : Job * Z * Outcome) : Z * nat * Outcome :=
  (snd (fst e), handle (fst (fst e)), snd e).

End AiScheduler.

(* ================================================================= *)
(** ** The analysis request of the extension: analyzeDocument *)

Module Analysis.

(** What [analyzeDocument] does to the editor and to the network. *)
Inductive Action : Type :=
| DiagSet (count : nat)                         (* diag.set(doc.uri, diagnostics) *)
| UpdateStatusBar (state : string) (issueCount : nat)
| CancelCalled (token : nat)                    (* cancelSource.cancel("New request started") *)
| Posted (token : nat) (code : string)          (* axios.post(.../analyze, { code, language }, { cancelToken }) *)
| HandleError (err : JsValue).                  (* handleError(err, "Analyze failed") *)

Arguments UpdateStatusBar state%_string issueCount%_nat.
Arguments Posted token%_nat code%_string.
Arguments HandleError err%_string.

(** How a post settles. *)
Inductive Reply : Type :=
| Response (issues : nat)   (* fulfilled, and the loop over [response.data.issues]
                               goes through: so many entries have [start],
                               [end] and [message] *)
| Unreadable (err : JsValue) (* fulfilled, but the loop throws [err]: the issues
                               cannot be iterated, an entry is [null], a
                               position is negative *)
| Failure (err : JsValue)   (* rejected, not by a cancellation *)
| Cancelled.                (* rejected with the axios [Cancel] of its token *)

Arguments Unreadable err%_string.
Arguments Failure err%_string.

Record Editor : Type := mkEditor {
  (* the variables of the module *)
  isAnalyzing : bool;
  cancelSource : option nat;   (* the token source in use, by the number of its token *)
  (* the network *)
  nextToken : nat;
  awaiting : list nat;         (* tokens of the posts that have not settled *)
  aborted : list nat;          (* tokens cancelled while their post was pending *)
  (* the log *)
  actions : list Action
}.

Definition fresh : Editor := mkEditor false None 0 [] [] [].

Definition log (es : list Action) (s : Editor) : Editor :=
  mkEditor (isAnalyzing s) (cancelSource s) (nextToken s) (awaiting s) (aborted s)
    (actions s ++ es).

Definition set_isAnalyzing (b : bool) (s : Editor) : Editor :=
  mkEditor b (cancelSource s) (nextToken s) (awaiting s) (aborted s) (actions s).

Definition mem (token : nat) (l : list nat) : bool := existsb (Nat.eqb token) l.

(** [source.cancel(message)]: a post that is pending on the token is
    aborted and will reject with a [Cancel]; a post that has settled is
    not touched. *)
Definition cancel (token : nat) (s : Editor) : Editor :=
  let s := log [CancelCalled token] s in
  if mem token (awaiting s)
  then mkEditor (isAnalyzing s) (cancelSource s) (nextToken s) (awaiting s)
         (token :: aborted s) (actions s)
  else s.

(** [cancelSource = axios.CancelToken.source()] followed by [axios.post]
    with its token. *)
Definition post (code : string) (s : Editor) : Editor :=
  let token := nextToken s in
  mkEditor (isAnalyzing s) (Some token) (S token) (awaiting s ++ [token]) (aborted s)
    (actions s ++ [Posted token code]).

Section Document.

(** [!code.trim()]: the text of the document is empty or white space. *)
Variable blank : string -> bool.

(** [analyzeDocument(doc)] up to [await axios.post(...)], for a document
    whose text is [code]. *)
Definition analyzeDocument (code : string) (s : Editor) : Editor :=
  if isAnalyzing s then s
  else if blank code then log [DiagSet 0] s
  else
    let s := set_isAnalyzing true s in
    let s := log [UpdateStatusBar "analyzing" 0] s in
    let s := match cancelSource s with
             | Some token => cancel token s
             | None => s
             end in
    post code s.

(** [analyzeDocument] from the point where the post has settled. *)
Definition analyzeDocument_resume (r : Reply) (s : Editor) : Editor :=
  let s := match r with
           | Response n => log [DiagSet n; UpdateStatusBar "idle" n] s
           | Unreadable err => log [HandleError err; UpdateStatusBar "error" 0] s
           | Failure err => log [HandleError err; UpdateStatusBar "error" 0] s
           | Cancelled => s
           end in
  set_isAnalyzing false s.

Inductive Input : Type :=
| Analyze (code : string)              (* [analyzeDocument] is called *)
| Settled (token : nat) (r : Reply).   (* the post with this token settles *)

Arguments Analyze code%_string.

Definition is_cancelled (r : Reply) : bool :=
  match r with Cancelled => true | _ => false end.

(** A post rejects with a [Cancel] exactly when it was aborted. *)
Definition turn (e : Input) (s : Editor) : option Editor :=
  match e with
  | Analyze code => Some (analyzeDocument code s)
  | Settled token r =>
      if mem token (awaiting s) && Bool.eqb (is_cancelled r) (mem token (aborted s))
      then Some (analyzeDocument_resume r
                   (mkEditor (isAnalyzing s) (cancelSource s) (nextToken s)
                      (filter (fun t => negb (t =? token)%nat) (awaiting s))
                      (aborted s) (actions s)))
      else None
  end.

Fixpoint turns (evs : list Input) (s : Editor) : option Editor :=
  match evs with
  | [] => Some s
  | e :: evs' =>
      match turn e s with
      | Some s' => turns evs' s'
      | None => None
      end
  end.

End Document.

(** While no analysis is under way, no post is pending; no post was ever aborted;
    the token source in use belongs to a post that was sent. *)
Definition Idle_means_settled (s : Editor) : Prop :=
  (isAnalyzing s = false -> awaiting s = [])
  /\ (length (awaiting s) <= 1)%nat
  /\ aborted s = []
  /\ (forall token, cancelSource s = Some token ->
                    exists code, In (Posted token code) (actions s)).

(** The text counts as blank when it is empty (enough for the examples). *)
Definition blank_if_empty (code : string) : bool := String.eqb code "".

(** A document is analysed, the server answers, the document is analysed
    again after an edit. *)
Definition reanalysis : list Input :=
  [ Analyze "x = 1"; Settled 0 (Response 0); Analyze "x = 2" ].

Definition reanalysis_final : Editor :=
  Eval vm_compute in
    match turns blank_if_empty reanalysis fresh with
    | Some s => s
    | None => fresh
    end.

End Analysis.

(* ================================================================= *)
(** ** Runs of the scheduler used as examples *)

Module Examples.
Import AiScheduler.

Definition final (d : Z) (evs : list (Z * Event)) : State :=
  match run d evs init with
  | Some s => s
  | None => init
  end.

Definition jobA : Job := mkJob "A" 0 1.
Definition jobB : Job := mkJob "B" 1 1.
Definition jobC : Job := mkJob "C" 2 1.

(** With a status bar: a job runs, a second one waits through a cooldown
    whose countdown ticks once. *)
Definition countdown_trace : list (Z * Event) :=
  [ (100000, InitScheduler "AI");
    (100000, RunAI "A" None);
    (100500, FnSettled 0 (Fulfilled "a"));
    (101000, RunAI "B" (Some 5));
    (102000, IntervalTick 0);
    (121500, SleepDone 0) ].

Definition countdown_final : State :=
  Eval vm_compute in final MIN_DELAY countdown_trace.

(** Job B is in flight after the success of A at 100500. *)
Definition b_in_flight : State :=
  mkState [] true 100500 None None [] [jobB] [] 0 2
    [jobA; jobB] [(jobA, 100000); (jobB, 121500)]
    [(jobA, 100500, Fulfilled "a")].

Definition b_failed : State :=
  Eval vm_compute in
    match step MIN_DELAY 121800 (FnSettled 1 (Thrown "Timeout")) b_in_flight with
    | Some s => s
    | None => init
    end.

(** A fails with a network error while B waits in the queue; B is
    called next and succeeds. *)
Definition failing_trace : list (Z * Event) :=
  [ (100000, RunAI "A" None);
    (100100, RunAI "B" None);
    (100500, FnSettled 0 (Thrown "Network"));
    (100900, FnSettled 1 (Fulfilled "b")) ].

Definition failing_final : State :=
  Eval vm_compute in final MIN_DELAY failing_trace.

(** A is submitted to the idle scheduler, then B with a higher priority. *)
(** The sleeper that B started is late: C is submitted after the cooldown
    is over and before the sleeper wakes up. *)
Definition late_sleeper_trace : list (Z * Event) :=
  [ (100000, RunAI "A" None);
    (100500, FnSettled 0 (Fulfilled "a"));
    (101000, RunAI "B" None);
    (121600, RunAI "C" None) ].

Definition late_sleeper_final : State :=
  Eval vm_compute in final MIN_DELAY late_sleeper_trace.

Definition eager_trace : list (Z * Event) :=
  [ (100000, RunAI "A" (Some 1));
    (100000, RunAI "B" (Some 5));
    (100500, FnSettled 0 (Fulfilled "a"));
    (121500, SleepDone 0) ].

Definition eager_final : State :=
  Eval vm_compute in final MIN_DELAY eager_trace.

(** The scenario of the specification, with no spacing: A, B and C are
    submitted in this order to the idle scheduler and every call succeeds. *)
Definition scenario_rest : list (Z * Event) :=
  [ (1000, RunAI "B" (Some 5));
    (1000, RunAI "C" (Some 1));
    (1200, FnSettled 0 (Fulfilled "a"));
    (1400, FnSettled 1 (Fulfilled "b"));
    (1600, FnSettled 2 (Fulfilled "c")) ].

Definition scenario_trace : list (Z * Event) :=
  (1000, RunAI "A" (Some 1)) :: scenario_rest.

Definition scenario_final : State :=
  Eval vm_compute in final 0 scenario_trace.

(** The same three submissions while a job X is in flight. *)
Definition x_in_flight : State :=
  Eval vm_compute in final 0 [ (1000, RunAI "X" None) ].

Definition busy_settlements : list (Z * Event) :=
  [ (1400, FnSettled 0 (Fulfilled "x"));
    (1500, FnSettled 2 (Fulfilled "b"));
    (1600, FnSettled 1 (Fulfilled "a"));
    (1700, FnSettled 3 (Fulfilled "c")) ].

Definition busy_trace : list (Z * Event) :=
  (1100, RunAI "A" (Some 1)) :: (1200, RunAI "B" (Some 5))
  :: (1300, RunAI "C" (Some 1)) :: busy_settlements.

Definition busy_final : State :=
  Eval vm_compute in
    match run 0 busy_trace x_in_flight with
    | Some s => s
    | None => init
    end.

(** A is in flight and B waits in the queue. *)
Definition b_queued_trace : list (Z * Event) :=
  [ (100000, RunAI "A" None); (100100, RunAI "B" None) ].

Definition b_queued : State :=
  Eval vm_compute in final MIN_DELAY b_queued_trace.

(** B and C are submitted during the cooldown that follows the success of
    A; both activations of [processQueue] sleep until 121500. *)
Definition overlap_trace : list (Z * Event) :=
  [ (100000, RunAI "A" None);
    (100500, FnSettled 0 (Fulfilled "a"));
    (101000, RunAI "B" None);
    (102000, RunAI "C" None);
    (121500, SleepDone 0);
    (121500, SleepDone 0) ].

Definition overlap_final : State :=
  Eval vm_compute in final MIN_DELAY overlap_trace.

(** The two calls overlap; the call of B succeeds at 121800. *)
Definition overlap_success_trace : list (Z * Event) :=
  overlap_trace ++ [ (121800, FnSettled 1 (Fulfilled "b")) ].

Definition overlap_success_final : State :=
  Eval vm_compute in final MIN_DELAY overlap_success_trace.

(** The same submissions; the call of B returns at once, before the
    second sleeper wakes up. *)
Definition early_trace : list (Z * Event) :=
  [ (100000, RunAI "A" None);
    (100500, FnSettled 0 (Fulfilled "a"));
    (101000, RunAI "B" None);
    (102000, RunAI "C" None);
    (121500, SleepDone 0);
    (121500, FnSettled 1 (Fulfilled "b"));
    (121501, SleepDone 0) ].

Definition early_final : State :=
  Eval vm_compute in final MIN_DELAY early_trace.

End Examples.

(* ================================================================= *)
(** ** JavaScript strings *)

Module Js.

(** A JavaScript string is the sequence of its UTF-16 code units. *)
Definition JsString : Type := list N.

(** A string literal of the source whose characters are all ASCII. *)
Definition units (s : string) : JsString :=
  map N_of_ascii (list_ascii_of_string s).

(** The code units that ECMAScript counts as WhiteSpace or LineTerminator:
    what [String.prototype.trim] strips. *)
Definition isWhiteSpace (c : N) : bool :=
  (existsb (N.eqb c)
     [9; 10; 11; 12; 13; 32; 160; 5760; 8232; 8233; 8239; 8287; 12288; 65279]
   || ((8192 <=? c) && (c <=? 8202)))%N.

Fixpoint trimStart (s : JsString) : JsString :=
  match s with
  | [] => []
  | c :: s' => if isWhiteSpace c then trimStart s' else s
  end.

Definition trimEnd (s : JsString) : JsString := rev (trimStart (rev s)).

Definition trim (s : JsString) : JsString := trimEnd (trimStart s).

(** [s.startsWith(p)] *)
Fixpoint startsWith (p s : JsString) : bool :=
  match p, s with
  | [], _ => true
  | _ :: _, [] => false
  | a :: p', b :: s' => (a =? b)%N && startsWith p' s'
  end.

(** [s.includes(p)] *)
Fixpoint includes (p s : JsString) : bool :=
  startsWith p s
  || match s with
     | [] => false
     | _ :: s' => includes p s'
     end.

End Js.

(* ================================================================= *)
(** ** Helpers of the extension: extension.ts *)

Module Extension.
Import Js.

(** *** [escapeHTML] *)

(** The character class of the pattern: ampersand, less-than, greater-than and
    the double quote. *)
Definition markup : JsString := [38; 60; 62; 34]%N.

(** The object literal that the callback indexes with the matched
    character. *)
Definition entities : list (N * JsString) :=
  [ (38, units "&amp;"); (60, units "&lt;");
    (62, units "&gt;"); (34, units "&quot;") ]%N.

Fixpoint property (c : N) (o : list (N * JsString)) : option JsString :=
  match o with
  | [] => None
  | (k, v) :: o' => if (k =? c)%N then Some v else property c o'
  end.

(** The callback of [replace]; a result [undefined] would be inserted as
    the text "undefined". *)
Definition entity (c : N) : JsString :=
  match property c entities with
  | Some e => e
  | None => units "undefined"
  end.

(** [str.replace(pattern, callback)] with the global flag, the pattern
    being the character class [markup]: every code unit of the class is
    replaced by what the callback returns for it, every other one is
    kept. *)
Definition escape_unit (c : N) : JsString :=
  if existsb (N.eqb c) markup then entity c else [c].

Definition escapeHTML (str : JsString) : JsString := flat_map escape_unit str.

(** *** [findCodeBlockRange] *)

(** A document, by its lines. *)
Definition TextDocument : Type := list JsString.

Definition lineCount (doc : TextDocument) : nat := length doc.

(** [doc.lineAt(line)] throws for a line that the document does not have:
    [None]. *)
Definition lineAt (doc : TextDocument) (line : nat) : option JsString :=
  nth_error doc line.

Record Position : Type := mkPosition { line : nat; character : nat }.

(** [end] is a keyword here: the field is [end_]. *)
Record Range : Type := mkRange { start : Position; end_ : Position }.

(** [a.isAfter(b)] *)
Definition isAfter (a b : Position) : bool :=
  (line b <? line a)%nat
  || ((line a =? line b)%nat && (character b <? character a)%nat).

(** [new vscode.Range(a, b)]: the constructor puts the earlier of the two
    positions first. *)
Definition newRange (a b : Position) : Range :=
  if isAfter a b then mkRange b a else mkRange a b.

Definition lbrace : JsString := units "{".
Definition rbrace : JsString := units "}".

(** The first loop, [while (start > 0) ...], with the value of [start]
    when it is left. *)
Fixpoint scan_up (doc : TextDocument) (start : nat) : option nat :=
  match start with
  | O => Some O
  | S above =>
      match lineAt doc start with
      | None => None
      | Some text =>
          if includes lbrace text then Some start else scan_up doc above
      end
  end.

(** The second loop, [while (end < doc.lineCount - 1) ...]. *)
Equations? scan_down (doc : TextDocument) (e : nat) : option nat
  by wf (lineCount doc - e)%nat lt :=
  scan_down doc e with le_lt_dec (lineCount doc) (S e) => {
    | left _ => Some e;
    | right _ with lineAt doc e => {
        | None => None;
        | Some text =>
            if includes rbrace text then Some e else scan_down doc (S e)
      }
  }.
Proof. lia. Qed.

(** The lines at which the loops stop for a brace. *)
Definition opens (doc : TextDocument) (n : nat) : Prop :=
  exists text, lineAt doc n = Some text /\ includes lbrace text = true.

Definition closes (doc : TextDocument) (n : nat) : Prop :=
  exists text, lineAt doc n = Some text /\ includes rbrace text = true.

Definition findCodeBlockRange (doc : TextDocument) (range : Range)
  : option Range :=
  match scan_up doc (line (start range)) with
  | None => None
  | Some s =>
      match scan_down doc (line (end_ range)) with
      | None => None
      | Some e =>
          match lineAt doc e with
          | None => None
          | Some text =>
              Some (newRange (mkPosition s 0) (mkPosition e (length text)))
          end
      end
  end.

(** A function of five lines; the selection is its body. *)
Definition sample : TextDocument :=
  map units
    [ "function f(a) {"; "  let x = a + 1;"; "  return x;"; "}"; "f(1);" ]%string.

Definition selection : Range := mkRange (mkPosition 1 6) (mkPosition 2 3).

Definition block : Range := mkRange (mkPosition 0 0) (mkPosition 3 1).

End Extension.

(* ================================================================= *)
(** ** The routes of the server: server.ts *)

Module Handlers.
Import Js Server.

(** *** The clean-up of the answer in [/fix] *)

(** Three backticks. *)
Definition fence : JsString := [96; 96; 96]%N.

(** The offset of the first occurrence of [p] in [s]. *)
Fixpoint indexOf (p s : JsString) : option nat :=
  if startsWith p s then Some 0%nat
  else match s with
       | [] => None
       | _ :: s' => option_map S (indexOf p s')
       end.

(** The first pattern at the beginning of [s]: a fence, as few code
    units of any kind as possible, a fence.  The result is the length of
    the match. *)
Definition fenced (s : JsString) : option nat :=
  if startsWith fence s then
    match indexOf fence (skipn 3 s) with
    | Some k => Some (3 + k + 3)%nat
    | None => None
    end
  else None.

(** The second pattern: a fence. *)
Definition bare_fence (s : JsString) : option nat :=
  if startsWith fence s then Some 3%nat else None.

(** [[a-zA-Z]] *)
Definition isLetter (c : N) : bool :=
  (((97 <=? c) && (c <=? 122)) || ((65 <=? c) && (c <=? 90)))%N.

Fixpoint letters (s : JsString) : nat :=
  match s with
  | c :: s' => if isLetter c then S (letters s') else 0%nat
  | [] => 0%nat
  end.

(** The third pattern: a fence and as many letters as follow it. *)
Definition tagged_fence (s : JsString) : option nat :=
  if startsWith fence s then Some (3 + letters (skipn 3 s))%nat else None.

(** [s.replace(pattern, "")] for a pattern with the global flag: the
    matches are looked for from left to right, each search starting
    where the match before it ended; what lies between the matches is
    kept.  [pattern s] is the length of the match at the beginning of
    [s]; where the match is empty or there is none, the search moves on
    by one code unit. *)
Equations? remove (pattern : JsString -> option nat) (s : JsString) : JsString
  by wf (length s) lt :=
  remove pattern [] := [];
  remove pattern (c :: s') with pattern (c :: s') => {
    | Some (S k) => remove pattern (skipn k s');
    | _ => c :: remove pattern s'
  }.
Proof.
  all: simpl; try rewrite length_skipn; lia.
Qed.

(** The four assignments to [raw]. *)
Definition clean (raw : JsString) : JsString :=
  let raw := remove fenced raw in
  let raw := remove bare_fence raw in
  let raw := remove tagged_fence raw in
  trim raw.

(** The number of backticks at the beginning of a string. *)
Fixpoint backticks (s : JsString) : nat :=
  match s with
  | c :: s' => if (c =? 96)%N then S (backticks s') else 0%nat
  | [] => 0%nat
  end.

(** *** Requests and responses *)

(** [req.body] as [express.json()] leaves it: an object, by its own
    properties. *)
Definition Body : Type := list (string * JsValue).

Fixpoint own (key : string) (body : Body) : option JsValue :=
  match body with
  | [] => None
  | (k, v) :: body' => if String.eqb k key then Some v else own key body'
  end.

(** What is passed to [res.json]. *)
Inductive Payload : Type :=
| Error (error : string)                         (* { error } *)
| ErrorDetails (error : string) (details : JsValue)   (* { error, details } *)
| Issues (issues : JsValue)                      (* { issues } *)
| Fixed (output : JsString)                      (* { success: true, output } *)
| Explained (output : option JsString).          (* { output } *)

Arguments Error error%_string.
Arguments ErrorDetails error%_string details%_string.

(** [res.status(status).json(payload)]; [res.json(payload)] sends 200. *)
Record Response : Type := mkResponse { status : Z; payload : Payload }.

(** The result of evaluating [response.choices[0].message.content]. *)
Inductive Access : Type :=
| Throws (err : JsValue)            (* a property is read from [undefined] *)
| Content (text : option JsString). (* [None]: [null] or [undefined] *)

(** What a handler did: the responses it sent, what it wrote with
    [console.error], whether it ended with an exception that nothing
    caught, and the calls of the model. *)
Record Handled : Type := mkHandled {
  sent : list Response;
  logged : list (string * JsValue);
  uncaught : bool;
  world : World
}.

Section Routes.

(** The properties that a body inherits from its prototype. *)
Variable prototype : string -> option JsValue.

(** Whether a value counts as true in a condition. *)
Variable truthy : JsValue -> bool.

(** The content of the first choice of a completion. *)
Variable content : JsValue -> Access.

(** [JSON.parse]; [None] when it throws. *)
Variable JSON_parse : JsString -> option JsValue.

(** The value of the array literal [[]]. *)
Variable empty_array : JsValue.

(** [body[key]] *)
Definition get (key : string) (body : Body) : option JsValue :=
  match own key body with
  | Some v => Some v
  | None => prototype key
  end.

(** [key in body] *)
Definition has (key : string) (body : Body) : bool :=
  match get key body with
  | Some _ => true
  | None => false
  end.

(** The loop of [safeBody]: the key at which it returns. *)
Fixpoint missing (required : list string) (body : Body) : option string :=
  match required with
  | [] => None
  | key :: required' =>
      if has key body then missing required' body else Some key
  end.

(** [safeBody(req, res, required)]: what it returns and what it sends. *)
Definition safeBody (body : option Body) (required : list string)
  : option Body * list Response :=
  match body with
  | None => (None, [mkResponse 400 (Error "Missing JSON body")])
  | Some b =>
      match missing required b with
      | Some key =>
          (None, [mkResponse 400 (Error ("Missing required field: " ++ key))])
      | None => (Some b, [])
      end
  end.

(** [x || d] for a string or [null]. *)
Definition or_else (text : option JsString) (d : JsString) : JsString :=
  match text with
  | Some (c :: t) => c :: t
  | _ => d
  end.

(** [app.post("/analyze", ...)] *)
Definition post_analyze (body : option Body) (fn : nat -> Outcome) (w : World)
  : Handled :=
  match safeBody body ["code"; "language"]%string with
  | (None, out) => mkHandled out [] false w
  | (Some _, out) =>
      match call_fn fn w with
      | (Fulfilled response, w1) =>
          let issues :=
            match content response with
            | Throws _ => empty_array
            | Content text =>
                match JSON_parse (or_else text (units "[]")) with
                | Some v => v
                | None => empty_array
                end
            end in
          mkHandled (out ++ [mkResponse 200 (Issues issues)]) [] false w1
      | (Thrown err, w1) =>
          mkHandled (out ++ [mkResponse 500 (Error "Analyze failed")])
            [("Analyze error:"%string, err)] false w1
      end
  end.

(** [app.post("/fix", ...)] *)
Definition post_fix (body : option Body) (fn : nat -> Outcome) (w : World)
  : Handled :=
  match body with
  | None => mkHandled [] [] true w
  | Some b =>
      let code := get "code" b in
      if match code with Some v => truthy v | None => false end then
        match safeAIRequest_default fn w with
        | (Fulfilled ai, w1) =>
            match content ai with
            | Throws err =>
                mkHandled [mkResponse 500 (ErrorDetails "Fix failed" err)]
                  [("Fix error:"%string, err)] false w1
            | Content text =>
                match clean (or_else text []) with
                | [] =>
                    mkHandled [mkResponse 500 (Error "AI returned empty fix")]
                      [] false w1
                | c :: raw =>
                    mkHandled [mkResponse 200 (Fixed (c :: raw))] [] false w1
                end
            end
        | (Thrown err, w1) =>
            mkHandled [mkResponse 500 (ErrorDetails "Fix failed" err)]
              [("Fix error:"%string, err)] false w1
        end
      else mkHandled [mkResponse 400 (Error "Missing code")] [] false w
  end.

(** [app.post("/explain", ...)] *)
Definition post_explain (body : option Body) (fn : nat -> Outcome) (w : World)
  : Handled :=
  match safeBody body ["code"; "language"]%string with
  | (None, out) => mkHandled out [] false w
  | (Some _, out) =>
      match call_fn fn w with
      | (Fulfilled response, w1) =>
          match content response with
          | Throws err =>
              mkHandled (out ++ [mkResponse 500 (Error "Explain failed")])
                [("Explain error:"%string, err)] false w1
          | Content text =>
              mkHandled (out ++ [mkResponse 200 (Explained text)]) [] false w1
          end
      | (Thrown err, w1) =>
          mkHandled (out ++ [mkResponse 500 (Error "Explain failed")])
            [("Explain error:"%string, err)] false w1
      end
  end.

End Routes.

(** *** Requests used as examples *)

(** A body has no properties but its own. *)
Definition no_prototype (key : string) : option JsValue := None.

(** The values of the examples are strings: the empty one counts as
    false. *)
Definition nonempty (v : JsValue) : bool := negb (String.eqb v EmptyString).

(** A completion whose first choice has the text of the label. *)
Definition text_of (v : JsValue) : Access := Content (Some (units v)).

(** A parser that knows the empty array and nothing else. *)
Definition parse_empty_array (s : JsString) : option JsValue :=
  if list_eq_dec N.eq_dec s (units "[]") then Some "[]"%string else None.

Definition request : Body := [("code", "let x = 1"); ("language", "ts")]%string.

Definition no_language : Body := [("code", "let x = 1")]%string.

(** The answer that the model gives when it fences its code. *)
Definition fenced_answer : JsString :=
  units "```ts" ++ [10%N] ++ units "let x = 1;" ++ [10%N] ++ units "```"
    ++ [10%N].

Definition fenced_inner : JsString :=
  units "ts" ++ [10%N] ++ units "let x = 1;" ++ [10%N].

Definition answers_fenced (v : JsValue) : Access := Content (Some fenced_answer).

End Handlers.

(* ================================================================= *)
(** ** The watch on the documents: the listener and [scheduleAnalysis] *)

Module Debounce.

(** An open document: what the code reads of it besides its text. *)
Record Document : Type := mkDocument {
  uri : nat;            (* which document it is *)
  scheme : string;      (* [document.uri.scheme] *)
  languageId : string
}.

Arguments mkDocument uri%_nat scheme%_string languageId%_string.

(** The settings under [aiAgent] that the code reads here; [None]: the
    setting has no value, and [config.get] returns its default. *)
Record Config : Type := mkConfig {
  autoAnalyze : option bool;
  enabledLanguages : option (list string);
  maxFileSize : option Z;
  debounceMs : option Z
}.

(** A timeout that is set and has not fired: its handle, when it was set,
    the delay passed to [setTimeout], and the document that its callback
    [() => analyzeDocument(doc)] holds. *)
Record Timeout : Type := mkTimeout {
  handle : nat;
  setAt : Z;
  delay : Z;
  document : Document
}.

Record Watcher : Type := mkWatcher {
  (* the variables of the module *)
  isAnalysisEnabled : bool;
  analyzeTimer : option nat;     (* the handle that the last [setTimeout] returned *)
  (* the event loop and the documents *)
  timeouts : list Timeout;
  nextTimeout : nat;
  texts : nat -> string;         (* what [getText()] returns now, by document *)
  (* [isAnalyzing], [cancelSource] and the log of [analyzeDocument] *)
  editor : Analysis.Editor
}.

Definition start : Watcher :=
  mkWatcher true None [] 0 (fun _ => EmptyString) Analysis.fresh.

Definition set_editor (ed : Analysis.Editor) (s : Watcher) : Watcher :=
  mkWatcher (isAnalysisEnabled s) (analyzeTimer s) (timeouts s) (nextTimeout s)
    (texts s) ed.

Definition set_timeouts (l : list Timeout) (s : Watcher) : Watcher :=
  mkWatcher (isAnalysisEnabled s) (analyzeTimer s) l (nextTimeout s)
    (texts s) (editor s).

Definition set_isAnalysisEnabled (b : bool) (s : Watcher) : Watcher :=
  mkWatcher b (analyzeTimer s) (timeouts s) (nextTimeout s) (texts s) (editor s).

(** The text of a document changes. *)
Definition set_text (doc : nat) (text : string) (s : Watcher) : Watcher :=
  mkWatcher (isAnalysisEnabled s) (analyzeTimer s) (timeouts s) (nextTimeout s)
    (fun d => if (d =? doc)%nat then text else texts s d) (editor s).

(** [clearTimeout(h)]: nothing happens when the timeout has fired. *)
Definition clearTimeout (h : nat) (s : Watcher) : Watcher :=
  set_timeouts (filter (fun tm => negb (handle tm =? h)%nat) (timeouts s)) s.

(** [scheduleAnalysis(doc)] *)
Definition scheduleAnalysis (now : Z) (doc : Document) (config : Config)
    (s : Watcher) : Watcher :=
  let debounceMs := match debounceMs config with Some ms => ms | None => 1500 end in
  let s := match analyzeTimer s with
           | Some h => clearTimeout h s
           | None => s
           end in
  let h := nextTimeout s in
  mkWatcher (isAnalysisEnabled s) (Some h)
    (timeouts s ++ [mkTimeout h now debounceMs doc]) (S h) (texts s) (editor s).

(** [updateStatusBar()] *)
Definition updateStatusBar (s : Watcher) : Watcher :=
  set_editor (Analysis.log [Analysis.UpdateStatusBar "idle" 0] (editor s)) s.

(** The command [ai.toggleAnalysis]; the information message that it
    shows is not part of the log. *)
Definition toggleAnalysis (s : Watcher) : Watcher :=
  updateStatusBar (set_isAnalysisEnabled (negb (isAnalysisEnabled s)) s).

(** The listener of [onDidChangeConfiguration], for a change that affects
    [aiAgent]. *)
Definition onDidChangeConfiguration (config : Config) (s : Watcher) : Watcher :=
  let enabled := match autoAnalyze config with Some b => b | None => true end in
  updateStatusBar (set_isAnalysisEnabled enabled s).

Fixpoint take_timeout (h : nat) (l : list Timeout)
  : option (Timeout * list Timeout) :=
  match l with
  | [] => None
  | tm :: l' =>
      if (handle tm =? h)%nat then Some (tm, l')
      else match take_timeout h l' with
           | Some (x, r) => Some (x, tm :: r)
           | None => None
           end
  end.

Inductive Event : Type :=
| Change (doc : Document) (text : string) (config : Config)
    (* the text of a document has changed: the listener runs *)
| Toggle                              (* [ai.toggleAnalysis] *)
| Configure (config : Config)         (* the settings under [aiAgent] change *)
| Fire (h : nat)                      (* the timeout [h] fires *)
| Command (doc : Document)            (* [ai.analyze] on the active document *)
| Settle (token : nat) (r : Analysis.Reply). (* the post of an analysis settles *)

Arguments Change doc text%_string config.

Section Loop.

(** [!code.trim()] *)
Variable blank : string -> bool.

(** [text.length] *)
Variable text_length : string -> Z.

(** The listener of [onDidChangeTextDocument], with the settings at the
    time of the event. *)
Definition onDidChangeTextDocument (now : Z) (doc : Document) (config : Config)
    (s : Watcher) : Watcher :=
  if negb (isAnalysisEnabled s) then s
  else if negb (String.eqb (scheme doc) "file") then s
  else
    let enabled := match enabledLanguages config with
                   | Some l => l
                   | None => []
                   end in
    if negb (length enabled =? 0)%nat
       && negb (existsb (String.eqb (languageId doc)) enabled)
    then s
    else
      let maxFile := match maxFileSize config with
                     | Some n => n
                     | None => 100000
                     end in
      if maxFile <? text_length (texts s (uri doc)) then s
      else scheduleAnalysis now doc config s.

(** [analyzeDocument(doc)] up to its first suspension. *)
Definition analyze (doc : Document) (s : Watcher) : Watcher :=
  set_editor (Analysis.analyzeDocument blank (texts s (uri doc)) (editor s)) s.

(** One turn of the event loop at the time [t]. *)
Definition step (t : Z) (e : Event) (s : Watcher) : option Watcher :=
  match e with
  | Change doc text config =>
      Some (onDidChangeTextDocument t doc config (set_text (uri doc) text s))
  | Toggle => Some (toggleAnalysis s)
  | Configure config => Some (onDidChangeConfiguration config s)
  | Fire h =>
      match take_timeout h (timeouts s) with
      | Some (tm, rest) => Some (analyze (document tm) (set_timeouts rest s))
      | None => None
      end
  | Command doc => Some (analyze doc s)
  | Settle token r =>
      match Analysis.turn blank (Analysis.Settled token r) (editor s) with
      | Some ed => Some (set_editor ed s)
      | None => None
      end
  end.

Fixpoint run (evs : list (Z * Event)) (s : Watcher) : option Watcher :=
  match evs with
  | [] => Some s
  | (t, e) :: evs' =>
      match step t e s with
      | Some s' => run evs' s'
      | None => None
      end
  end.

End Loop.

(** The only timeout that can be pending is the one in [analyzeTimer]. *)
Definition One (s : Watcher) : Prop :=
  (length (timeouts s) <= 1)%nat
  /\ forall tm, In tm (timeouts s) -> analyzeTimer s = Some (handle tm).

(** *** Runs used as examples *)

Definition main_ts : Document := mkDocument 0 "file" "typescript".
Definition util_ts : Document := mkDocument 1 "file" "typescript".

Definition defaults : Config := mkConfig None None None None.
Definition quick : Config := mkConfig None None None (Some 500).

(** The length of a text of ASCII characters. *)
Definition ascii_length (text : string) : Z := Z.of_nat (String.length text).

Definition final (evs : list (Z * Event)) : Watcher :=
  match run Analysis.blank_if_empty ascii_length evs start with
  | Some s => s
  | None => start
  end.

(** Three changes in a row, the first in another document than the two
    that follow. *)
Definition burst : list (Z * Event) :=
  [ (0, Change main_ts "a" defaults);
    (400, Change util_ts "b" defaults);
    (900, Change util_ts "bc" quick) ].

Definition after_burst : Watcher := Eval vm_compute in final burst.

(** A document is being analysed when it is changed again. *)
Definition edit_during_analysis : list (Z * Event) :=
  [ (0, Change main_ts "a" defaults); (1500, Fire 0);
    (1600, Change main_ts "ab" defaults) ].

Definition analysing : Watcher := Eval vm_compute in final edit_during_analysis.

(** A document has changed and its analysis is due. *)
Definition just_changed : Watcher :=
  Eval vm_compute in final [ (0, Change main_ts "a" defaults) ].

Definition switched_off : list (Z * Event) := [ (700, Toggle); (1500, Fire 0) ].

Definition analysed_although_off : Watcher :=
  Eval vm_compute in
    match run Analysis.blank_if_empty ascii_length switched_off just_changed with
    | Some s => s
    | None => start
    end.

End Debounce.

(* ================================================================= *)
(** ** Inline suggestions: AiInlineSuggestionProvider.js *)

Module Inline.

(** How the post to [/suggest] settles. *)
Inductive Reply : Type :=
| Answered (completion output : option JsValue)
    (* fulfilled, with [resp.data?.completion] and [resp.data?.output];
       [None] is [undefined] *)
| Failed (err : JsValue)    (* rejected, not by a cancellation *)
| Cancelled.                (* rejected with the axios [Cancel] of its token *)

Record Provider : Type := mkProvider {
  lastRequest : option nat;    (* [this.lastRequest], by the number of its token *)
  nextToken : nat;
  awaiting : list nat;         (* tokens of the posts that have not settled *)
  aborted : list nat;          (* tokens cancelled while their post was pending *)
  (* the log *)
  returned : list (nat * option JsValue);
    (* what each call returned: [Some suggestion] for the one item, [None]
       for [undefined] *)
  errors : list JsValue        (* console.error("Inline suggestion error:", err) *)
}.

Definition fresh : Provider := mkProvider None 0 [] [] [] [].

(** [this.lastRequest.cancel(message)] *)
Definition cancel (token : nat) (s : Provider) : Provider :=
  if Analysis.mem token (awaiting s)
  then mkProvider (lastRequest s) (nextToken s) (awaiting s) (token :: aborted s)
         (returned s) (errors s)
  else s.

(** [provideInlineCompletionItems] up to [await axios.post(...)]. *)
Definition provideInlineCompletionItems (s : Provider) : Provider :=
  let s := match lastRequest s with
           | Some token => cancel token s
           | None => s
           end in
  let token := nextToken s in
  mkProvider (Some token) (S token) (awaiting s ++ [token]) (aborted s)
    (returned s) (errors s).

Section Suggest.

(** Whether a value counts as true in a condition. *)
Variable truthy : JsValue -> bool.

Definition truthy_or_undefined (v : option JsValue) : bool :=
  match v with
  | Some x => truthy x
  | None => false
  end.

(** The call from the point where the post has settled. *)
Definition resume (token : nat) (r : Reply) (s : Provider) : Provider :=
  match r with
  | Answered completion output =>
      let suggestion :=
        if truthy_or_undefined completion then completion else output in
      let result :=
        if truthy_or_undefined suggestion then suggestion else None in
      mkProvider (lastRequest s) (nextToken s) (awaiting s) (aborted s)
        (returned s ++ [(token, result)]) (errors s)
  | Failed err =>
      mkProvider (lastRequest s) (nextToken s) (awaiting s) (aborted s)
        (returned s ++ [(token, None)]) (errors s ++ [err])
  | Cancelled =>
      mkProvider (lastRequest s) (nextToken s) (awaiting s) (aborted s)
        (returned s ++ [(token, None)]) (errors s)
  end.

Inductive Input : Type :=
| Provide                              (* the editor asks for suggestions *)
| Settled (token : nat) (r : Reply).   (* the post with this token settles *)

Definition is_cancelled (r : Reply) : bool :=
  match r with Cancelled => true | _ => false end.

(** A post rejects with a [Cancel] exactly when it was aborted. *)
Definition turn (e : Input) (s : Provider) : option Provider :=
  match e with
  | Provide => Some (provideInlineCompletionItems s)
  | Settled token r =>
      if Analysis.mem token (awaiting s)
         && Bool.eqb (is_cancelled r) (Analysis.mem token (aborted s))
      then Some (resume token r
                   (mkProvider (lastRequest s) (nextToken s)
                      (filter (fun t => negb (t =? token)%nat) (awaiting s))
                      (aborted s) (returned s) (errors s)))
      else None
  end.

Fixpoint turns (evs : list Input) (s : Provider) : option Provider :=
  match evs with
  | [] => Some s
  | e :: evs' =>
      match turn e s with
      | Some s' => turns evs' s'
      | None => None
      end
  end.

End Suggest.

(** What keeps the answers apart: a pending post is the latest one or was
    aborted, and the latest one was not. *)
Definition Superseded (s : Provider) : Prop :=
  (forall token, In token (awaiting s) ->
                 lastRequest s = Some token \/ In token (aborted s))
  /\ (forall token, In token (aborted s) ->
                    (token < nextToken s)%nat /\ lastRequest s <> Some token)
  /\ (forall token, lastRequest s = Some token -> (token < nextToken s)%nat).

(** Two requests, the second before the first has an answer. *)
Definition typing_fast : Provider :=
  Eval vm_compute in
    match turns Handlers.nonempty [Provide; Provide] fresh with
    | Some s => s
    | None => fresh
    end.

Definition first_dropped : Provider :=
  Eval vm_compute in
    match turn Handlers.nonempty (Settled 0 Cancelled) typing_fast with
    | Some s => s
    | None => fresh
    end.

End Inline.

(* ================================================================= *)
(** ** The countdown of the status bar *)

Module Countdown.
Import AiScheduler.

(** An interval timer that is live although [cooldownInterval] does not
    hold it: [stopCooldown] has no way to clear it. *)
Definition leaked (id : nat) (s : State) : Prop :=
  In id (map fst (intervals s))
  /\ cooldownInterval s <> Some id
  /\ (id < nextTimerId s)%nat.

(** The countdown of the timer [id] is under way and shows [m]. *)
Definition counting (id : nat) (m : Z) (s : State) : Prop :=
  statusBarItem s = Some (cooldownText m)
  /\ cooldownInterval s = Some id
  /\ lookup_interval id (intervals s) = Some m
  /\ 1 <= m.

(** The countdown of the timer [id] is over. *)
Definition stopped (id : nat) (s : State) : Prop :=
  statusBarItem s = Some readyText
  /\ cooldownInterval s = None
  /\ ~ In id (map fst (intervals s)).

(** The interval timer [id] fires at each of the given times. *)
Definition ticks (id : nat) (times : list Z) : list (Z * Event) :=
  map (fun t => (t, IntervalTick id)) times.

(** Two jobs are submitted during the cooldown that follows a call. *)
Definition two_countdowns_trace : list (Z * Event) :=
  [ (0, InitScheduler "AI");
    (100000, RunAI "a" None); (100500, FnSettled 0 (Fulfilled "a"));
    (101000, RunAI "b" None); (102000, RunAI "c" None) ].

Definition two_countdowns : State :=
  Eval vm_compute in Examples.final MIN_DELAY two_countdowns_trace.

(** The timer of the first countdown, which nothing holds any more, has
    fired twenty times. *)
Definition twenty_seconds : list Z :=
  [ 102000; 103000; 104000; 105000; 106000; 107000; 108000; 109000; 110000;
    111000; 112000; 113000; 114000; 115000; 116000; 117000; 118000; 119000;
    120000; 121000 ].

Definition run_down : State :=
  Eval vm_compute in
    Examples.final MIN_DELAY (two_countdowns_trace ++ ticks 0 twenty_seconds).

(** A status bar item and no timer. *)
Definition with_status_bar : State := initScheduler "AI" init.

End Countdown.

(* ================================================================= *)
(** ** Facts about the retry wrapper *)

Section RetryFacts.
Import Server.

Lemma safeAIRequest_step fn retries w :
  safeAIRequest fn retries w =
  match fn (calls w) with
  | Fulfilled value =>
      (Fulfilled value, mkWorld (S (calls w)) (effects w ++ [Invoke (calls w)]))
  | Thrown err =>
      if retries <=? 0
      then (Thrown err, mkWorld (S (calls w)) (effects w ++ [Invoke (calls w)]))
      else safeAIRequest fn (retries - 1)
             (emit [Warn err; SetTimeout 1000]
                (mkWorld (S (calls w)) (effects w ++ [Invoke (calls w)])))
  end.
Proof.
  simp safeAIRequest. unfold call_fn.
  destruct (fn (calls w)) as [v|e]; simpl; [reflexivity|].
  destruct (Z_le_gt_dec retries 0) as [Hle|Hgt]; simpl.
  - apply Z.leb_le in Hle. rewrite Hle. reflexivity.
  - destruct (Z.leb_spec retries 0); [lia|reflexivity].
Qed.

(** The [k] first attempts fail with [errs], and attempt [k] either is the
    last one allowed or succeeds: the call ends at attempt [k] with what
    that attempt settled with. *)
Lemma safeAIRequest_run (errs : nat -> JsValue) fn :
  forall (k : nat) (retries : Z) (w : World),
    Z.of_nat k <= retries ->
    (forall i, (i < k)%nat -> fn (calls w + i)%nat = Thrown (errs (calls w + i)%nat)) ->
    (Z.of_nat k = retries \/ exists v, fn (calls w + k)%nat = Fulfilled v) ->
    safeAIRequest fn retries w =
    (fn (calls w + k)%nat,
     mkWorld (S (calls w + k))
       (effects w ++ flat_map (retry_round errs) (seq (calls w) k)
          ++ [Invoke (calls w + k)%nat])).
Proof.
  induction k as [|k IH]; intros retries w Hk Hfail Hend.
  - rewrite safeAIRequest_step. rewrite Nat.add_0_r in *. simpl.
    destruct (fn (calls w)) as [v|e] eqn:E; [reflexivity|].
    destruct Hend as [H0|[v Hv]]; [|congruence].
    simpl in H0. subst retries. reflexivity.
  - rewrite safeAIRequest_step.
    rewrite <- (Nat.add_0_r (calls w)) at 1.
    rewrite (Hfail 0%nat) by lia. rewrite Nat.add_0_r.
    destruct (Z.leb_spec retries 0); [lia|].
    rewrite (IH (retries - 1)); simpl calls; simpl effects.
    + replace (S (calls w) + k)%nat with (calls w + S k)%nat by lia.
      f_equal. f_equal. unfold retry_round at 2. simpl.
      rewrite <- !app_assoc. reflexivity.
    + lia.
    + intros i Hi. replace (S (calls w) + i)%nat with (calls w + S i)%nat by lia.
      apply Hfail. lia.
    + replace (S (calls w) + k)%nat with (calls w + S k)%nat by lia.
      destruct Hend as [H0|H0]; [left; lia|right; exact H0].
Qed.

Lemma delays_rounds errs n k :
  filter is_delay (flat_map (retry_round errs) (seq n k)) = repeat (SetTimeout 1000) k.
Proof.
  revert n. induction k as [|k IH]; intros n; simpl; [reflexivity|].
  rewrite IH. reflexivity.
Qed.

Lemma attempts_rounds errs n k :
  filter is_invoke (flat_map (retry_round errs) (seq n k)) = map Invoke (seq n k).
Proof.
  revert n. induction k as [|k IH]; intros n; simpl; [reflexivity|].
  rewrite IH. reflexivity.
Qed.

End RetryFacts.

(* ================================================================= *)
(** ** The retry contract *)

Section RetryContract.
Import Server.

(** C4: retry contract of [safeAIRequest], for every [fn] and every
    [maxRetries >= 0].  If [fn] fails on every attempt, it is called
    [maxRetries + 1] times, one wait of 1000 ms stands before each retry
    ([maxRetries] waits in all), and the call fails with the error of the
    last attempt, unchanged.  If attempt [k <= maxRetries] is the first to
    succeed, the call returns its value after exactly [k] waits. *)
Theorem safeAIRequest_retry_contract
    (fn : nat -> Outcome) (errs : nat -> JsValue) (maxRetries : Z) :
  0 <= maxRetries ->
  ((forall i, Z.of_nat i <= maxRetries -> fn i = Thrown (errs i)) ->
   let r := safeAIRequest fn maxRetries world0 in
   let n := Z.to_nat maxRetries in
   fst r = Thrown (errs n)
   /\ attempts (snd r) = map Invoke (seq 0 (S n))
   /\ delays (snd r) = repeat (SetTimeout 1000) n
   /\ effects (snd r) = flat_map (retry_round errs) (seq 0 n) ++ [Invoke n])
  /\
  (forall k v,
      Z.of_nat k <= maxRetries ->
      (forall i, (i < k)%nat -> fn i = Thrown (errs i)) ->
      fn k = Fulfilled v ->
      let r := safeAIRequest fn maxRetries world0 in
      fst r = Fulfilled v
      /\ attempts (snd r) = map Invoke (seq 0 (S k))
      /\ delays (snd r) = repeat (SetTimeout 1000) k
      /\ effects (snd r) = flat_map (retry_round errs) (seq 0 k) ++ [Invoke k]).
Proof.
  intros Hpos.
  assert (Hrun : forall k,
             Z.of_nat k <= maxRetries ->
             (forall i, (i < k)%nat -> fn i = Thrown (errs i)) ->
             (Z.of_nat k = maxRetries \/ exists v, fn k = Fulfilled v) ->
             let r := safeAIRequest fn maxRetries world0 in
             fst r = fn k
             /\ attempts (snd r) = map Invoke (seq 0 (S k))
             /\ delays (snd r) = repeat (SetTimeout 1000) k
             /\ effects (snd r)
                = flat_map (retry_round errs) (seq 0 k) ++ [Invoke k]).
  { intros k Hk Hfail Hend r. subst r.
    rewrite (safeAIRequest_run errs fn k maxRetries world0 Hk Hfail Hend).
    cbn [fst snd calls effects world0 Nat.add app].
    unfold attempts, delays. cbn [effects].
    rewrite !filter_app, delays_rounds, attempts_rounds.
    cbn [filter is_delay is_invoke]. rewrite app_nil_r, seq_S, map_app.
    repeat split. }
  split.
  - intros Hall r n.
    destruct (Hrun n) as (R1 & R2 & R3 & R4).
    + subst n. lia.
    + intros i Hi. apply Hall. subst n. lia.
    + left. subst n. lia.
    + subst r. rewrite R1. repeat split; try assumption.
      apply Hall. subst n. lia.
  - intros k v Hk Hfail Hok r.
    destruct (Hrun k Hk Hfail) as (R1 & R2 & R3 & R4).
    + right. exists v. exact Hok.
    + subst r. rewrite R1. repeat split; assumption.
Qed.

(** The contract at work: two retries allowed; first a thunk that always
    fails, then one that fails twice and succeeds on its third call. *)
Lemma safeAIRequest_retry_contract_witness :
  (let r := safeAIRequest (fun _ => Thrown "Network") 2 world0 in
   fst r = Thrown "Network"
   /\ length (attempts (snd r)) = 3%nat
   /\ delays (snd r) = [SetTimeout 1000; SetTimeout 1000])
  /\
  (let r := safeAIRequest
              (fun i => if (i <? 2)%nat then Thrown "Timeout" else Fulfilled "patched")
              2 world0 in
   fst r = Fulfilled "patched"
   /\ delays (snd r) = [SetTimeout 1000; SetTimeout 1000]).
Proof.
  split.
  - destruct (safeAIRequest_retry_contract
                (fun _ => Thrown "Network") (fun _ => "Network"%string) 2
                ltac:(lia)) as [Hall _].
    destruct (Hall (fun _ _ => eq_refl)) as (R1 & R2 & R3 & _).
    split; [exact R1|]. split; [rewrite R2; reflexivity|exact R3].
  - destruct (safeAIRequest_retry_contract
                (fun i => if (i <? 2)%nat then Thrown "Timeout" else Fulfilled "patched")
                (fun _ => "Timeout"%string) 2 ltac:(lia)) as [_ Hk].
    destruct (Hk 2%nat "patched"%string ltac:(simpl; lia)) as (R1 & _ & R3 & _).
    + intros i Hi. destruct i as [|[|i]]; [reflexivity|reflexivity|lia].
    + reflexivity.
    + split; [exact R1|exact R3].
Defined.

End RetryContract.

(* ================================================================= *)
(** ** The status bar does not steer the scheduler *)

Section DisplayFacts.
Import AiScheduler.

Lemma hide_initScheduler text s : hide (initScheduler text s) = hide s.
Proof. reflexivity. Qed.

Lemma hide_stopCooldown s : hide (stopCooldown s) = hide s.
Proof.
  unfold stopCooldown.
  destruct (statusBarItem s); [|reflexivity].
  destruct (cooldownInterval s); reflexivity.
Qed.

Lemma hide_startCooldown ms s : hide (startCooldown ms s) = hide s.
Proof. unfold startCooldown. destruct (statusBarItem s); reflexivity. Qed.

Lemma hide_cooldownTick id remaining s : hide (cooldownTick id remaining s) = hide s.
Proof.
  unfold cooldownTick.
  destruct (remaining - 1 <=? 0); [|reflexivity].
  rewrite hide_stopCooldown. reflexivity.
Qed.

(** Each of the three display routines leaves the queue, the flag and the
    timestamp as they are. *)
Lemma display_frame (f : State -> State) s :
  hide (f s) = hide s ->
  jobQueue (f s) = jobQueue s /\ isRunning (f s) = isRunning s
  /\ lastCallTime (f s) = lastCallTime s.
Proof.
  intros H.
  change (jobQueue (hide (f s)) = jobQueue (hide s)
          /\ isRunning (hide (f s)) = isRunning (hide s)
          /\ lastCallTime (hide (f s)) = lastCallTime (hide s)).
  rewrite H. auto.
Qed.

Lemma hide_processQueue_dispatch now s :
  hide (processQueue_dispatch now s) = processQueue_dispatch now (hide s).
Proof.
  unfold processQueue_dispatch.
  pose proof (hide_stopCooldown s) as H.
  destruct (stopCooldown s) as [q r l sb ci sl inf iv nt nh sub dis stl].
  destruct s as [q' r' l' sb' ci' sl' inf' iv' nt' nh' sub' dis' stl'].
  cbn in H. injection H as -> -> -> -> -> -> -> -> ->.
  cbn. destruct q'; reflexivity.
Qed.

Lemma hide_processQueue d now s :
  hide (processQueue d now s) = processQueue d now (hide s).
Proof.
  unfold processQueue.
  change (isRunning (hide s)) with (isRunning s).
  change (jobQueue (hide s)) with (jobQueue s).
  change (lastCallTime (hide s)) with (lastCallTime s).
  destruct (isRunning s); [reflexivity|].
  destruct (length (jobQueue s) =? 0)%nat; [reflexivity|].
  destruct (now - lastCallTime s <? d).
  - generalize (d - (now - lastCallTime s)). intros wait.
    pose proof (hide_startCooldown wait s) as H.
    destruct (startCooldown wait s) as [q r l sb ci sl inf iv nt nh sub dis stl].
    destruct s as [q' r' l' sb' ci' sl' inf' iv' nt' nh' sub' dis' stl'].
    cbn in H. injection H as -> -> -> -> -> -> -> -> ->.
    reflexivity.
  - apply hide_processQueue_dispatch.
Qed.

Lemma hide_processQueue_settle d now job o s :
  hide (processQueue_settle d now job o s) = processQueue_settle d now job o (hide s).
Proof.
  unfold processQueue_settle.
  destruct o; cbn -[processQueue Nat.ltb];
    (destruct (0 <? length (jobQueue s))%nat; [|reflexivity]);
    rewrite hide_processQueue; reflexivity.
Qed.

Lemma hide_runAI d now f p s :
  hide (runAI d now f p s) = runAI d now f p (hide s).
Proof. unfold runAI. rewrite hide_processQueue. reflexivity. Qed.

(** A scheduling event does to the hidden state what it does to the full
    one; a display event does nothing to it. *)
Lemma hide_step d t e s :
  option_map hide (step d t e s) =
  if is_display e
  then match step d t e s with Some _ => Some (hide s) | None => None end
  else step d t e (hide s).
Proof.
  destruct e as [text|f p|k|h o|id]; cbn [is_display step option_map].
  - reflexivity.
  - rewrite hide_runAI. reflexivity.
  - change (sleeping (hide s)) with (sleeping s).
    destruct (take_nth k (sleeping s)) as [[due rest]|]; [|reflexivity].
    destruct (t <? due); [reflexivity|]. cbn [option_map].
    rewrite hide_processQueue_dispatch. reflexivity.
  - change (inFlight (hide s)) with (inFlight s).
    destruct (take_job h (inFlight s)) as [[job rest]|]; [|reflexivity].
    cbn [option_map]. rewrite hide_processQueue_settle. reflexivity.
  - destruct (lookup_interval id (intervals s)); [|reflexivity].
    cbn [option_map]. rewrite hide_cooldownTick. reflexivity.
Qed.

Lemma Some_eq {A : Type} (x y : A) : Some x = Some y -> x = y.
Proof. intros H. injection H as H. exact H. Qed.

Lemma without_display_cons t e evs :
  without_display ((t, e) :: evs) =
  if is_display e then without_display evs else (t, e) :: without_display evs.
Proof. unfold without_display. simpl. destruct (is_display e); reflexivity. Qed.

Lemma hide_run d evs :
  forall s s', run d evs s = Some s' ->
               run d (without_display evs) (hide s) = Some (hide s').
Proof.
  induction evs as [|[t e] evs IH]; intros s s' H.
  - simpl in *. congruence.
  - rewrite without_display_cons. simpl run in H.
    pose proof (hide_step d t e s) as Hs.
    destruct (step d t e s) as [s1|] eqn:E; [|discriminate].
    simpl option_map in Hs.
    destruct (is_display e).
    + apply Some_eq in Hs. rewrite <- Hs. apply IH. exact H.
    + simpl run. rewrite <- Hs. apply IH. exact H.
Qed.

(** Conversely: calling [initScheduler] never disables a run. *)
Lemma run_with_initScheduler d evs :
  forall s s' t text,
    run d evs s = Some s' ->
    (forall te, In te evs -> is_display (snd te) = false) ->
    exists s'', run d ((t, InitScheduler text) :: evs) s = Some s''
                /\ hide s'' = hide s'.
Proof.
  intros s s' t text H Hnd. cbn [run step].
  assert (G : forall evs s1 s2 s1',
             (forall te, In te evs -> is_display (snd te) = false) ->
             hide s1 = hide s2 -> run d evs s1 = Some s1' ->
             exists s2', run d evs s2 = Some s2' /\ hide s2' = hide s1').
  { clear. induction evs as [|[t e] evs IH]; intros s1 s2 s1' Hnd Hh Hr.
    - simpl in *. injection Hr as <-. eauto.
    - simpl run in *.
      assert (He : is_display e = false) by (apply (Hnd (t, e)); left; reflexivity).
      pose proof (hide_step d t e s1) as H1.
      pose proof (hide_step d t e s2) as H2.
      rewrite He in H1, H2. rewrite Hh in H1. rewrite <- H2 in H1.
      destruct (step d t e s1) as [a|]; [|discriminate].
      destruct (step d t e s2) as [b|]; [|discriminate].
      simpl option_map in H1. apply Some_eq in H1.
      apply (IH a b); auto.
      intros te Hin. apply Hnd. right. exact Hin. }
  apply (G evs s (initScheduler text s) s'); auto.
Qed.

End DisplayFacts.

(* ================================================================= *)
(** ** The queue order *)

Section SortFacts.
Import AiScheduler.

Lemma filter_none {A : Type} (f : A -> bool) l :
  (forall x, In x l -> f x = false) -> filter f l = [].
Proof.
  induction l as [|y l IH]; intros H; [reflexivity|].
  simpl. rewrite (H y) by (left; reflexivity).
  apply IH. intros x Hx. apply H. right. exact Hx.
Qed.

Lemma insert_perm {A : Type} (cmp : A -> A -> Z) x l :
  Permutation (insert cmp x l) (l ++ [x]).
Proof.
  induction l as [|y l IH]; simpl; [reflexivity|].
  destruct (0 <? cmp y x).
  - change (y :: l ++ [x]) with ((y :: l) ++ [x]).
    apply Permutation_cons_append.
  - constructor. exact IH.
Qed.

Lemma sort_snoc {A : Type} (cmp : A -> A -> Z) l x :
  sort cmp (l ++ [x]) = insert cmp x (sort cmp l).
Proof. unfold sort. rewrite fold_left_app. reflexivity. Qed.

Lemma sort_perm {A : Type} (cmp : A -> A -> Z) l :
  Permutation (sort cmp l) l.
Proof.
  induction l as [|x l IH] using rev_ind; [reflexivity|].
  rewrite sort_snoc, insert_perm. apply Permutation_app_tail. exact IH.
Qed.

Lemma descending_cons_inv j q :
  descending (j :: q) ->
  descending q /\ forall b, In b q -> priority b <= priority j.
Proof.
  intros H. inversion H as [|? ? Hq Hall]; subst. split; [exact Hq|].
  rewrite Forall_forall in Hall. exact Hall.
Qed.

Lemma insert_descending x q :
  descending q -> descending (insert byPriority x q).
Proof.
  induction q as [|y q IH]; intros Hq; simpl.
  - repeat constructor.
  - destruct (descending_cons_inv _ _ Hq) as [Hq' Hle].
    unfold byPriority at 1.
    destruct (Z.ltb_spec 0 (priority x - priority y)).
    + constructor; [exact Hq|].
      constructor; [lia|].
      rewrite Forall_forall. intros b Hb. specialize (Hle b Hb). lia.
    + constructor; [apply IH; exact Hq'|].
      rewrite Forall_forall. intros b Hb.
      apply (Permutation_in _ (insert_perm byPriority x q)) in Hb.
      apply in_app_or in Hb. destruct Hb as [Hb|[<-|[]]]; [auto|lia].
Qed.

Lemma sort_descending l : descending (sort byPriority l).
Proof.
  induction l as [|x l IH] using rev_ind; [constructor|].
  rewrite sort_snoc. apply insert_descending. exact IH.
Qed.

(** Stability: within a priority class the new entry goes last. *)
Lemma insert_class p x q :
  descending q ->
  filter (ofPriority p) (insert byPriority x q)
  = filter (ofPriority p) q ++ filter (ofPriority p) [x].
Proof.
  induction q as [|y q IH]; intros Hq; [reflexivity|].
  destruct (descending_cons_inv _ _ Hq) as [Hq' Hle].
  cbn [insert]. unfold byPriority at 1.
  destruct (Z.ltb_spec 0 (priority x - priority y)).
  - cbn [filter app].
    destruct (ofPriority p x) eqn:Ex; [|rewrite app_nil_r; reflexivity].
    destruct (ofPriority p y) eqn:Ey.
    + unfold ofPriority in Ex, Ey. apply Z.eqb_eq in Ex, Ey. lia.
    + rewrite filter_none; [reflexivity|].
      intros b Hb. specialize (Hle b Hb).
      unfold ofPriority in *. apply Z.eqb_eq in Ex. apply Z.eqb_neq. lia.
  - cbn [filter]. rewrite (IH Hq').
    destruct (ofPriority p y); reflexivity.
Qed.

Lemma sort_stable p l :
  filter (ofPriority p) (sort byPriority l) = filter (ofPriority p) l.
Proof.
  induction l as [|x l IH] using rev_ind; [reflexivity|].
  rewrite sort_snoc, insert_class by apply sort_descending.
  rewrite IH, filter_app. reflexivity.
Qed.

Lemma insert_last x q :
  descending (q ++ [x]) -> insert byPriority x q = q ++ [x].
Proof.
  induction q as [|y q IH]; intros H; [reflexivity|].
  simpl in H. destruct (descending_cons_inv _ _ H) as [Hq Hle].
  cbn [insert]. unfold byPriority at 1.
  assert (priority x <= priority y) by (apply Hle, in_or_app; right; left; reflexivity).
  destruct (Z.ltb_spec 0 (priority x - priority y)); [lia|].
  rewrite (IH Hq). reflexivity.
Qed.

Lemma descending_app_l q1 q2 : descending (q1 ++ q2) -> descending q1.
Proof.
  induction q1 as [|y q1 IH]; intros H; [constructor|].
  simpl in H. destruct (descending_cons_inv _ _ H) as [Hq Hle].
  constructor; [apply IH; exact Hq|].
  rewrite Forall_forall. intros b Hb. apply Hle, in_or_app. left. exact Hb.
Qed.

(** Sorting a queue that is in order already changes nothing. *)
Lemma sort_descending_id q : descending q -> sort byPriority q = q.
Proof.
  induction q as [|x q IH] using rev_ind; intros H; [reflexivity|].
  rewrite sort_snoc, IH by (eapply descending_app_l; exact H).
  apply insert_last. exact H.
Qed.

End SortFacts.

(* ================================================================= *)
(** ** Invariants of the scheduler *)

Section InvariantFacts.
Import AiScheduler.

Ltac fields :=
  unfold dispatchOrder, settledJobs in *;
  cbn [jobQueue isRunning lastCallTime statusBarItem cooldownInterval sleeping
       inFlight intervals nextTimerId nextHandle submitted dispatched settled
       set_jobQueue set_isRunning set_lastCallTime set_statusBarItem
       set_cooldownInterval set_sleeping set_inFlight set_intervals
       log_submitted log_dispatched log_settled hide] in *.

Lemma Hist_hide s : Hist (hide s) <-> Hist s.
Proof. split; intros [H1 H2 H3 H4 H5 H6]; constructor; assumption. Qed.

Lemma Live_hide s : Live (hide s) <-> Live s.
Proof. split; intros [H1 H2]; constructor; assumption. Qed.

Lemma Inv_init : Inv init.
Proof.
  split; constructor; cbn; try reflexivity; try constructor;
    try discriminate; try congruence.
Qed.

Lemma lastSuccess_snoc log j t o :
  lastSuccess (log ++ [(j, t, o)]) =
  match o with Fulfilled _ => t | Thrown _ => lastSuccess log end.
Proof. unfold lastSuccess. rewrite fold_left_app. reflexivity. Qed.

Lemma Hist_dispatch_hidden now s :
  statusBarItem s = None -> Hist s -> Hist (processQueue_dispatch now s).
Proof.
  intros Hn [H1 H2 H3 H4 H5 H6].
  unfold processQueue_dispatch, stopCooldown. rewrite Hn.
  destruct (jobQueue s) as [|job rest] eqn:Eq;
    [constructor; try rewrite Eq; assumption|].
  constructor; fields.
  - exact H1.
  - rewrite map_app, <- app_assoc. exact H2.
  - rewrite map_app, app_assoc. apply Permutation_app_tail. exact H3.
  - apply (descending_cons_inv _ _ H4).
  - intros p. rewrite map_app, filter_app, <- app_assoc, (H5 p). cbn.
    destruct (ofPriority p job); reflexivity.
  - exact H6.
Qed.

Lemma Hist_dispatch now s : Hist s -> Hist (processQueue_dispatch now s).
Proof.
  intros H. apply Hist_hide. rewrite hide_processQueue_dispatch.
  apply Hist_dispatch_hidden; [reflexivity|]. apply Hist_hide. exact H.
Qed.

Lemma Hist_set_sleeping l s : Hist s -> Hist (set_sleeping l s).
Proof. intros [H1 H2 H3 H4 H5 H6]. constructor; assumption. Qed.

Lemma Hist_processQueue d now s : Hist s -> Hist (processQueue d now s).
Proof.
  intros H. apply Hist_hide. rewrite hide_processQueue. apply Hist_hide in H.
  unfold processQueue.
  destruct (isRunning (hide s)); [exact H|].
  destruct (length (jobQueue (hide s)) =? 0)%nat; [exact H|].
  destruct (now - lastCallTime (hide s) <? d).
  - apply Hist_set_sleeping. exact H.
  - apply Hist_dispatch. exact H.
Qed.

Lemma take_job_perm h l j rest :
  take_job h l = Some (j, rest) -> Permutation l (j :: rest) /\ handle j = h.
Proof.
  revert j rest. induction l as [|x l IH]; intros j rest H; cbn [take_job] in H;
    [discriminate|].
  destruct (Nat.eqb_spec (handle x) h).
  - injection H as <- <-. split; [reflexivity|assumption].
  - destruct (take_job h l) as [[j' r]|]; [|discriminate].
    injection H as <- <-. destruct (IH j' r eq_refl) as [Hp Hh].
    split; [|exact Hh]. rewrite Hp. apply perm_swap.
Qed.

Lemma take_nth_length {A : Type} k (l : list A) x rest :
  take_nth k l = Some (x, rest) -> length l = S (length rest) /\ In x l.
Proof.
  revert k x rest. induction l as [|y l IH]; intros k x rest H;
    [destruct k; discriminate|].
  destruct k; simpl in H.
  - injection H as <- <-. split; [reflexivity|left; reflexivity].
  - destruct (take_nth k l) as [[z r]|] eqn:E; [|discriminate].
    injection H as <- <-. destruct (IH _ _ _ E) as [Hl Hi].
    simpl. split; [congruence|right; exact Hi].
Qed.

Lemma Hist_settle d now h job rest o s :
  Hist s -> take_job h (inFlight s) = Some (job, rest) ->
  Hist (processQueue_settle d now job o (set_inFlight rest s)).
Proof.
  intros [H1 H2 H3 H4 H5 H6] Ht.
  destruct (take_job_perm _ _ _ _ Ht) as [Hp _].
  unfold processQueue_settle.
  match goal with |- Hist (if _ then processQueue _ _ ?x else _) =>
    assert (Hx : Hist x) end.
  { destruct o; constructor; fields; try assumption.
    - rewrite map_app, <- app_assoc. cbn. rewrite H3, Hp. reflexivity.
    - rewrite lastSuccess_snoc. reflexivity.
    - rewrite map_app, <- app_assoc. cbn. rewrite H3, Hp. reflexivity.
    - rewrite lastSuccess_snoc. exact H6. }
  match goal with |- Hist (if ?c then _ else _) => destruct c end;
    [apply Hist_processQueue|]; exact Hx.
Qed.

Lemma Hist_runAI d now f p s : Hist s -> Hist (runAI d now f p s).
Proof.
  intros [H1 H2 H3 H4 H5 H6]. unfold runAI. apply Hist_processQueue.
  constructor; fields.
  - rewrite map_app, H1, seq_S. reflexivity.
  - rewrite sort_perm, app_assoc. apply Permutation_app_tail. exact H2.
  - exact H3.
  - apply sort_descending.
  - intros q. rewrite sort_stable, !filter_app, H5, app_assoc. reflexivity.
  - exact H6.
Qed.

Lemma Hist_step d t e s s' : Hist s -> step d t e s = Some s' -> Hist s'.
Proof.
  intros H Hs. destruct e as [text|f p|k|h o|id]; cbn [step] in Hs.
  - apply Some_eq in Hs. subst s'. apply Hist_hide. rewrite hide_initScheduler.
    apply Hist_hide. exact H.
  - apply Some_eq in Hs. subst s'. apply Hist_runAI. exact H.
  - destruct (take_nth k (sleeping s)) as [[due rest]|]; [|discriminate].
    destruct (t <? due); [discriminate|]. apply Some_eq in Hs. subst s'.
    apply Hist_dispatch, Hist_set_sleeping. exact H.
  - destruct (take_job h (inFlight s)) as [[job rest]|] eqn:E; [|discriminate].
    apply Some_eq in Hs. subst s'. eapply Hist_settle; eauto.
  - destruct (lookup_interval id (intervals s)); [|discriminate].
    apply Some_eq in Hs. subst s'. apply Hist_hide. rewrite hide_cooldownTick.
    apply Hist_hide. exact H.
Qed.

(** *** The loop always has a continuation *)

Lemma dispatch_hidden now s :
  processQueue_dispatch now (hide s) =
  match jobQueue s with
  | [] => hide s
  | job :: rest =>
      hide (log_dispatched job now
              (set_inFlight (inFlight s ++ [job])
                 (set_isRunning true (set_jobQueue rest s))))
  end.
Proof.
  unfold processQueue_dispatch. cbn. destruct (jobQueue s); reflexivity.
Qed.

Lemma processQueue_hidden d now s :
  processQueue d now (hide s) =
  if isRunning s then hide s
  else if (length (jobQueue s) =? 0)%nat then hide s
  else if now - lastCallTime s <? d
       then hide (set_sleeping (sleeping s ++ [now + (d - (now - lastCallTime s))]) s)
       else processQueue_dispatch now (hide s).
Proof. reflexivity. Qed.

Lemma snoc_not_nil {A : Type} (l : list A) x : l ++ [x] <> [].
Proof. destruct l; discriminate. Qed.

Lemma Live_dispatch now s :
  (isRunning s = true -> inFlight s <> []) ->
  Live (processQueue_dispatch now s).
Proof.
  intros Hr. apply Live_hide.
  rewrite hide_processQueue_dispatch, dispatch_hidden.
  destruct (jobQueue s) as [|job rest] eqn:E; constructor; fields.
  - exact Hr.
  - rewrite E. congruence.
  - intros _. apply snoc_not_nil.
  - intros _. left. apply snoc_not_nil.
Qed.

Lemma Live_processQueue d now s :
  (isRunning s = true -> inFlight s <> []) ->
  Live (processQueue d now s).
Proof.
  intros Hr. apply Live_hide. rewrite hide_processQueue, processQueue_hidden.
  destruct (isRunning s) eqn:Er.
  - constructor; fields; auto.
  - destruct (jobQueue s) as [|job rest] eqn:E; cbn [length Nat.eqb].
    + constructor; fields; [congruence|rewrite E; congruence].
    + destruct (now - lastCallTime s <? d).
      * constructor; fields; [congruence|].
        intros _. right. apply snoc_not_nil.
      * rewrite <- hide_processQueue_dispatch. apply Live_hide, Live_dispatch.
        congruence.
Qed.

Lemma Live_settle d now job o s :
  Live (processQueue_settle d now job o s).
Proof.
  unfold processQueue_settle.
  match goal with |- Live (if ?c then _ else _) => destruct c eqn:E end.
  - apply Live_processQueue. destruct o; fields; discriminate.
  - constructor; destruct o; fields; try discriminate;
      destruct (jobQueue s); try discriminate; congruence.
Qed.

Lemma Live_runAI d now f p s : Live s -> Live (runAI d now f p s).
Proof. intros [Hr _]. unfold runAI. apply Live_processQueue. exact Hr. Qed.

Lemma Live_step d t e s s' : Live s -> step d t e s = Some s' -> Live s'.
Proof.
  intros H Hs. destruct e as [text|f p|k|h o|id]; cbn [step] in Hs.
  - apply Some_eq in Hs. subst s'. apply Live_hide. rewrite hide_initScheduler.
    apply Live_hide. exact H.
  - apply Some_eq in Hs. subst s'. apply Live_runAI. exact H.
  - destruct (take_nth k (sleeping s)) as [[due rest]|]; [|discriminate].
    destruct (t <? due); [discriminate|]. apply Some_eq in Hs. subst s'.
    apply Live_dispatch. destruct H as [Hr _]. exact Hr.
  - destruct (take_job h (inFlight s)) as [[job rest]|] eqn:E; [|discriminate].
    apply Some_eq in Hs. subst s'. apply Live_settle.
  - destruct (lookup_interval id (intervals s)); [|discriminate].
    apply Some_eq in Hs. subst s'. apply Live_hide. rewrite hide_cooldownTick.
    apply Live_hide. exact H.
Qed.

Lemma Inv_step d t e s s' : Inv s -> step d t e s = Some s' -> Inv s'.
Proof.
  intros [Hh Hl] Hs. split; [eapply Hist_step|eapply Live_step]; eauto.
Qed.

Lemma Inv_run d evs : forall s s', Inv s -> run d evs s = Some s' -> Inv s'.
Proof.
  induction evs as [|[t e] evs IH]; intros s s' Hi Hr; simpl in Hr.
  - apply Some_eq in Hr. subst. exact Hi.
  - destruct (step d t e s) as [s1|] eqn:E; [|discriminate].
    apply (IH s1); [eapply Inv_step; eauto|exact Hr].
Qed.

(** *** What one turn of the loop does to the queue and the logs *)

Lemma hide_eq_fields s s' :
  hide s' = hide s ->
  jobQueue s' = jobQueue s /\ isRunning s' = isRunning s
  /\ lastCallTime s' = lastCallTime s /\ sleeping s' = sleeping s
  /\ inFlight s' = inFlight s /\ nextHandle s' = nextHandle s
  /\ submitted s' = submitted s /\ dispatched s' = dispatched s
  /\ settled s' = settled s.
Proof.
  intros H.
  change (jobQueue (hide s') = jobQueue (hide s)
          /\ isRunning (hide s') = isRunning (hide s)
          /\ lastCallTime (hide s') = lastCallTime (hide s)
          /\ sleeping (hide s') = sleeping (hide s)
          /\ inFlight (hide s') = inFlight (hide s)
          /\ nextHandle (hide s') = nextHandle (hide s)
          /\ submitted (hide s') = submitted (hide s)
          /\ dispatched (hide s') = dispatched (hide s)
          /\ settled (hide s') = settled (hide s)).
  rewrite H. repeat split.
Qed.

Lemma dispatch_effect now s :
  let s' := processQueue_dispatch now s in
  settled s' = settled s /\ submitted s' = submitted s
  /\ lastCallTime s' = lastCallTime s /\ sleeping s' = sleeping s
  /\ takes_head now s s'
  /\ (jobQueue s <> [] -> jobQueue s' <> jobQueue s).
Proof.
  intros s'.
  assert (E : hide s' = match jobQueue s with
                        | [] => hide s
                        | job :: rest =>
                            hide (log_dispatched job now
                                    (set_inFlight (inFlight s ++ [job])
                                       (set_isRunning true (set_jobQueue rest s))))
                        end).
  { subst s'. rewrite hide_processQueue_dispatch. apply dispatch_hidden. }
  destruct (jobQueue s) as [|job rest] eqn:Eq;
    apply hide_eq_fields in E; fields;
    destruct E as (E1 & E2 & E3 & E4 & E5 & E6 & E7 & E8 & E9).
  - split; [assumption|]. split; [assumption|]. split; [assumption|].
    split; [assumption|]. split; [|congruence].
    left. auto.
  - split; [assumption|]. split; [assumption|]. split; [assumption|].
    split; [assumption|]. split.
    + right. exists job. rewrite Eq, E1. auto.
    + intros _. rewrite E1. intros H.
      apply (f_equal (@length Job)) in H. simpl in H. lia.
Qed.

Lemma processQueue_effect d now s :
  let s' := processQueue d now s in
  settled s' = settled s /\ submitted s' = submitted s
  /\ lastCallTime s' = lastCallTime s
  /\ takes_head now s s'
  /\ ((sleeping s' = sleeping s /\ (jobQueue s' = jobQueue s -> isRunning s = true \/ jobQueue s = []))
      \/ (sleeping s' = sleeping s ++ [lastCallTime s + d]
          /\ jobQueue s' = jobQueue s /\ isRunning s = false
          /\ now - lastCallTime s < d)).
Proof.
  intros s'. subst s'. unfold processQueue.
  destruct (isRunning s) eqn:Er.
  { repeat split; try reflexivity; [left; auto|left; auto]. }
  destruct (jobQueue s) as [|job rest] eqn:Eq; cbn [length Nat.eqb].
  { rewrite Eq. repeat split; try reflexivity; [left; auto|left; auto]. }
  destruct (Z.ltb_spec (now - lastCallTime s) d) as [Hlt|Hge].
  - pose proof (hide_startCooldown (d - (now - lastCallTime s)) s) as E.
    apply hide_eq_fields in E.
    destruct E as (E1 & E2 & E3 & E4 & E5 & E6 & E7 & E8 & E9).
    fields.
    split; [assumption|]. split; [assumption|]. split; [assumption|]. split.
    + left. fields. auto.
    + right. rewrite E1, E4. repeat split; [|exact Eq|exact Hlt].
      f_equal. f_equal. lia.
  - destruct (dispatch_effect now s) as (D1 & D2 & D3 & D4 & D5 & D6).
    repeat split; try assumption.
    left. split; [assumption|]. intros H. exfalso. apply D6; [|congruence].
    rewrite Eq. discriminate.
Qed.

Lemma takes_head_pending now s s' :
  takes_head now s s' ->
  (3 * length (jobQueue s') + 2 * length (inFlight s')
   <= 3 * length (jobQueue s) + 2 * length (inFlight s))%nat.
Proof.
  intros [(E1 & E2 & _)|(job & E1 & E2 & _)].
  - rewrite E1, E2. lia.
  - rewrite E1, E2, length_app. simpl. lia.
Qed.

Lemma settle_effect d now job o s :
  let s' := processQueue_settle d now job o s in
  settled s' = settled s ++ [(job, now, o)]
  /\ submitted s' = submitted s
  /\ lastCallTime s' = match o with
                       | Fulfilled _ => now
                       | Thrown _ => lastCallTime s
                       end
  /\ takes_head now s s'
  /\ (sleeping s' = sleeping s \/ sleeping s' = sleeping s ++ [lastCallTime s' + d]).
Proof.
  intros s'. subst s'. unfold processQueue_settle.
  match goal with |- context [processQueue d now ?x] => set (X := x) end.
  assert (HX : settled X = settled s ++ [(job, now, o)]
               /\ submitted X = submitted s
               /\ lastCallTime X = match o with
                                   | Fulfilled _ => now
                                   | Thrown _ => lastCallTime s
                                   end
               /\ jobQueue X = jobQueue s /\ inFlight X = inFlight s
               /\ dispatched X = dispatched s /\ sleeping X = sleeping s).
  { subst X. destruct o; fields; repeat split. }
  destruct HX as (X1 & X2 & X3 & X4 & X5 & X6 & X7).
  destruct (0 <? length (jobQueue X))%nat.
  - destruct (processQueue_effect d now X) as (P1 & P2 & P3 & P4 & P5).
    rewrite P1, P2, P3, X1, X2, X3.
    split; [reflexivity|]. split; [reflexivity|]. split; [reflexivity|]. split.
    + unfold takes_head in *. rewrite X4, X5, X6 in P4. exact P4.
    + rewrite <- X3, <- X7. destruct P5 as [[P5 _]|[P5 _]]; auto.
  - rewrite X1, X2, X3.
    split; [reflexivity|]. split; [reflexivity|]. split; [reflexivity|]. split.
    + left. auto.
    + left. exact X7.
Qed.

Lemma pending_settle d now job o s :
  (pending (processQueue_settle d now job o s) <= pending s + 1)%nat.
Proof.
  destruct (settle_effect d now job o s) as (_ & _ & _ & Ht & Hs).
  apply takes_head_pending in Ht. unfold pending.
  destruct Hs as [Hs|Hs]; rewrite Hs; [|rewrite length_app; simpl]; lia.
Qed.

Lemma pending_dispatch now s :
  (pending (processQueue_dispatch now s) <= pending s)%nat.
Proof.
  destruct (dispatch_effect now s) as (_ & _ & _ & Hs & Ht & _).
  apply takes_head_pending in Ht. unfold pending. rewrite Hs. lia.
Qed.

(** Each sleep that ends and each call that settles uses up some of what
    is pending. *)
Lemma pending_step d t e s s' :
  is_progress e = true -> step d t e s = Some s' ->
  (pending s' < pending s)%nat.
Proof.
  intros He Hs. destruct e as [text|f p|k|h o|id]; try discriminate;
    cbn [step] in Hs.
  - destruct (take_nth k (sleeping s)) as [[due rest]|] eqn:E; [|discriminate].
    destruct (t <? due); [discriminate|]. apply Some_eq in Hs. subst s'.
    apply take_nth_length in E. destruct E as [E _].
    pose proof (pending_dispatch t (set_sleeping rest s)) as H.
    unfold pending in *. fields. lia.
  - destruct (take_job h (inFlight s)) as [[job rest]|] eqn:E; [|discriminate].
    apply Some_eq in Hs. subst s'.
    apply take_job_perm in E. destruct E as [E _].
    apply Permutation_length in E. simpl in E.
    pose proof (pending_settle d t job o (set_inFlight rest s)) as H.
    unfold pending in *. fields. lia.
Qed.

Lemma pending_run d evs :
  forall s s', run d evs s = Some s' ->
               (forall te, In te evs -> is_progress (snd te) = true) ->
               (length evs + pending s' <= pending s)%nat.
Proof.
  induction evs as [|[t e] evs IH]; intros s s' Hr Hp; simpl in Hr.
  - apply Some_eq in Hr. subst. simpl. lia.
  - destruct (step d t e s) as [s1|] eqn:E; [|discriminate].
    apply pending_step in E; [|apply (Hp (t, e)); left; reflexivity].
    specialize (IH s1 s' Hr). simpl.
    assert (length evs + pending s' <= pending s1)%nat.
    { apply IH. intros te Hin. apply Hp. right. exact Hin. }
    lia.
Qed.

(** The settlement log grows by exactly what the calls delivered. *)
Lemma settled_step d t e s s' :
  step d t e s = Some s' ->
  map settlementOf (settled s') = map settlementOf (settled s) ++ settlements [(t, e)].
Proof.
  intros Hs. destruct e as [text|f p|k|h o|id]; cbn [step] in Hs;
    cbn [settlements flat_map snd fst app]; rewrite ?app_nil_r.
  - apply Some_eq in Hs. subst s'. reflexivity.
  - apply Some_eq in Hs. subst s'. unfold runAI.
    match goal with |- context [processQueue d t ?x] =>
      destruct (processQueue_effect d t x) as (P1 & _) end.
    rewrite P1. reflexivity.
  - destruct (take_nth k (sleeping s)) as [[due rest]|] eqn:E; [|discriminate].
    destruct (t <? due); [discriminate|]. apply Some_eq in Hs. subst s'.
    destruct (dispatch_effect t (set_sleeping rest s)) as (P1 & _).
    rewrite P1. reflexivity.
  - destruct (take_job h (inFlight s)) as [[job rest]|] eqn:E; [|discriminate].
    apply Some_eq in Hs. subst s'.
    destruct (settle_effect d t job o (set_inFlight rest s)) as (P1 & _).
    rewrite P1. fields. rewrite map_app. cbn [map].
    apply take_job_perm in E. destruct E as [_ <-]. reflexivity.
  - destruct (lookup_interval id (intervals s)); [|discriminate].
    apply Some_eq in Hs. subst s'.
    destruct (hide_eq_fields _ _ (hide_cooldownTick id z s))
      as (_ & _ & _ & _ & _ & _ & _ & _ & E9).
    rewrite E9. reflexivity.
Qed.

Lemma settled_run d evs :
  forall s s', run d evs s = Some s' ->
    map settlementOf (settled s') = map settlementOf (settled s) ++ settlements evs.
Proof.
  induction evs as [|[t e] evs IH]; intros s s' Hr; simpl in Hr.
  - apply Some_eq in Hr. subst. cbn. rewrite app_nil_r. reflexivity.
  - destruct (step d t e s) as [s1|] eqn:E; [|discriminate].
    rewrite (IH s1 s' Hr), (settled_step _ _ _ _ _ E), <- app_assoc.
    change ((t, e) :: evs) with ([(t, e)] ++ evs).
    unfold settlements. rewrite flat_map_app. reflexivity.
Qed.

End InvariantFacts.

(* ================================================================= *)
(** ** Claims about single calls of the scheduler *)

Section CallFacts.
Import AiScheduler.

(** C9: a call of [runAI] without the priority argument enqueues the job
    with priority exactly 1: it leaves the scheduler in the very state
    that the same call with priority 1 leaves it in, so every later run
    goes the same way, and the entry it pushed has priority 1. *)
Theorem runAI_default_priority (d now : Z) (f : string) (s : State) :
  runAI d now f None s = runAI d now f (Some 1) s
  /\ (exists job, submitted (runAI d now f None s) = submitted s ++ [job]
                  /\ fn job = f /\ priority job = 1
                  /\ (In job (jobQueue (runAI d now f None s))
                      \/ In (job, now) (dispatched (runAI d now f None s))))
  /\ (forall evs, run d ((now, RunAI f None) :: evs) s
                  = run d ((now, RunAI f (Some 1)) :: evs) s).
Proof.
  split; [reflexivity|]. split; [|reflexivity].
  exists (mkJob f (nextHandle s) 1). unfold runAI.
  match goal with |- context [processQueue d now ?x] =>
    destruct (processQueue_effect d now x) as (_ & P2 & _ & P4 & _);
    assert (Hin : In (mkJob f (nextHandle s) 1) (jobQueue x)) end.
  { cbn [jobQueue set_jobQueue log_submitted].
    apply (Permutation_in _ (Permutation_sym (sort_perm byPriority _))).
    apply in_or_app. right. left. reflexivity. }
  rewrite P2. split; [reflexivity|]. split; [reflexivity|]. split; [reflexivity|].
  destruct P4 as [(Q1 & _)|(next & Q1 & _ & Q3)].
  - left. rewrite Q1. exact Hin.
  - rewrite Q1 in Hin. destruct Hin as [E|Hin]; [right|left; exact Hin].
    rewrite Q3, E. apply in_or_app. right. left. reflexivity.
Qed.

(** C8: when the call of a dispatched job fails, [lastCallTime] stays as
    it was; the activation that the failure starts waits, if at all,
    until [lastCallTime + minDelay], counted from the previous success;
    and [lastCallTime] remains the time of the latest success in the
    settlement log. *)
Theorem failure_keeps_lastCallTime
    (d t : Z) (h : nat) (err : JsValue) (s s' : State) :
  step d t (FnSettled h (Thrown err)) s = Some s' ->
  lastCallTime s' = lastCallTime s
  /\ (sleeping s' = sleeping s \/ sleeping s' = sleeping s ++ [lastCallTime s + d])
  /\ (lastCallTime s = lastSuccess (settled s) ->
      lastCallTime s' = lastSuccess (settled s')).
Proof.
  intros Hs. cbn [step] in Hs.
  destruct (take_job h (inFlight s)) as [[job rest]|] eqn:E; [|discriminate].
  apply Some_eq in Hs. subst s'.
  destruct (settle_effect d t job (Thrown err) (set_inFlight rest s))
    as (P1 & _ & P3 & _ & P5).
  split; [exact P3|]. split.
  - rewrite P3 in P5. exact P5.
  - intros Hl. rewrite P3, P1. cbn [settled set_inFlight lastCallTime].
    rewrite lastSuccess_snoc. exact Hl.
Qed.

(** A job is in flight and its call fails with a time-out: the timestamp
    of the earlier success stays. *)
Lemma failure_keeps_lastCallTime_witness :
  step MIN_DELAY 121800 (FnSettled 1 (Thrown "Timeout")) Examples.b_in_flight
  = Some Examples.b_failed
  /\ lastCallTime Examples.b_failed = 100500.
Proof.
  assert (H : step MIN_DELAY 121800 (FnSettled 1 (Thrown "Timeout")) Examples.b_in_flight
              = Some Examples.b_failed) by (vm_compute; reflexivity).
  split; [exact H|].
  exact (proj1 (failure_keeps_lastCallTime _ _ _ _ _ _ H)).
Defined.

(** At every state that the scheduler reaches, [lastCallTime] is the time
    of the latest success. *)
Lemma lastCallTime_is_last_success d evs s :
  run d evs init = Some s -> lastCallTime s = lastSuccess (settled s).
Proof.
  intros H. destruct (Inv_run d evs init s Inv_init H) as [[_ _ _ _ _ H6] _].
  exact H6.
Qed.

(** C10: the status bar does not interfere.  Take any run; drop the
    calls of [initScheduler] and the ticks of the countdown and start
    with [statusBarItem = null]: the run still goes through and ends in
    the same state but for the display variables, so queue, flag,
    timestamp, dispatch log (order and times) and settlement log
    (results) agree.  A call of [initScheduler] put in front of a run
    does not change them either, and [startCooldown], [stopCooldown] and
    the countdown callback leave [jobQueue], [isRunning] and
    [lastCallTime] as they are. *)
Theorem display_noninterference (d : Z) (evs : list (Z * Event)) (s s' : State) :
  run d evs s = Some s' ->
  (exists s'', run d (without_display evs) (hide s) = Some s''
               /\ jobQueue s'' = jobQueue s' /\ isRunning s'' = isRunning s'
               /\ lastCallTime s'' = lastCallTime s'
               /\ sleeping s'' = sleeping s' /\ inFlight s'' = inFlight s'
               /\ dispatched s'' = dispatched s' /\ settled s'' = settled s')
  /\ (forall t text,
         (forall te, In te evs -> is_display (snd te) = false) ->
         exists s'', run d ((t, InitScheduler text) :: evs) s = Some s''
                     /\ hide s'' = hide s')
  /\ (forall ms x, hide (startCooldown ms x) = hide x
                   /\ jobQueue (startCooldown ms x) = jobQueue x
                   /\ isRunning (startCooldown ms x) = isRunning x
                   /\ lastCallTime (startCooldown ms x) = lastCallTime x)
  /\ (forall x, hide (stopCooldown x) = hide x
                /\ jobQueue (stopCooldown x) = jobQueue x
                /\ isRunning (stopCooldown x) = isRunning x
                /\ lastCallTime (stopCooldown x) = lastCallTime x)
  /\ (forall id remaining x,
         hide (cooldownTick id remaining x) = hide x
         /\ jobQueue (cooldownTick id remaining x) = jobQueue x
         /\ isRunning (cooldownTick id remaining x) = isRunning x
         /\ lastCallTime (cooldownTick id remaining x) = lastCallTime x).
Proof.
  intros H. split; [|split; [|split; [|split]]].
  - exists (hide s'). split; [apply hide_run; exact H|]. repeat split.
  - intros t text Hnd. apply run_with_initScheduler; assumption.
  - intros ms x. split; [apply hide_startCooldown|].
    apply (display_frame (startCooldown ms)), hide_startCooldown.
  - intros x. split; [apply hide_stopCooldown|].
    apply (display_frame stopCooldown), hide_stopCooldown.
  - intros id remaining x. split; [apply hide_cooldownTick|].
    apply (display_frame (cooldownTick id remaining)), hide_cooldownTick.
Qed.

(** A run with the status bar, and the same run without it. *)
Lemma display_noninterference_witness :
  run MIN_DELAY Examples.countdown_trace init = Some Examples.countdown_final
  /\ exists s'',
      run MIN_DELAY (without_display Examples.countdown_trace) (hide init) = Some s''
      /\ dispatched s'' = dispatched Examples.countdown_final
      /\ settled s'' = settled Examples.countdown_final.
Proof.
  assert (H : run MIN_DELAY Examples.countdown_trace init
              = Some Examples.countdown_final) by (vm_compute; reflexivity).
  split; [exact H|].
  destruct (display_noninterference _ _ _ _ H)
    as [(s'' & R & _ & _ & _ & _ & _ & D & S) _].
  exists s''. split; [exact R|]. split; assumption.
Defined.

End CallFacts.

(* ================================================================= *)
(** ** Settlement of the promises *)

Section SettlementFacts.
Import AiScheduler.

Lemma take_job_in j l :
  In j l -> exists j' rest, take_job (handle j) l = Some (j', rest).
Proof.
  induction l as [|x l IH]; intros H; [destruct H|].
  cbn [take_job]. destruct (Nat.eqb_spec (handle x) (handle j)); [eauto|].
  destruct H as [->|H]; [congruence|].
  destruct (IH H) as (j' & rest & ->). eauto.
Qed.

Lemma settled_handles_NoDup s : Hist s -> NoDup (map handle (settledJobs s)).
Proof.
  intros [H1 H2 H3 _ _ _].
  assert (N : NoDup (map handle (submitted s))) by (rewrite H1; apply seq_NoDup).
  apply (Permutation_map handle) in H2, H3. rewrite map_app in H2, H3.
  apply (Permutation_NoDup H2) in N. apply NoDup_app_remove_r in N.
  apply (Permutation_NoDup H3) in N. apply NoDup_app_remove_r in N.
  exact N.
Qed.

Lemma settled_were_dispatched s j :
  Hist s -> In j (settledJobs s) -> In j (dispatchOrder s) /\ In j (submitted s).
Proof.
  intros [_ H2 H3 _ _ _] H.
  assert (D : In j (dispatchOrder s)).
  { apply (Permutation_in _ (Permutation_sym H3)), in_or_app. left. exact H. }
  split; [exact D|].
  apply (Permutation_in _ (Permutation_sym H2)), in_or_app. left. exact D.
Qed.

Lemma quiescent_all_settled s :
  Inv s -> quiescent s -> Permutation (settledJobs s) (submitted s).
Proof.
  intros [[_ H2 H3 _ _ _] [_ L]] [Q1 Q2].
  assert (Q : jobQueue s = []).
  { destruct (jobQueue s) as [|j q]; [reflexivity|].
    destruct L as [L|L]; [discriminate|contradiction|contradiction]. }
  rewrite Q, app_nil_r in H2. rewrite Q2, app_nil_r in H3.
  rewrite H2, H3. reflexivity.
Qed.

(** After a call has settled, whatever its outcome, a waiting job is
    either called at once or a timer is set that will call it. *)
Lemma settle_continues d now job o s :
  jobQueue s <> [] ->
  let s' := processQueue_settle d now job o s in
  (exists next, jobQueue s = next :: jobQueue s'
                /\ dispatched s' = dispatched s ++ [(next, now)])
  \/ (sleeping s' = sleeping s ++ [lastCallTime s' + d] /\ jobQueue s' = jobQueue s).
Proof.
  intros Hq s'. subst s'. unfold processQueue_settle.
  match goal with |- context [processQueue d now ?x] => set (X := x) end.
  assert (HX : jobQueue X = jobQueue s /\ dispatched X = dispatched s
               /\ sleeping X = sleeping s /\ isRunning X = false).
  { subst X. destruct o; repeat split. }
  destruct HX as (X1 & X2 & X3 & X4).
  assert (C : (0 <? length (jobQueue X))%nat = true).
  { rewrite X1. destruct (jobQueue s); [congruence|reflexivity]. }
  rewrite C.
  destruct (processQueue_effect d now X) as (_ & _ & P3 & P4 & P5).
  destruct P5 as [[P5 P6]|(P5 & P6 & _)].
  - left. destruct P4 as [(Q1 & _)|(next & Q1 & _ & Q3)].
    + destruct (P6 Q1) as [K|K]; congruence.
    + exists next. rewrite <- X1, <- X2. auto.
  - right. rewrite P5, P3, P6, X3, X1. auto.
Qed.

(** C5: exactly-once settlement and loop immunity.  In every state [s]
    that the scheduler reaches: no promise was settled twice; the
    settlement log is exactly the list of what the calls of [job.fn()]
    delivered, fulfilled with the result or rejected with the error, and
    holds submitted jobs only; while jobs wait, a continuation of the
    loop is pending; a rejection with jobs waiting makes the loop call
    the next job or set the timer that will; every timer that is due and
    every pending call can go on; without new submissions at most
    [pending s] such events follow; and once nothing is pending, every
    submitted job has been settled. *)
Theorem settled_exactly_once (d : Z) (evs : list (Z * Event)) (s : State) :
  run d evs init = Some s ->
  NoDup (map handle (settledJobs s))
  /\ map settlementOf (settled s) = settlements evs
  /\ (forall j, In j (settledJobs s) -> In j (submitted s))
  /\ (jobQueue s <> [] -> inFlight s <> [] \/ sleeping s <> [])
  /\ (forall t h err s',
         step d t (FnSettled h (Thrown err)) s = Some s' ->
         jobQueue s <> [] ->
         (exists next, jobQueue s = next :: jobQueue s'
                       /\ dispatched s' = dispatched s ++ [(next, t)])
         \/ sleeping s' = sleeping s ++ [lastCallTime s + d])
  /\ (forall due rest t,
         sleeping s = due :: rest -> due <= t ->
         exists s', step d t (SleepDone 0) s = Some s')
  /\ (forall j t o,
         In j (inFlight s) -> exists s', step d t (FnSettled (handle j) o) s = Some s')
  /\ (forall evs' s',
         (forall te, In te evs' -> is_progress (snd te) = true) ->
         run d evs' s = Some s' -> (length evs' <= pending s)%nat)
  /\ (quiescent s -> Permutation (settledJobs s) (submitted s)).
Proof.
  intros H. pose proof (Inv_run d evs init s Inv_init H) as [Hh Hl].
  split; [apply settled_handles_NoDup; exact Hh|].
  split; [exact (settled_run d evs init s H)|].
  split; [intros j Hj; apply (settled_were_dispatched s j Hh Hj)|].
  split; [destruct Hl as [_ L]; exact L|].
  split.
  { intros t h err s' Hs Hq. cbn [step] in Hs.
    destruct (take_job h (inFlight s)) as [[job rest]|]; [|discriminate].
    apply Some_eq in Hs. subst s'.
    destruct (settle_continues d t job (Thrown err) (set_inFlight rest s) Hq)
      as [K|[K _]]; [left; exact K|right].
    destruct (settle_effect d t job (Thrown err) (set_inFlight rest s))
      as (_ & _ & P3 & _).
    rewrite K, P3. reflexivity. }
  split.
  { intros due rest t Hs Ht. cbn [step]. rewrite Hs. cbn [take_nth].
    destruct (Z.ltb_spec t due); [lia|]. eauto. }
  split.
  { intros j t o Hj. cbn [step].
    destruct (take_job_in j (inFlight s) Hj) as (j' & rest & ->). eauto. }
  split.
  { intros evs' s' Hp Hr. pose proof (pending_run d evs' s s' Hr Hp). lia. }
  intros Hq. apply quiescent_all_settled; [split; assumption|exact Hq].
Qed.

(** A rejected job and the one behind it: both are settled, once each. *)
Lemma settled_exactly_once_witness :
  run MIN_DELAY Examples.failing_trace init = Some Examples.failing_final
  /\ NoDup (map handle (settledJobs Examples.failing_final))
  /\ map settlementOf (settled Examples.failing_final)
     = [(100500, 0%nat, Thrown "Network"); (100900, 1%nat, Fulfilled "b")].
Proof.
  assert (H : run MIN_DELAY Examples.failing_trace init = Some Examples.failing_final)
    by (vm_compute; reflexivity).
  split; [exact H|].
  destruct (settled_exactly_once _ _ _ H) as (R1 & R2 & _).
  split; [exact R1|exact R2].
Defined.

End SettlementFacts.

(* ================================================================= *)
(** ** The order of dispatch *)

Section OrderFacts.
Import AiScheduler.

(** What one event does to the queue and to the dispatch log. *)
Lemma step_takes_head d t e s s' :
  step d t e s = Some s' ->
  exists q, (forall f p, e = RunAI f p ->
               q = sort byPriority
                     (jobQueue s ++ [mkJob f (nextHandle s)
                                       (match p with Some x => x | None => 1 end)]))
            /\ (is_progress e = true \/ is_display e = true -> q = jobQueue s)
            /\ ((jobQueue s' = q /\ dispatched s' = dispatched s)
                \/ (exists job, q = job :: jobQueue s'
                                /\ dispatched s' = dispatched s ++ [(job, t)])).
Proof.
  intros Hs. destruct e as [text|f p|k|h o|id]; cbn [step] in Hs.
  - apply Some_eq in Hs. subst s'. exists (jobQueue s).
    split; [discriminate|]. split; [reflexivity|]. left. auto.
  - apply Some_eq in Hs. subst s'. unfold runAI.
    match goal with |- context [processQueue d t ?x] =>
      destruct (processQueue_effect d t x) as (_ & _ & _ & P4 & _);
      exists (jobQueue x) end.
    split; [intros f' p' E; injection E as <- <-; reflexivity|].
    split; [intros [E|E]; discriminate|].
    destruct P4 as [(Q1 & _ & Q3)|(job & Q1 & _ & Q3)].
    + left. auto.
    + right. exists job. auto.
  - destruct (take_nth k (sleeping s)) as [[due rest]|]; [|discriminate].
    destruct (t <? due); [discriminate|]. apply Some_eq in Hs. subst s'.
    destruct (dispatch_effect t (set_sleeping rest s)) as (_ & _ & _ & _ & P4 & _).
    exists (jobQueue s). split; [discriminate|]. split; [reflexivity|].
    destruct P4 as [(Q1 & _ & Q3)|(job & Q1 & _ & Q3)].
    + left. auto.
    + right. exists job. auto.
  - destruct (take_job h (inFlight s)) as [[job rest]|]; [|discriminate].
    apply Some_eq in Hs. subst s'.
    destruct (settle_effect d t job o (set_inFlight rest s)) as (_ & _ & _ & P4 & _).
    exists (jobQueue s). split; [discriminate|]. split; [reflexivity|].
    destruct P4 as [(Q1 & _ & Q3)|(next & Q1 & _ & Q3)].
    + left. auto.
    + right. exists next. auto.
  - destruct (lookup_interval id (intervals s)); [|discriminate].
    apply Some_eq in Hs. subst s'.
    destruct (hide_eq_fields _ _ (hide_cooldownTick id z s))
      as (E1 & _ & _ & _ & _ & _ & _ & E8 & _).
    exists (jobQueue s). split; [discriminate|]. split; [reflexivity|]. left. auto.
Qed.

(** The dispatch log only grows. *)
Lemma dispatched_grows d evs :
  forall s s', run d evs s = Some s' -> exists l, dispatched s' = dispatched s ++ l.
Proof.
  induction evs as [|[t e] evs IH]; intros s s' Hr; simpl in Hr.
  - apply Some_eq in Hr. subst. exists []. rewrite app_nil_r. reflexivity.
  - destruct (step d t e s) as [s1|] eqn:E; [|discriminate].
    destruct (IH s1 s' Hr) as [l Hl].
    destruct (step_takes_head d t e s s1 E) as (q & _ & _ & [[_ D]|(job & _ & D)]);
      rewrite Hl, D; [eauto|].
    rewrite <- app_assoc. eauto.
Qed.

(** Without new submissions the jobs leave the queue from its head, in
    its order. *)
Lemma progress_takes_prefix d evs :
  forall s s',
    (forall te, In te evs -> is_progress (snd te) = true) ->
    run d evs s = Some s' ->
    exists l, dispatchOrder s' = dispatchOrder s ++ l
              /\ jobQueue s = l ++ jobQueue s'.
Proof.
  induction evs as [|[t e] evs IH]; intros s s' Hp Hr; simpl in Hr.
  - apply Some_eq in Hr. subst. exists []. rewrite app_nil_r. auto.
  - destruct (step d t e s) as [s1|] eqn:E; [|discriminate].
    destruct (IH s1 s') as (l & L1 & L2);
      [intros te Hin; apply Hp; right; exact Hin|exact Hr|].
    destruct (step_takes_head d t e s s1 E) as (q & _ & Hq & Hd).
    rewrite (Hq (or_introl (Hp (t, e) (or_introl eq_refl)))) in Hd.
    unfold dispatchOrder in *.
    destruct Hd as [[Q D]|(job & Q & D)].
    + exists l. rewrite L1, D, <- Q. auto.
    + exists (job :: l). rewrite L1, D, Q, L2, map_app, <- app_assoc. auto.
Qed.

Lemma descending_prefix_strict l r :
  descending (l ++ r) -> NoDup (map priority (l ++ r)) ->
  StronglySorted Z.gt (map priority l).
Proof.
  induction l as [|a l IH]; intros Hd Hn; [constructor|].
  simpl in Hd, Hn. destruct (descending_cons_inv _ _ Hd) as [Hd' Hle].
  inversion Hn as [|? ? Hnotin Hn']; subst.
  simpl. constructor; [apply IH; assumption|].
  rewrite Forall_forall. intros p Hp. apply in_map_iff in Hp.
  destruct Hp as (b & <- & Hb).
  assert (Hb' : In b (l ++ r)) by (apply in_or_app; left; exact Hb).
  specialize (Hle b Hb').
  assert (priority b <> priority a).
  { intros E. apply Hnotin. rewrite <- E. apply in_map. exact Hb'. }
  apply Z.lt_gt. lia.
Qed.

Lemma seq_handles_sorted (l : list Job) a n :
  map handle l = seq a n ->
  StronglySorted (fun x y => (handle x < handle y)%nat) l.
Proof.
  revert a n. induction l as [|x l IH]; intros a n H; [constructor|].
  destruct n as [|n]; [discriminate|]. simpl in H. injection H as Hx Hl.
  constructor; [apply (IH (S a) n Hl)|].
  rewrite Forall_forall. intros y Hy.
  assert (In (handle y) (seq (S a) n)) by (rewrite <- Hl; apply in_map; exact Hy).
  apply in_seq in H. lia.
Qed.

Lemma sorted_filter {A : Type} (R : A -> A -> Prop) (f : A -> bool) l :
  StronglySorted R l -> StronglySorted R (filter f l).
Proof.
  induction 1 as [|x l Hs IH Hall]; simpl; [constructor|].
  destruct (f x); [|exact IH].
  constructor; [exact IH|].
  rewrite Forall_forall in *. intros y Hy. apply filter_In in Hy. apply Hall, Hy.
Qed.

Lemma sorted_app_later {A : Type} (R : A -> A -> Prop) l1 b l2 a :
  StronglySorted R (l1 ++ b :: l2) -> In a l2 -> R b a.
Proof.
  induction l1 as [|x l1 IH]; simpl; intros H Hin.
  - inversion H as [|? ? _ Hall]; subst. rewrite Forall_forall in Hall. auto.
  - inversion H; subst. auto.
Qed.

(** When a job is called, the jobs of its priority that were submitted
    before it have been called already. *)
Lemma fifo_pairwise s' older b :
  Hist s' -> dispatchOrder s' = older ++ [b] ->
  forall a, In a (submitted s') -> priority a = priority b ->
            (handle a < handle b)%nat -> In a older.
Proof.
  intros Hh Hd a Ha Hp Hlt.
  pose proof (inv_fifo s' Hh (priority b)) as F.
  rewrite Hd, filter_app in F. cbn [filter] in F.
  unfold ofPriority at 3 in F. rewrite Z.eqb_refl in F.
  rewrite <- app_assoc in F. cbn [app] in F.
  assert (Hin : In a (filter (ofPriority (priority b)) (submitted s'))).
  { apply filter_In. split; [exact Ha|]. apply Z.eqb_eq. exact Hp. }
  pose proof (sorted_filter _ (ofPriority (priority b)) _
                (seq_handles_sorted _ _ _ (inv_handles s' Hh))) as S.
  rewrite F in Hin, S.
  apply in_app_or in Hin. destruct Hin as [Hin|[->|Hin]].
  - apply filter_In in Hin. apply Hin.
  - lia.
  - pose proof (sorted_app_later _ _ _ _ _ S Hin). cbn in *. lia.
Qed.

Lemma step_dispatches_highest d t e s s' :
  Hist s -> step d t e s = Some s' ->
  dispatched s' = dispatched s
  \/ exists job, dispatched s' = dispatched s ++ [(job, t)]
                 /\ forall b, In b (jobQueue s') -> priority b <= priority job.
Proof.
  intros Hh Hs.
  destruct (step_takes_head d t e s s' Hs) as (q & Hrun & Hq & Hd).
  assert (Dq : descending q).
  { destruct e as [text|f p|k|h o|id].
    - rewrite Hq by (right; reflexivity). apply Hh.
    - rewrite (Hrun f p eq_refl). apply sort_descending.
    - rewrite Hq by (left; reflexivity). apply Hh.
    - rewrite Hq by (left; reflexivity). apply Hh.
    - rewrite Hq by (right; reflexivity). apply Hh. }
  destruct Hd as [[_ D]|(job & Q & D)]; [left; exact D|right].
  exists job. split; [exact D|].
  rewrite Q in Dq. apply (descending_cons_inv _ _ Dq).
Qed.

(** A job submitted while no call is in flight, the queue is empty and
    no cooldown is due is called on submission; every job called so far
    was submitted before it, and what is called later comes after it. *)
Lemma runAI_dispatches_on_submission d t f p s :
  Hist s ->
  isRunning s = false -> jobQueue s = [] -> d <= t - lastCallTime s ->
  let job := mkJob f (nextHandle s) (match p with Some x => x | None => 1 end) in
  dispatched (runAI d t f p s) = dispatched s ++ [(job, t)]
  /\ jobQueue (runAI d t f p s) = []
  /\ (forall a, In a (dispatchOrder s) -> (handle a < handle job)%nat)
  /\ (forall evs' s',
         run d evs' (runAI d t f p s) = Some s' ->
         exists l, dispatchOrder s' = dispatchOrder s ++ job :: l).
Proof.
  intros Hh Hr Hq Hd job.
  assert (E : dispatched (runAI d t f p s) = dispatched s ++ [(job, t)]
              /\ jobQueue (runAI d t f p s) = []).
  { unfold runAI, processQueue.
    cbn [isRunning jobQueue lastCallTime set_jobQueue log_submitted].
    rewrite Hr, Hq. cbn [app sort fold_left insert length Nat.eqb].
    destruct (Z.ltb_spec (t - lastCallTime s) d) as [|_]; [lia|].
    match goal with |- context [processQueue_dispatch t ?x] =>
      destruct (dispatch_effect t x) as (_ & _ & _ & _ & T & N) end.
    cbn [jobQueue set_jobQueue dispatched log_submitted] in T, N.
    destruct T as [(Q & _)|(next & Q & _ & D)].
    - exfalso. apply N; [discriminate|exact Q].
    - cbn [jobQueue set_jobQueue inFlight dispatched log_submitted] in Q, D.
      injection Q as <- Q. split; [exact D|symmetry; exact Q]. }
  destruct E as [E1 E2]. split; [exact E1|]. split; [exact E2|]. split.
  - intros a Ha.
    assert (Hs : In a (submitted s)).
    { apply (Permutation_in _ (Permutation_sym (inv_queue s Hh))).
      apply in_or_app. left. exact Ha. }
    apply (in_map handle) in Hs. rewrite (inv_handles s Hh) in Hs.
    apply in_seq in Hs. cbn [handle job]. lia.
  - intros evs' s' Hrun.
    destruct (dispatched_grows d evs' _ _ Hrun) as [l Hl].
    exists (map fst l). unfold dispatchOrder.
    rewrite Hl, E1, !map_app. cbn [map fst]. rewrite <- app_assoc. reflexivity.
Qed.

(** C2, as the code has it: at every state that the scheduler reaches:
    the job that an event dispatches has a priority at least as high as
    every job left in the queue; within each priority class the dispatch
    order is a prefix of the submission order (first in, first out):
    when a job is the last one called, every job of its priority that
    was submitted before it has been called before it; as long as no
    new job is submitted, the jobs waiting in the queue are dispatched in
    the order of the queue, which is by descending priority, strictly so
    when their priorities are pairwise distinct; and a job submitted
    while no call is in flight, the queue is empty and no cooldown is
    due is dispatched on submission, after the jobs submitted before it
    and before every job that is dispatched later, whatever their
    priorities. *)
Theorem dispatch_order_by_priority (d : Z) (evs : list (Z * Event)) (s : State) :
  run d evs init = Some s ->
  (forall t e s',
      step d t e s = Some s' ->
      dispatched s' = dispatched s
      \/ exists job, dispatched s' = dispatched s ++ [(job, t)]
                     /\ forall b, In b (jobQueue s') -> priority b <= priority job)
  /\ (forall p, exists later,
         filter (ofPriority p) (submitted s)
         = filter (ofPriority p) (dispatchOrder s) ++ later)
  /\ (forall older b a,
         dispatchOrder s = older ++ [b] ->
         In a (submitted s) -> priority a = priority b ->
         (handle a < handle b)%nat -> In a older)
  /\ (forall evs' s',
         (forall te, In te evs' -> is_progress (snd te) = true) ->
         run d evs' s = Some s' ->
         exists l, dispatchOrder s' = dispatchOrder s ++ l
                   /\ jobQueue s = l ++ jobQueue s'
                   /\ descending l
                   /\ (NoDup (map priority (jobQueue s)) ->
                       StronglySorted Z.gt (map priority l)))
  /\ (forall t f p,
         isRunning s = false -> jobQueue s = [] -> d <= t - lastCallTime s ->
         let job := mkJob f (nextHandle s)
                      (match p with Some x => x | None => 1 end) in
         dispatched (runAI d t f p s) = dispatched s ++ [(job, t)]
         /\ jobQueue (runAI d t f p s) = []
         /\ (forall a, In a (dispatchOrder s) -> (handle a < handle job)%nat)
         /\ (forall evs' s',
                run d evs' (runAI d t f p s) = Some s' ->
                exists l, dispatchOrder s' = dispatchOrder s ++ job :: l)).
Proof.
  intros H. destruct (Inv_run d evs init s Inv_init H) as [Hh _].
  split; [intros t e s'; apply step_dispatches_highest; exact Hh|].
  split; [intros p; exists (filter (ofPriority p) (jobQueue s)); apply Hh|].
  split; [|split;
           [|intros t f p Hr Hq Hd;
             apply (runAI_dispatches_on_submission d t f p s Hh Hr Hq Hd)]].
  - intros older b a Hd. apply (fifo_pairwise s older b Hh Hd).
  - intros evs' s' Hp Hr.
    destruct (progress_takes_prefix d evs' s s' Hp Hr) as (l & L1 & L2).
    exists l. split; [exact L1|]. split; [exact L2|].
    pose proof (inv_sorted s Hh) as Hd. rewrite L2 in Hd.
    split; [exact (descending_app_l _ _ Hd)|].
    intros Hn. rewrite L2 in Hn. exact (descending_prefix_strict _ _ Hd Hn).
Qed.

(** The queue has to be empty for that: C is submitted while no call is
    in flight and no cooldown is due, but B waits in the queue, and the
    job called on the submission of C is B. *)
Lemma submission_dispatches_the_queue_head :
  run MIN_DELAY Examples.late_sleeper_trace init = Some Examples.late_sleeper_final
  /\ dispatched Examples.late_sleeper_final
     = [(Examples.jobA, 100000); (Examples.jobB, 121600)]
  /\ jobQueue Examples.late_sleeper_final = [Examples.jobC].
Proof.
  split; [vm_compute; reflexivity|]. split; reflexivity.
Qed.

(** With X in flight, A, B and C wait; the calls then go B, A, C. *)
Lemma dispatch_order_by_priority_witness :
  run 0 ((1000, RunAI "X" None) :: Examples.busy_trace) init = Some Examples.busy_final
  /\ exists later,
      filter (ofPriority 1) (submitted Examples.busy_final)
      = filter (ofPriority 1) (dispatchOrder Examples.busy_final) ++ later.
Proof.
  assert (H : run 0 ((1000, RunAI "X" None) :: Examples.busy_trace) init
              = Some Examples.busy_final) by (vm_compute; reflexivity).
  split; [exact H|].
  destruct (dispatch_order_by_priority _ _ _ H) as (_ & F & _). exact (F 1).
Defined.

(** C2 as stated fails: A (priority 1) is submitted to the idle
    scheduler and called at once; B (priority 5), submitted right after,
    is called second.  The priorities are distinct and the dispatch
    order is not descending. *)
Lemma eager_dispatch_not_descending :
  ~ (forall evs s,
        run MIN_DELAY evs init = Some s ->
        NoDup (map priority (submitted s)) ->
        StronglySorted Z.gt (map priority (dispatchOrder s))).
Proof.
  intros C.
  assert (H : run MIN_DELAY Examples.eager_trace init = Some Examples.eager_final)
    by (vm_compute; reflexivity).
  specialize (C _ _ H).
  assert (N : NoDup (map priority (submitted Examples.eager_final))).
  { cbn. constructor; [intros [E|[]]; discriminate|].
    constructor; [intros []|constructor]. }
  specialize (C N). cbn in C.
  inversion C as [|? ? _ F]; subst. inversion F as [|? ? G _]; subst.
  discriminate G.
Qed.

End OrderFacts.

(* ================================================================= *)
(** ** The scenario with three jobs *)

Section ScenarioFacts.
Import AiScheduler.

Lemma run_RunAI d t f p evs s :
  run d ((t, RunAI f p) :: evs) s = run d evs (runAI d t f p s).
Proof. reflexivity. Qed.

Lemma three_submissions_busy d s0 t1 t2 t3 :
  isRunning s0 = true -> jobQueue s0 = [] ->
  let s3 := runAI d t3 "C" (Some 1)
              (runAI d t2 "B" (Some 5) (runAI d t1 "A" (Some 1) s0)) in
  jobQueue s3 = [ mkJob "B" (S (nextHandle s0)) 5;
                  mkJob "A" (nextHandle s0) 1;
                  mkJob "C" (S (S (nextHandle s0))) 1 ]
  /\ dispatched s3 = dispatched s0.
Proof.
  intros Hr Hq.
  destruct s0 as [q r l sb ci sl inf iv nt nh sub dis stl].
  cbn in Hr, Hq. subst q r.
  split; vm_compute; reflexivity.
Qed.

Lemma runAI_idle d now f p :
  d <= now ->
  dispatched (runAI d now f p init)
  = [(mkJob f 0 (match p with Some x => x | None => 1 end), now)].
Proof.
  intros H. unfold runAI, processQueue. cbn.
  destruct (Z.ltb_spec (now - 0) d); [lia|]. reflexivity.
Qed.

(** C7, as the code has it: with an invoker that always succeeds.  On
    the fresh scheduler A is called as soon as it is submitted (no spacing
    to wait for), whatever is submitted afterwards, and the run of the
    scenario dispatches A, B, C.  When A(1), B(5), C(1) are submitted in
    this order while a job is in flight and the queue is empty, they are
    called after it in the order B, A, C. *)
Theorem scenario_dispatch_order :
  (forall d t evs s,
      d <= t ->
      run d ((t, RunAI "A" (Some 1)) :: evs) init = Some s ->
      exists rest, dispatched s = (mkJob "A" 0 1, t) :: rest)
  /\ (run 0 Examples.scenario_trace init = Some Examples.scenario_final
      /\ map fn (dispatchOrder Examples.scenario_final) = ["A"; "B"; "C"]%string)
  /\ (forall d s0 t1 t2 t3 evs s,
         isRunning s0 = true -> jobQueue s0 = [] ->
         (forall te, In te evs -> is_progress (snd te) = true) ->
         run d ((t1, RunAI "A" (Some 1)) :: (t2, RunAI "B" (Some 5))
                  :: (t3, RunAI "C" (Some 1)) :: evs) s0 = Some s ->
         exists l,
           dispatchOrder s = dispatchOrder s0 ++ l
           /\ l ++ jobQueue s
              = [ mkJob "B" (S (nextHandle s0)) 5;
                  mkJob "A" (nextHandle s0) 1;
                  mkJob "C" (S (S (nextHandle s0))) 1 ]).
Proof.
  split; [|split].
  - intros d t evs s Ht Hr. rewrite run_RunAI in Hr.
    destruct (dispatched_grows d evs _ _ Hr) as [l Hl].
    rewrite runAI_idle in Hl by exact Ht. exists l. exact Hl.
  - split; vm_compute; reflexivity.
  - intros d s0 t1 t2 t3 evs s Hrun Hq Hp Hr.
    destruct (three_submissions_busy d s0 t1 t2 t3 Hrun Hq) as [Q D].
    rewrite !run_RunAI in Hr.
    destruct (progress_takes_prefix d evs _ _ Hp Hr) as (l & L1 & L2).
    exists l. split.
    + rewrite L1. unfold dispatchOrder. rewrite D. reflexivity.
    + rewrite <- L2. exact Q.
Qed.

(** The two halves of the scenario on concrete runs. *)
Lemma scenario_dispatch_order_witness :
  (exists rest, dispatched Examples.scenario_final = (mkJob "A" 0 1, 1000) :: rest)
  /\ (exists l,
         dispatchOrder Examples.busy_final = dispatchOrder Examples.x_in_flight ++ l
         /\ l ++ jobQueue Examples.busy_final
            = [mkJob "B" 2 5; mkJob "A" 1 1; mkJob "C" 3 1]).
Proof.
  destruct scenario_dispatch_order as (Hidle & _ & Hbusy).
  split.
  - apply (Hidle 0 1000 Examples.scenario_rest); [lia|].
    vm_compute. reflexivity.
  - apply (Hbusy 0 Examples.x_in_flight 1100 1200 1300 Examples.busy_settlements).
    + reflexivity.
    + reflexivity.
    + intros te Hin. cbn in Hin.
      destruct Hin as [<-|[<-|[<-|[<-|[]]]]]; reflexivity.
    + vm_compute. reflexivity.
Defined.

(** C7 as stated fails: the run of the scenario does not dispatch B first. *)
Lemma scenario_order_is_not_BAC :
  ~ (exists s, run 0 Examples.scenario_trace init = Some s
               /\ map fn (dispatchOrder s) = ["B"; "A"; "C"]%string).
Proof.
  intros (s & Hr & Ho).
  assert (H : run 0 Examples.scenario_trace init = Some Examples.scenario_final)
    by (vm_compute; reflexivity).
  rewrite H in Hr. apply Some_eq in Hr. subst s. discriminate Ho.
Qed.

End ScenarioFacts.

(* ================================================================= *)
(** ** The cancellation in analyzeDocument *)

Section AnalysisFacts.
Import Analysis.

Lemma Idle_analyzeDocument blank code s :
  Idle_means_settled s -> Idle_means_settled (analyzeDocument blank code s).
Proof.
  destruct s as [a c n w b acts]. unfold Idle_means_settled, analyzeDocument.
  cbn. intros (I1 & I2 & I3 & I4).
  destruct a; [repeat split; assumption|].
  destruct (blank code).
  { cbn. repeat split; try assumption.
    intros token Ht. destruct (I4 token Ht) as [x Hx]. exists x.
    apply in_or_app. left. exact Hx. }
  rewrite (I1 eq_refl), I3.
  destruct c as [token|]; cbn.
  - repeat split; try discriminate; try lia.
    intros t Ht. injection Ht as <-. eexists.
    apply in_or_app. right. left. reflexivity.
  - repeat split; try discriminate; try lia.
    intros t Ht. injection Ht as <-. eexists.
    apply in_or_app. right. left. reflexivity.
Qed.

Lemma Idle_turn blank e s s' :
  Idle_means_settled s -> turn blank e s = Some s' -> Idle_means_settled s'.
Proof.
  intros I H. destruct e as [code|token r]; cbn [turn] in H.
  - injection H as <-. apply Idle_analyzeDocument. exact I.
  - destruct I as (I1 & I2 & I3 & I4).
    destruct (mem token (awaiting s)) eqn:Em; [|discriminate].
    destruct (Bool.eqb (is_cancelled r) (mem token (aborted s))); [|discriminate].
    cbn in H. injection H as <-.
    assert (Hf : filter (fun t => negb (t =? token)%nat) (awaiting s) = []).
    { unfold mem in Em. destruct (awaiting s) as [|t [|t' l]].
      - reflexivity.
      - cbn in Em. rewrite orb_false_r in Em.
        cbn. rewrite Nat.eqb_sym, Em. reflexivity.
      - cbn in I2. lia. }
    unfold analyzeDocument_resume.
    destruct r; cbn; rewrite Hf; repeat split; cbn; try assumption; try lia;
      intros t Ht; destruct (I4 t Ht) as [c Hc]; exists c;
      try (apply in_or_app; left); exact Hc.
Qed.

Lemma Idle_turns blank evs :
  forall s s', Idle_means_settled s -> turns blank evs s = Some s' ->
               Idle_means_settled s'.
Proof.
  induction evs as [|e evs IH]; intros s s' I H; simpl in H.
  - injection H as <-. exact I.
  - destruct (turn blank e s) as [s1|] eqn:E; [|discriminate].
    apply (IH s1 s'); [eapply Idle_turn; eauto|exact H].
Qed.

Lemma Idle_fresh : Idle_means_settled fresh.
Proof. repeat split; cbn; try lia. discriminate. Qed.

(** Whenever [analyzeDocument] calls [cancelSource.cancel], the post of
    that token was sent earlier and has settled: nothing is aborted. *)
Lemma cancel_comes_after_post blank code s :
  Idle_means_settled s ->
  exists new,
    actions (analyzeDocument blank code s) = actions s ++ new
    /\ aborted (analyzeDocument blank code s) = []
    /\ forall token, In (CancelCalled token) new ->
                     (exists c, In (Posted token c) (actions s))
                     /\ mem token (awaiting s) = false.
Proof.
  destruct s as [a c n w b acts]. unfold Idle_means_settled, analyzeDocument.
  cbn. intros (I1 & I2 & I3 & I4).
  destruct a.
  { exists []. rewrite app_nil_r.
    split; [reflexivity|]. split; [exact I3|]. intros token []. }
  destruct (blank code).
  { exists [DiagSet 0]. cbn.
    split; [reflexivity|]. split; [exact I3|].
    intros token [H|[]]. discriminate H. }
  rewrite (I1 eq_refl), I3.
  destruct c as [token|]; cbn.
  - exists [UpdateStatusBar "analyzing" 0; CancelCalled token; Posted n code].
    rewrite <- !app_assoc.
    split; [reflexivity|]. split; [reflexivity|].
    intros t [H|[H|[H|[]]]]; try discriminate H.
    injection H as <-. split; [apply (I4 token eq_refl)|reflexivity].
  - exists [UpdateStatusBar "analyzing" 0; Posted n code].
    rewrite <- !app_assoc.
    split; [reflexivity|]. split; [reflexivity|].
    intros t [H|[H|[]]]; discriminate H.
Qed.

(** No post of [analyzeDocument] ever rejects with a cancellation. *)
Lemma no_post_is_cancelled blank token r s s' :
  Idle_means_settled s -> turn blank (Settled token r) s = Some s' ->
  r <> Cancelled.
Proof.
  intros (_ & _ & I3 & _) H Hr. subst r. cbn [turn] in H.
  rewrite I3 in H. cbn in H. rewrite andb_false_r in H. discriminate H.
Qed.

End AnalysisFacts.

(* ================================================================= *)
(** ** No way out of the queue but dispatch *)

Section CancelFacts.
Import AiScheduler.

Lemma in_settlements t h o evs :
  In (t, h, o) (settlements evs) -> In (t, FnSettled h o) evs.
Proof.
  unfold settlements. intros H. apply in_flat_map in H.
  destruct H as ([t' e] & Hin & He). cbn [fst snd] in He.
  destruct e; try (destruct He; fail).
  destruct He as [E|[]]. injection E as <- <- <-. exact Hin.
Qed.

Lemma NoDup_of_map {A B : Type} (f : A -> B) l : NoDup (map f l) -> NoDup l.
Proof.
  induction l as [|x l IH]; intros H; [constructor|].
  simpl in H. inversion H as [|? ? Hn Hd]; subst.
  constructor; [|apply IH; exact Hd].
  intros Hin. apply Hn, in_map. exact Hin.
Qed.

(** The list of submitted jobs only grows. *)
Lemma submitted_grows d evs :
  forall s s', run d evs s = Some s' ->
               forall j, In j (submitted s) -> In j (submitted s').
Proof.
  induction evs as [|[t e] evs IH]; intros s s' Hr j Hj; simpl in Hr.
  - apply Some_eq in Hr. subst. exact Hj.
  - destruct (step d t e s) as [s1|] eqn:E; [|discriminate].
    apply (IH s1 s' Hr). clear IH Hr.
    destruct e as [text|f p|k|h o|id]; cbn [step] in E.
    + apply Some_eq in E. subst s1. exact Hj.
    + apply Some_eq in E. subst s1. unfold runAI.
      match goal with |- context [processQueue _ t ?x] =>
        destruct (processQueue_effect d t x) as (_ & P2 & _) end.
      rewrite P2. cbn [submitted set_jobQueue log_submitted].
      apply in_or_app. left. exact Hj.
    + destruct (take_nth k (sleeping s)) as [[due rest]|]; [|discriminate].
      destruct (t <? due); [discriminate|]. apply Some_eq in E. subst s1.
      destruct (dispatch_effect t (set_sleeping rest s)) as (_ & P2 & _).
      rewrite P2. exact Hj.
    + destruct (take_job h (inFlight s)) as [[job rest]|]; [|discriminate].
      apply Some_eq in E. subst s1.
      destruct (settle_effect d t job o (set_inFlight rest s)) as (_ & P2 & _).
      rewrite P2. exact Hj.
    + destruct (lookup_interval id (intervals s)); [|discriminate].
      apply Some_eq in E. subst s1.
      destruct (hide_eq_fields _ _ (hide_cooldownTick id z s))
        as (_ & _ & _ & _ & _ & _ & E7 & _).
      rewrite E7. exact Hj.
Qed.

Lemma queued_not_dispatched s j :
  Hist s -> In j (jobQueue s) ->
  ~ In j (dispatchOrder s) /\ ~ In j (settledJobs s).
Proof.
  intros Hh Hq.
  assert (N : NoDup (dispatchOrder s ++ jobQueue s)).
  { apply (Permutation_NoDup (inv_queue s Hh)).
    apply (NoDup_of_map handle). rewrite (inv_handles s Hh). apply seq_NoDup. }
  assert (D : ~ In j (dispatchOrder s)).
  { intros Hd. apply in_split in Hq. destruct Hq as (q1 & q2 & Eq).
    rewrite Eq, app_assoc in N. apply NoDup_remove_2 in N.
    apply N, in_or_app. left. apply in_or_app. left. exact Hd. }
  split; [exact D|].
  intros Hs. apply D. apply (settled_were_dispatched s j Hh Hs).
Qed.

(** X25: the scheduler has no operation that takes a job out of the
    queue other than the dispatch.  At every state it reaches: each
    submitted job is either still in the queue, with its promise
    pending, or was taken from the queue by [processQueue], which called
    its [fn]; a job in the queue stays there, whatever happens, until it
    is called; a settled promise belongs to a job that was called; and a
    promise is rejected only with the error that the call of the job's
    own [fn] threw. *)
Theorem queued_job_waits_for_dispatch
    (d : Z) (evs : list (Z * Event)) (s : State) :
  run d evs init = Some s ->
  (forall j, In j (submitted s) -> In j (jobQueue s) \/ In j (dispatchOrder s))
  /\ (forall j, In j (jobQueue s) ->
                ~ In j (dispatchOrder s) /\ ~ In j (settledJobs s))
  /\ (forall j evs' s',
         In j (jobQueue s) -> run d evs' s = Some s' ->
         In j (jobQueue s') \/ In j (dispatchOrder s'))
  /\ (forall j, In j (settledJobs s) -> In j (dispatchOrder s))
  /\ (forall j t err,
         In (j, t, Thrown err) (settled s) ->
         In (t, FnSettled (handle j) (Thrown err)) evs).
Proof.
  intros H. destruct (Inv_run d evs init s Inv_init H) as [Hh Hl].
  split; [|split; [|split; [|split]]].
  - intros j Hj. apply (Permutation_in _ (inv_queue s Hh)), in_app_or in Hj.
    destruct Hj; auto.
  - intros j Hj. apply queued_not_dispatched; assumption.
  - intros j evs' s' Hj Hr.
    destruct (Inv_run d evs' s s' (conj Hh Hl) Hr) as [Hh' _].
    assert (Hs : In j (submitted s')).
    { apply (submitted_grows d evs' s s' Hr).
      apply (Permutation_in _ (Permutation_sym (inv_queue s Hh))).
      apply in_or_app. right. exact Hj. }
    apply (Permutation_in _ (inv_queue s' Hh')), in_app_or in Hs.
    destruct Hs; auto.
  - intros j Hj. apply (settled_were_dispatched s j Hh Hj).
  - intros j t err Hin. apply in_settlements.
    rewrite <- (app_nil_l (settlements evs)).
    change (@nil (Z * nat * Outcome)) with (map settlementOf (settled init)).
    rewrite <- (settled_run d evs init s H).
    change (t, handle j, Thrown err) with (settlementOf (j, t, Thrown err)).
    apply in_map. exact Hin.
Qed.

(** A is in flight, B waits: B is in the queue, not called, not settled. *)
Lemma queued_job_waits_for_dispatch_witness :
  run MIN_DELAY Examples.b_queued_trace init = Some Examples.b_queued
  /\ In Examples.jobB (jobQueue Examples.b_queued)
  /\ ~ In Examples.jobB (dispatchOrder Examples.b_queued)
  /\ ~ In Examples.jobB (settledJobs Examples.b_queued).
Proof.
  assert (H : run MIN_DELAY Examples.b_queued_trace init = Some Examples.b_queued)
    by (vm_compute; reflexivity).
  assert (Q : In Examples.jobB (jobQueue Examples.b_queued))
    by (left; reflexivity).
  destruct (queued_job_waits_for_dispatch _ _ _ H) as (_ & K & _).
  split; [exact H|]. split; [exact Q|exact (K _ Q)].
Defined.

(** X26: the call of [cancelSource.cancel] in [analyzeDocument] aborts
    nothing.  At every state that the analysis reaches, no post was ever
    aborted; when [analyzeDocument] calls [cancel], the token is that of
    a post that was sent earlier, with its payload, and has settled
    ([isAnalyzing] keeps the function out while a post is pending); and
    no post of [analyzeDocument] rejects with a cancellation. *)
Theorem analyzeDocument_cancel_aborts_nothing
    (blank : string -> bool) (calls : list Analysis.Input) (a : Analysis.Editor) :
  Analysis.turns blank calls Analysis.fresh = Some a ->
  Analysis.aborted a = []
  /\ (forall code, exists new,
         Analysis.actions (Analysis.analyzeDocument blank code a)
         = Analysis.actions a ++ new
         /\ Analysis.aborted (Analysis.analyzeDocument blank code a) = []
         /\ forall token,
             In (Analysis.CancelCalled token) new ->
             (exists c, In (Analysis.Posted token c) (Analysis.actions a))
             /\ Analysis.mem token (Analysis.awaiting a) = false)
  /\ (forall token r a',
         Analysis.turn blank (Analysis.Settled token r) a = Some a' ->
         r <> Analysis.Cancelled).
Proof.
  intros Ha.
  pose proof (Idle_turns blank calls _ _ Idle_fresh Ha) as Hi.
  split; [destruct Hi as (_ & _ & I3 & _); exact I3|]. split.
  - intros code. apply cancel_comes_after_post. exact Hi.
  - intros token r a' Ht. apply (no_post_is_cancelled blank token r a a' Hi Ht).
Qed.

(** A document is analysed a second time: the cancellation names the
    token of the first post, which was sent and answered before. *)
Lemma analyzeDocument_cancel_aborts_nothing_witness :
  Analysis.turns Analysis.blank_if_empty Analysis.reanalysis Analysis.fresh
  = Some Analysis.reanalysis_final
  /\ Analysis.actions Analysis.reanalysis_final
     = [ Analysis.UpdateStatusBar "analyzing" 0;
         Analysis.Posted 0 "x = 1";
         Analysis.DiagSet 0;
         Analysis.UpdateStatusBar "idle" 0;
         Analysis.UpdateStatusBar "analyzing" 0;
         Analysis.CancelCalled 0;
         Analysis.Posted 1 "x = 2" ]
  /\ Analysis.aborted Analysis.reanalysis_final = []
  /\ forall token r a',
      Analysis.turn Analysis.blank_if_empty (Analysis.Settled token r)
        Analysis.reanalysis_final = Some a' ->
      r <> Analysis.Cancelled.
Proof.
  assert (Ha : Analysis.turns Analysis.blank_if_empty Analysis.reanalysis
                 Analysis.fresh = Some Analysis.reanalysis_final)
    by (vm_compute; reflexivity).
  destruct (analyzeDocument_cancel_aborts_nothing _ _ _ Ha) as (A & _ & N).
  split; [exact Ha|]. split; [reflexivity|]. split; [exact A|exact N].
Defined.

End CancelFacts.

(* ================================================================= *)
(** ** Submissions during a cooldown *)

Section CooldownFacts.
Import AiScheduler.

(** While a call is in flight, a further activation of [processQueue]
    returns at once. *)
Lemma processQueue_while_running d now s :
  isRunning s = true -> processQueue d now s = s.
Proof. intros H. unfold processQueue. rewrite H. reflexivity. Qed.

(** C1 fails on the code.  [isRunning] is raised only after the cooldown
    sleep: B and C, submitted while [processQueue] would still have to
    wait, each start an activation that sleeps; both wake up at 121500,
    the first calls [B.fn], the second calls [C.fn] while the call of B
    is pending.  Two calls are in flight, so "at most one call in flight"
    is not an invariant of the scheduler. *)
Theorem two_calls_in_flight :
  well_timed Examples.overlap_trace = true
  /\ run MIN_DELAY Examples.overlap_trace init = Some Examples.overlap_final
  /\ inFlight Examples.overlap_final = [Examples.jobB; Examples.jobC]
  /\ dispatched Examples.overlap_final
     = [(Examples.jobA, 100000); (Examples.jobB, 121500); (Examples.jobC, 121500)]
  /\ settledJobs Examples.overlap_final = [Examples.jobA]
  /\ ~ (forall evs s, run MIN_DELAY evs init = Some s ->
                      (length (inFlight s) <= 1)%nat).
Proof.
  assert (H : run MIN_DELAY Examples.overlap_trace init = Some Examples.overlap_final)
    by (vm_compute; reflexivity).
  split; [vm_compute; reflexivity|].
  split; [exact H|].
  split; [reflexivity|]. split; [reflexivity|]. split; [reflexivity|].
  intros C. specialize (C _ _ H). cbn in C. lia.
Qed.

(** C3 fails on the code, by the same activations.  In the first run the
    call of B, started at 121500, succeeds at once; the second sleeper,
    which computed its wait before that success, wakes up one millisecond
    later and calls [C.fn], less than [MIN_DELAY] after the success of B.
    In the second run the call of C starts while the call of B is still
    pending, 300 ms before B succeeds. *)
Theorem dispatch_inside_cooldown :
  (well_timed Examples.early_trace = true
   /\ run MIN_DELAY Examples.early_trace init = Some Examples.early_final
   /\ In (Examples.jobB, 121500, Fulfilled "b") (settled Examples.early_final)
   /\ lastCallTime Examples.early_final = 121500
   /\ dispatched Examples.early_final
      = [(Examples.jobA, 100000); (Examples.jobB, 121500); (Examples.jobC, 121501)]
   /\ 121501 - 121500 < MIN_DELAY)
  /\ (well_timed Examples.overlap_success_trace = true
      /\ run MIN_DELAY Examples.overlap_success_trace init
         = Some Examples.overlap_success_final
      /\ In (Examples.jobB, 121800, Fulfilled "b")
            (settled Examples.overlap_success_final)
      /\ In (Examples.jobC, 121500) (dispatched Examples.overlap_success_final)
      /\ 121500 - 121800 < MIN_DELAY).
Proof.
  split.
  - split; [vm_compute; reflexivity|].
    split; [vm_compute; reflexivity|].
    split; [right; left; reflexivity|].
    split; [reflexivity|].
    split; [reflexivity|].
    reflexivity.
  - split; [vm_compute; reflexivity|].
    split; [vm_compute; reflexivity|].
    split; [right; left; reflexivity|].
    split; [right; right; left; reflexivity|].
    reflexivity.
Qed.

(** *** What holds when no job is submitted during a cooldown *)

Lemma calm_dispatch d now s :
  sleeping s = [] -> inFlight s = [] ->
  let s' := processQueue_dispatch now s in
  one_activation d s' /\ lastCallTime s' = lastCallTime s
  /\ (dispatched s' = dispatched s
      \/ exists job, dispatched s' = dispatched s ++ [(job, now)]).
Proof.
  intros Hs Hf s'.
  assert (E : hide s' = match jobQueue s with
                        | [] => hide s
                        | job :: rest =>
                            hide (log_dispatched job now
                                    (set_inFlight (inFlight s ++ [job])
                                       (set_isRunning true (set_jobQueue rest s))))
                        end).
  { subst s'. rewrite hide_processQueue_dispatch. apply dispatch_hidden. }
  destruct (jobQueue s) as [|job rest];
    apply hide_eq_fields in E;
    cbn [jobQueue isRunning lastCallTime sleeping inFlight nextHandle submitted
         dispatched settled set_jobQueue set_isRunning set_inFlight
         log_dispatched] in E;
    destruct E as (E1 & E2 & E3 & E4 & E5 & E6 & E7 & E8 & E9);
    unfold one_activation; rewrite E2, E3, E4, E5, E8, Hs, Hf.
  - repeat split; [simpl; lia|congruence|intros due []|left; reflexivity].
  - repeat split; [simpl; lia|intros due []|right; eauto].
Qed.

Lemma calm_processQueue d now s :
  sleeping s = [] -> inFlight s = [] -> isRunning s = false ->
  let s' := processQueue d now s in
  one_activation d s' /\ lastCallTime s' = lastCallTime s
  /\ (dispatched s' = dispatched s
      \/ exists job, dispatched s' = dispatched s ++ [(job, now)]
                     /\ d <= now - lastCallTime s).
Proof.
  intros Hs Hf Hr s'. subst s'. unfold processQueue. rewrite Hr.
  destruct (length (jobQueue s) =? 0)%nat.
  { unfold one_activation. rewrite Hs, Hf.
    repeat split; [simpl; lia|congruence|intros due []|left; reflexivity]. }
  destruct (Z.ltb_spec (now - lastCallTime s) d) as [Hlt|Hge].
  - destruct (hide_eq_fields _ _ (hide_startCooldown (d - (now - lastCallTime s)) s))
      as (E1 & E2 & E3 & E4 & E5 & E6 & E7 & E8 & E9).
    unfold one_activation.
    cbn [jobQueue isRunning lastCallTime sleeping inFlight dispatched set_sleeping].
    rewrite E3, E4, E5, E8, Hs, Hf.
    repeat split; [simpl; lia|congruence| |left; reflexivity].
    intros due [<-|[]]. lia.
  - destruct (calm_dispatch d now s Hs Hf) as (O & L & D).
    split; [exact O|]. split; [exact L|].
    destruct D as [D|(job & D)]; [left; exact D|right; eauto].
Qed.

Lemma calm_step d t e s s' :
  one_activation d s ->
  (forall f p, e = RunAI f p -> sleeping s = []) ->
  step d t e s = Some s' ->
  one_activation d s'
  /\ (dispatched s' = dispatched s
      \/ exists job, dispatched s' = dispatched s ++ [(job, t)]
                     /\ d <= t - lastCallTime s').
Proof.
  intros (O1 & O2 & O3) Hcalm Hs.
  destruct e as [text|f p|k|h o|id]; cbn [step] in Hs.
  - apply Some_eq in Hs. subst s'. split; [|left; reflexivity].
    repeat split; assumption.
  - apply Some_eq in Hs. subst s'. unfold runAI.
    match goal with |- context [processQueue d t ?x] => set (X := x) end.
    assert (HX : sleeping X = sleeping s /\ inFlight X = inFlight s
                 /\ isRunning X = isRunning s /\ lastCallTime X = lastCallTime s
                 /\ dispatched X = dispatched s) by (repeat split).
    destruct HX as (X1 & X2 & X3 & X4 & X5).
    destruct (isRunning s) eqn:Er.
    + rewrite (processQueue_while_running d t X X3).
      unfold one_activation. rewrite X1, X2, X3, X4, X5.
      split; [repeat split; assumption|left; reflexivity].
    + assert (Hf : inFlight s = []).
      { destruct (inFlight s); [reflexivity|].
        assert (false = true) by (apply O2; discriminate). discriminate. }
      destruct (calm_processQueue d t X) as (O & L & D).
      * rewrite X1. apply (Hcalm f p eq_refl).
      * rewrite X2. exact Hf.
      * exact X3.
      * split; [exact O|]. rewrite L. rewrite X5 in D. exact D.
  - destruct (take_nth k (sleeping s)) as [[due rest]|] eqn:E; [|discriminate].
    destruct (Z.ltb_spec t due) as [|Hdue]; [discriminate|].
    apply Some_eq in Hs. subst s'.
    destruct (take_nth_length _ _ _ _ E) as [Hl Hin].
    assert (Hr : rest = []) by (destruct rest; [reflexivity|simpl in Hl; lia]).
    assert (Hf : inFlight s = []) by (destruct (inFlight s); [reflexivity|simpl in O1; lia]).
    subst rest.
    destruct (calm_dispatch d t (set_sleeping [] s) eq_refl Hf) as (O & L & D).
    split; [exact O|].
    destruct D as [D|(job & D)]; [left; exact D|right].
    exists job. split; [exact D|]. rewrite L.
    cbn [lastCallTime set_sleeping]. specialize (O3 due Hin). lia.
  - destruct (take_job h (inFlight s)) as [[job rest]|] eqn:E; [|discriminate].
    apply Some_eq in Hs. subst s'.
    destruct (take_job_perm _ _ _ _ E) as [Hp _].
    apply Permutation_length in Hp. simpl in Hp.
    assert (Hr : rest = []) by (destruct rest; [reflexivity|simpl in Hp; lia]).
    assert (Hsl : sleeping s = []) by (destruct (sleeping s); [reflexivity|simpl in O1; lia]).
    subst rest. unfold processQueue_settle.
    match goal with |- context [processQueue d t ?x] => set (X := x) end.
    assert (HX : sleeping X = [] /\ inFlight X = [] /\ isRunning X = false
                 /\ dispatched X = dispatched s).
    { subst X. destruct o; repeat split; exact Hsl. }
    destruct HX as (X1 & X2 & X3 & X5).
    destruct (0 <? length (jobQueue X))%nat.
    + destruct (calm_processQueue d t X X1 X2 X3) as (O & L & D).
      split; [exact O|]. rewrite L. rewrite X5 in D. exact D.
    + split; [|left; exact X5].
      unfold one_activation. rewrite X1, X2.
      repeat split; [simpl; lia|congruence|intros due []].
  - destruct (lookup_interval id (intervals s)); [|discriminate].
    apply Some_eq in Hs. subst s'.
    destruct (hide_eq_fields _ _ (hide_cooldownTick id z s))
      as (E1 & E2 & E3 & E4 & E5 & E6 & E7 & E8 & E9).
    unfold one_activation. rewrite E2, E3, E4, E5, E8.
    split; [repeat split; assumption|left; reflexivity].
Qed.

(** As long as no job is submitted during a cooldown sleep, at most one
    call is in flight, and every call starts at least [d] after the last
    success. *)
Lemma calm_single_flight_and_spacing d evs :
  forall s s',
    one_activation d s -> calm d evs s -> run d evs s = Some s' ->
    (length (inFlight s') <= 1)%nat
    /\ forall pre t e post x y,
        evs = pre ++ (t, e) :: post ->
        run d pre s = Some x -> step d t e x = Some y ->
        (length (inFlight y) <= 1)%nat
        /\ (dispatched y = dispatched x
            \/ exists job, dispatched y = dispatched x ++ [(job, t)]
                           /\ d <= t - lastCallTime y).
Proof.
  induction evs as [|[t e] evs IH]; intros s s' Ho Hc Hr.
  - simpl in Hr. apply Some_eq in Hr. subst s'. split.
    + destruct Ho as (O1 & _). lia.
    + intros pre t e post x y E. destruct pre; discriminate E.
  - simpl in Hr, Hc. destruct Hc as [Hc1 Hc2].
    destruct (step d t e s) as [s1|] eqn:E; [|discriminate].
    assert (Hcalm : forall f p, e = RunAI f p -> sleeping s = []).
    { intros f p ->. exact Hc1. }
    destruct (calm_step d t e s s1 Ho Hcalm E) as (O & D).
    destruct (IH s1 s' O Hc2 Hr) as (I1 & I2).
    split; [exact I1|].
    intros pre t0 e0 post x y Hsplit Hx Hy.
    destruct pre as [|[t1 e1] pre].
    + simpl in Hsplit, Hx. injection Hsplit as <- <- <-.
      apply Some_eq in Hx. subst x. rewrite E in Hy. apply Some_eq in Hy. subst y.
      split; [destruct O as (O1 & _); lia|exact D].
    + simpl in Hsplit. injection Hsplit as <- <- ->.
      simpl in Hx. rewrite E in Hx.
      apply (I2 pre t0 e0 post x y eq_refl Hx Hy).
Qed.

End CooldownFacts.

(* ================================================================= *)
(** ** The clean-up of the answer in [/fix] *)

Section CleanFacts.
Import Js Server Handlers.

Lemma remove_cons pattern c s :
  remove pattern (c :: s) =
  match pattern (c :: s) with
  | Some (S k) => remove pattern (skipn k s)
  | _ => c :: remove pattern s
  end.
Proof.
  simp remove. destruct (pattern (c :: s)) as [[|k]|]; reflexivity.
Qed.

Lemma remove_nil pattern : remove pattern [] = [].
Proof. simp remove. reflexivity. Qed.

Lemma startsWith_fence s :
  startsWith fence s = true <-> (3 <= backticks s)%nat.
Proof.
  unfold fence.
  destruct s as [|a [|b [|c s]]]; cbn [startsWith backticks].
  - split; [discriminate|lia].
  - destruct (N.eqb_spec a 96) as [->|Ha].
    + simpl. split; [discriminate|lia].
    + rewrite N.eqb_sym. destruct (N.eqb_spec a 96); [contradiction|].
      simpl. split; [discriminate|lia].
  - rewrite (N.eqb_sym 96 a), (N.eqb_sym 96 b).
    destruct (a =? 96)%N, (b =? 96)%N; simpl; split; try discriminate; lia.
  - rewrite (N.eqb_sym 96 a), (N.eqb_sym 96 b), (N.eqb_sym 96 c).
    destruct (a =? 96)%N, (b =? 96)%N, (c =? 96)%N; simpl; split;
      try discriminate; try lia; reflexivity.
Qed.

Lemma startsWith_fence_false s :
  startsWith fence s = false <-> (backticks s < 3)%nat.
Proof.
  pose proof (startsWith_fence s) as H.
  destruct (startsWith fence s).
  - split; [discriminate|]. intros L.
    assert (3 <= backticks s)%nat by (apply H; reflexivity). lia.
  - split; [|reflexivity]. intros _.
    destruct (le_lt_dec 3 (backticks s)) as [L|L]; [|exact L].
    apply H in L. discriminate.
Qed.

Lemma ticks_skipn3 s :
  (3 <= backticks s)%nat -> backticks (skipn 3 s) = (backticks s - 3)%nat.
Proof.
  destruct s as [|a [|b [|c s]]]; cbn [backticks skipn];
    repeat match goal with
           | |- context [(?x =? 96)%N] => destruct (x =? 96)%N
           end; simpl; lia.
Qed.

Lemma remove_bare_fence_ticks :
  forall n s, (length s < n)%nat ->
    backticks (remove bare_fence s) = (backticks s mod 3)%nat.
Proof.
  induction n as [|n IH]; intros s Hn; [lia|].
  destruct s as [|c s]; [rewrite remove_nil; reflexivity|].
  rewrite remove_cons. unfold bare_fence.
  destruct (startsWith fence (c :: s)) eqn:E.
  - apply startsWith_fence in E.
    change (skipn 2 s) with (skipn 3 (c :: s)).
    rewrite IH by (rewrite length_skipn; simpl in *; lia).
    rewrite ticks_skipn3 by exact E.
    replace (backticks (c :: s))
      with ((backticks (c :: s) - 3) + 1 * 3)%nat at 2 by lia.
    rewrite Nat.Div0.mod_add. reflexivity.
  - apply startsWith_fence_false in E.
    cbn [backticks] in *. destruct (c =? 96)%N.
    + rewrite IH by (simpl in Hn; lia).
      rewrite (Nat.mod_small (backticks s)) by lia.
      rewrite Nat.mod_small by lia. reflexivity.
    + reflexivity.
Qed.

Lemma includes_cons p c s :
  includes p (c :: s) = startsWith p (c :: s) || includes p s.
Proof. reflexivity. Qed.

Lemma remove_bare_fence_free :
  forall n s, (length s < n)%nat ->
    includes fence (remove bare_fence s) = false.
Proof.
  induction n as [|n IH]; intros s Hn; [lia|].
  pose proof (remove_bare_fence_ticks (S n) s Hn) as T.
  destruct s as [|c s]; [rewrite remove_nil; reflexivity|].
  rewrite remove_cons in *. unfold bare_fence in *.
  destruct (startsWith fence (c :: s)) eqn:E.
  - apply IH. rewrite length_skipn. simpl in Hn. lia.
  - rewrite includes_cons. rewrite IH by (simpl in Hn; lia).
    rewrite orb_false_r. apply startsWith_fence_false. rewrite T.
    apply Nat.mod_upper_bound. lia.
Qed.

(** A pattern that begins with a fence finds nothing in a text without
    one. *)
Lemma remove_no_fence pattern s :
  (forall t, startsWith fence t = false -> pattern t = None) ->
  includes fence s = false -> remove pattern s = s.
Proof.
  intros Hp. induction s as [|c s IH]; intros H; [apply remove_nil|].
  rewrite includes_cons in H. apply orb_false_iff in H. destruct H as [H1 H2].
  rewrite remove_cons, (Hp _ H1), IH by exact H2. reflexivity.
Qed.

Lemma tagged_fence_needs_fence t :
  startsWith fence t = false -> tagged_fence t = None.
Proof. intros H. unfold tagged_fence. rewrite H. reflexivity. Qed.

Lemma bare_fence_needs_fence t :
  startsWith fence t = false -> bare_fence t = None.
Proof. intros H. unfold bare_fence. rewrite H. reflexivity. Qed.

Lemma fenced_needs_fence t :
  startsWith fence t = false -> fenced t = None.
Proof. intros H. unfold fenced. rewrite H. reflexivity. Qed.

Lemma bare_fence_leaves_none s :
  includes fence (remove bare_fence s) = false.
Proof. apply (remove_bare_fence_free (S (length s))). lia. Qed.

(** X9: the third replacement of [/fix], which looks for a fence with a
    language tag, never changes the text: after the second replacement
    no fence is left for it to find. *)
Theorem third_replace_changes_nothing (raw : JsString) :
  remove tagged_fence (remove bare_fence (remove fenced raw))
  = remove bare_fence (remove fenced raw).
Proof.
  apply remove_no_fence; [exact tagged_fence_needs_fence|].
  apply bare_fence_leaves_none.
Qed.

Lemma startsWith_app p a b :
  startsWith p a = true -> startsWith p (a ++ b) = true.
Proof.
  revert a. induction p as [|x p IH]; intros [|y a] H; simpl in *;
    try reflexivity; try discriminate.
  apply andb_true_iff in H. destruct H as [H1 H2].
  rewrite H1, (IH a H2). reflexivity.
Qed.

Lemma includes_app_l p a b :
  includes p (a ++ b) = false -> includes p a = false.
Proof.
  induction a as [|c a IH]; intros H.
  - simpl. destruct p as [|x p]; [|reflexivity].
    destruct b; simpl in H; discriminate.
  - rewrite <- app_comm_cons, includes_cons in H.
    apply orb_false_iff in H. destruct H as [H1 H2].
    rewrite includes_cons, (IH H2), orb_false_r.
    destruct (startsWith p (c :: a)) eqn:E; [|reflexivity].
    apply (startsWith_app _ _ b) in E. rewrite <- app_comm_cons in E. congruence.
Qed.

Lemma includes_app_r p a b :
  includes p (a ++ b) = false -> includes p b = false.
Proof.
  induction a as [|c a IH]; intros H; [exact H|].
  rewrite <- app_comm_cons, includes_cons in H.
  apply orb_false_iff in H. destruct H as [_ H2]. exact (IH H2).
Qed.

(** [trimStart] drops a prefix of white space. *)
Lemma trimStart_split s :
  exists ws, s = ws ++ trimStart s /\ forallb isWhiteSpace ws = true.
Proof.
  induction s as [|c s (ws & E & W)].
  - exists []. split; reflexivity.
  - cbn [trimStart]. destruct (isWhiteSpace c) eqn:C.
    + exists (c :: ws). split; [simpl; congruence|simpl; rewrite C, W; reflexivity].
    + exists []. split; reflexivity.
Qed.

Lemma trimEnd_split s :
  exists ws, s = trimEnd s ++ ws /\ forallb isWhiteSpace ws = true.
Proof.
  destruct (trimStart_split (rev s)) as (ws & E & W).
  exists (rev ws). split.
  - unfold trimEnd. rewrite <- rev_app_distr, <- E, rev_involutive. reflexivity.
  - rewrite forallb_forall in *. intros x Hx. apply W, in_rev, Hx.
Qed.

Lemma trim_split s :
  exists l r, s = l ++ trim s ++ r
              /\ forallb isWhiteSpace l = true /\ forallb isWhiteSpace r = true.
Proof.
  destruct (trimStart_split s) as (l & E & L).
  destruct (trimEnd_split (trimStart s)) as (r & F & R).
  exists l, r. unfold trim. rewrite <- F. auto.
Qed.

(** No fence is left in the cleaned answer. *)
Lemma clean_leaves_no_fence (raw : JsString) :
  includes fence (clean raw) = false.
Proof.
  unfold clean. cbv zeta.
  rewrite (remove_no_fence tagged_fence) 
    by (exact tagged_fence_needs_fence || apply bare_fence_leaves_none).
  set (t := remove bare_fence (remove fenced raw)).
  assert (H : includes fence t = false) by apply bare_fence_leaves_none.
  destruct (trim_split t) as (l & r & E & _). rewrite E in H.
  apply includes_app_r in H. apply includes_app_l in H. exact H.
Qed.

End CleanFacts.



Section TrimFacts.
Import Js.

Lemma trimStart_blank ws :
  forallb isWhiteSpace ws = true -> trimStart ws = [].
Proof.
  induction ws as [|c ws IH]; intros H; [reflexivity|].
  simpl in H. apply andb_true_iff in H. destruct H as [H1 H2].
  simpl. rewrite H1. exact (IH H2).
Qed.

Lemma trimStart_app_blank ws s :
  forallb isWhiteSpace ws = true -> trimStart (ws ++ s) = trimStart s.
Proof.
  induction ws as [|c ws IH]; intros H; [reflexivity|].
  simpl in H. apply andb_true_iff in H. destruct H as [H1 H2].
  simpl. rewrite H1. exact (IH H2).
Qed.

Lemma trimStart_snoc s c :
  isWhiteSpace c = false -> trimStart (s ++ [c]) = trimStart s ++ [c].
Proof.
  intros H. induction s as [|x s IH]; simpl.
  - rewrite H. reflexivity.
  - destruct (isWhiteSpace x); [exact IH|reflexivity].
Qed.

Lemma trimEnd_cons c s :
  isWhiteSpace c = false -> trimEnd (c :: s) = c :: trimEnd s.
Proof.
  intros H. unfold trimEnd. simpl rev.
  rewrite (trimStart_snoc _ _ H), rev_app_distr. reflexivity.
Qed.

Lemma trimStart_head s :
  trimStart s = [] \/ exists c t, trimStart s = c :: t /\ isWhiteSpace c = false.
Proof.
  induction s as [|c s IH]; [left; reflexivity|].
  simpl. destruct (isWhiteSpace c) eqn:E; [exact IH|right; eauto].
Qed.

Lemma trimStart_idem s : trimStart (trimStart s) = trimStart s.
Proof.
  destruct (trimStart_head s) as [->|(c & t & -> & H)]; [reflexivity|].
  simpl. rewrite H. reflexivity.
Qed.

Lemma trimEnd_idem s : trimEnd (trimEnd s) = trimEnd s.
Proof.
  unfold trimEnd. rewrite rev_involutive, trimStart_idem. reflexivity.
Qed.

Lemma trim_idem s : trim (trim s) = trim s.
Proof.
  unfold trim.
  destruct (trimStart_head s) as [->|(c & t & -> & H)]; [reflexivity|].
  rewrite (trimEnd_cons _ _ H). cbn [trimStart]. rewrite H.
  rewrite (trimEnd_cons _ _ H), trimEnd_idem. reflexivity.
Qed.

Lemma trim_blank l r :
  forallb isWhiteSpace l = true -> forallb isWhiteSpace r = true ->
  trim (l ++ r) = [].
Proof.
  intros L R. unfold trim. rewrite trimStart_blank; [reflexivity|].
  rewrite forallb_app, L, R. reflexivity.
Qed.

End TrimFacts.



Section FenceFacts.
Import Js Server Handlers.

Lemma not_tick_head c s : c <> 96%N -> startsWith fence (c :: s) = false.
Proof.
  intros H. apply startsWith_fence_false. simpl.
  destruct (N.eqb_spec c 96); [contradiction|lia].
Qed.

(** What stands before the first backtick is kept. *)
Lemma remove_plain_prefix pattern a b :
  (forall t, startsWith fence t = false -> pattern t = None) ->
  ~ In 96%N a ->
  remove pattern (a ++ b) = a ++ remove pattern b.
Proof.
  intros Hp. induction a as [|c a IH]; intros H; [reflexivity|].
  rewrite <- !app_comm_cons, remove_cons.
  rewrite Hp by (apply not_tick_head; intros ->; apply H; left; reflexivity).
  rewrite IH by (intros Hin; apply H; right; exact Hin). reflexivity.
Qed.

Lemma remove_plain pattern a :
  (forall t, startsWith fence t = false -> pattern t = None) ->
  ~ In 96%N a -> remove pattern a = a.
Proof.
  intros Hp H. rewrite <- (app_nil_r a) at 1.
  rewrite (remove_plain_prefix pattern a [] Hp H), remove_nil, app_nil_r.
  reflexivity.
Qed.

Lemma indexOf_plain inner rest :
  ~ In 96%N inner ->
  indexOf fence (inner ++ fence ++ rest) = Some (length inner).
Proof.
  induction inner as [|c inner IH]; intros H.
  - reflexivity.
  - rewrite <- app_comm_cons. cbn [indexOf].
    rewrite not_tick_head by (intros ->; apply H; left; reflexivity).
    rewrite IH by (intros Hin; apply H; right; exact Hin). reflexivity.
Qed.

Lemma skipn_app_exact {A} (a b : list A) : skipn (length a) (a ++ b) = b.
Proof. induction a; simpl; auto. Qed.

Lemma remove_fenced_block inner rest :
  ~ In 96%N inner ->
  remove fenced (fence ++ inner ++ fence ++ rest) = remove fenced rest.
Proof.
  intros H. unfold fence at 1. cbn [app]. rewrite remove_cons.
  unfold fenced. cbn [startsWith fence N.eqb Pos.eqb andb skipn].
  rewrite (indexOf_plain inner rest H). cbn [Nat.add].
  f_equal. cbn [skipn].
  replace (length inner + 3)%nat with (length (inner ++ fence))%nat
    by (rewrite length_app; reflexivity).
  rewrite app_assoc. apply skipn_app_exact.
Qed.

Lemma blank_plain ws : forallb isWhiteSpace ws = true -> ~ In 96%N ws.
Proof.
  intros H Hin. rewrite forallb_forall in H. specialize (H _ Hin).
  discriminate H.
Qed.

Lemma clean_fenced before inner after :
  forallb isWhiteSpace before = true -> forallb isWhiteSpace after = true ->
  ~ In 96%N inner ->
  clean (before ++ fence ++ inner ++ fence ++ after) = [].
Proof.
  intros B A I. unfold clean. cbv zeta.
  rewrite (remove_plain_prefix fenced before _ fenced_needs_fence (blank_plain _ B)).
  rewrite (remove_fenced_block inner after I).
  rewrite (remove_plain fenced after fenced_needs_fence (blank_plain _ A)).
  assert (P : ~ In 96%N (before ++ after)).
  { intros Hin. apply in_app_or in Hin.
    destruct Hin; [apply (blank_plain _ B)|apply (blank_plain _ A)]; assumption. }
  rewrite (remove_plain bare_fence _ bare_fence_needs_fence P).
  rewrite (remove_plain tagged_fence _ tagged_fence_needs_fence P).
  apply trim_blank; assumption.
Qed.

Lemma clean_plain raw : ~ In 96%N raw -> clean raw = trim raw.
Proof.
  intros P. unfold clean. cbv zeta.
  rewrite (remove_plain fenced _ fenced_needs_fence P).
  rewrite (remove_plain bare_fence _ bare_fence_needs_fence P).
  rewrite (remove_plain tagged_fence _ tagged_fence_needs_fence P).
  reflexivity.
Qed.

Lemma clean_trimmed raw : trim (clean raw) = clean raw.
Proof. unfold clean. cbv zeta. apply trim_idem. Qed.

End FenceFacts.



(* ================================================================= *)
(** ** The routes of the server *)

Section HandlerFacts.
Import Js Server Handlers.

Variable prototype : string -> option JsValue.
Variable truthy : JsValue -> bool.
Variable content : JsValue -> Access.
Variable JSON_parse : JsString -> option JsValue.
Variable empty_array : JsValue.

Lemma missing_None required b :
  missing prototype required b = None
  <-> Forall (fun key => has prototype key b = true) required.
Proof.
  induction required as [|key required IH]; simpl.
  - split; [constructor|reflexivity].
  - destruct (has prototype key b) eqn:E.
    + rewrite IH. split; [intros H; constructor; assumption|].
      intros H. inversion H; assumption.
    + split; [discriminate|]. intros H. inversion H; congruence.
Qed.

Lemma missing_Some required b key :
  missing prototype required b = Some key ->
  exists before after,
    required = before ++ key :: after
    /\ Forall (fun k => has prototype k b = true) before
    /\ has prototype key b = false.
Proof.
  induction required as [|k required IH]; simpl; [discriminate|].
  destruct (has prototype k b) eqn:E.
  - intros H. destruct (IH H) as (before & after & -> & F & M).
    exists (k :: before), after. repeat split; [constructor; assumption|exact M].
  - intros H. injection H as <-. exists [], required.
    repeat split; [constructor|exact E].
Qed.

(** X1: [safeBody] returns a body exactly when the request has one and
    every required key is in it, as a property of its own or an
    inherited one and whatever its value; nothing is sent then. *)
Theorem safeBody_accepts body required b out :
  safeBody prototype body required = (Some b, out)
  <-> body = Some b /\ out = []
      /\ Forall (fun key => has prototype key b = true) required.
Proof.
  unfold safeBody. split.
  - destruct body as [b'|]; [|discriminate].
    destruct (missing prototype required b') eqn:E; [discriminate|].
    intros H. injection H as <- <-. apply missing_None in E. auto.
  - intros (-> & -> & F). apply missing_None in F. rewrite F. reflexivity.
Qed.

(** X2: when [safeBody] returns [null] it has sent exactly one response,
    with status 400: "Missing JSON body" when the request has no body,
    else the message that names the first key of [required], in its
    order, that is not in the body. *)
Theorem safeBody_reports_first_missing body required out :
  safeBody prototype body required = (None, out) ->
  (body = None /\ out = [mkResponse 400 (Error "Missing JSON body")])
  \/ exists b before key after,
       body = Some b
       /\ required = before ++ key :: after
       /\ Forall (fun k => has prototype k b = true) before
       /\ has prototype key b = false
       /\ out = [mkResponse 400 (Error ("Missing required field: " ++ key))].
Proof.
  unfold safeBody. destruct body as [b|].
  - destruct (missing prototype required b) as [key|] eqn:E; [|discriminate].
    intros H. injection H as <-. right.
    destruct (missing_Some _ _ _ E) as (before & after & R & F & M).
    exists b, before, key, after. auto.
  - intros H. injection H as <-. left. auto.
Qed.

Lemma safeBody_sends body required :
  match safeBody prototype body required with
  | (Some b, out) => body = Some b /\ out = []
  | (None, out) => exists msg, out = [mkResponse 400 (Error msg)]
  end.
Proof.
  unfold safeBody. destruct body as [b|]; [|eauto].
  destruct (missing prototype required b); eauto.
Qed.

(** What the two retries of the default come to, whatever [fn] does. *)
Lemma safeAIRequest_default_unfold fn w :
  safeAIRequest_default fn w =
  let c := calls w in
  match fn c with
  | Fulfilled v => (Fulfilled v, mkWorld (S c) (effects w ++ [Invoke c]))
  | Thrown e0 =>
      match fn (S c) with
      | Fulfilled v =>
          (Fulfilled v,
           mkWorld (S (S c))
             (effects w ++ [Invoke c; Warn e0; SetTimeout 1000; Invoke (S c)]))
      | Thrown e1 =>
          (fn (S (S c)),
           mkWorld (S (S (S c)))
             (effects w ++ [Invoke c; Warn e0; SetTimeout 1000;
                            Invoke (S c); Warn e1; SetTimeout 1000;
                            Invoke (S (S c))]))
      end
  end.
Proof.
  cbv zeta. unfold safeAIRequest_default.
  rewrite safeAIRequest_step.
  destruct (fn (calls w)) as [v|e0]; [reflexivity|].
  change (2 <=? 0) with false. cbv iota. change (2 - 1) with 1.
  rewrite safeAIRequest_step. cbn [calls emit effects].
  destruct (fn (S (calls w))) as [v|e1].
  { rewrite <- !app_assoc. reflexivity. }
  change (1 <=? 0) with false. cbv iota. change (1 - 1) with 0.
  rewrite safeAIRequest_step. cbn [calls emit effects].
  change (0 <=? 0) with true. cbv iota.
  rewrite <- !app_assoc.
  destruct (fn (S (S (calls w)))); reflexivity.
Qed.

Lemma safeAIRequest_default_calls fn w :
  (calls w <= calls (snd (safeAIRequest_default fn w)) <= 3 + calls w)%nat.
Proof.
  rewrite safeAIRequest_default_unfold. cbv zeta.
  destruct (fn (calls w)); [cbn; lia|].
  destruct (fn (S (calls w))); cbn; lia.
Qed.

(** X3: on a request with a body each of the three handlers sends
    exactly one response, whatever the model does.  Without a body
    [/analyze] and [/explain] answer 400 "Missing JSON body"; [/fix],
    which does not go through [safeBody], sends nothing and ends with
    an exception that nothing in the handler catches. *)
Theorem handlers_answer_once b fn w :
  let analyze := post_analyze prototype content JSON_parse empty_array in
  let fix_ := post_fix prototype truthy content in
  let explain := post_explain prototype content in
  (length (sent (analyze (Some b) fn w)) = 1
   /\ length (sent (fix_ (Some b) fn w)) = 1
   /\ length (sent (explain (Some b) fn w)) = 1)%nat
  /\ sent (analyze None fn w) = [mkResponse 400 (Error "Missing JSON body")]
  /\ sent (explain None fn w) = [mkResponse 400 (Error "Missing JSON body")]
  /\ sent (fix_ None fn w) = []
  /\ uncaught (fix_ None fn w) = true.
Proof.
  cbv zeta. split; [|repeat split].
  split; [|split].
  - unfold post_analyze.
    pose proof (safeBody_sends (Some b) ["code"; "language"]%string) as S.
    destruct (safeBody prototype (Some b) _) as [[b'|] out].
    + destruct S as [_ ->]. unfold call_fn.
      destruct (fn (calls w)); reflexivity.
    + destruct S as [msg ->]. reflexivity.
  - unfold post_fix.
    destruct (match get prototype "code" b with
              | Some v => truthy v
              | None => false
              end); [|reflexivity].
    destruct (safeAIRequest_default fn w) as [[ai|err] w1]; [|reflexivity].
    destruct (content ai) as [err|text]; [reflexivity|].
    destruct (clean (or_else text [])); reflexivity.
  - unfold post_explain.
    pose proof (safeBody_sends (Some b) ["code"; "language"]%string) as S.
    destruct (safeBody prototype (Some b) _) as [[b'|] out].
    + destruct S as [_ ->]. unfold call_fn.
      destruct (fn (calls w)) as [response|err]; [|reflexivity].
      destruct (content response); reflexivity.
    + destruct S as [msg ->]. reflexivity.
Qed.

Lemma post_analyze_calls body fn w :
  let r := post_analyze prototype content JSON_parse empty_array body fn w in
  (calls w <= calls (world r) <= 1 + calls w)%nat
  /\ forall x, status x = 400 -> In x (sent r) -> world r = w.
Proof.
  cbv zeta. unfold post_analyze.
  pose proof (safeBody_sends body ["code"; "language"]%string) as S.
  destruct (safeBody prototype body _) as [[b'|] out].
  - destruct S as [_ ->]. unfold call_fn.
    destruct (fn (calls w)); cbn [world sent calls app]; (split; [lia|]);
      intros r Hr [<-|[]]; discriminate Hr.
  - cbn [world]. split; [lia|reflexivity].
Qed.

Lemma post_explain_calls body fn w :
  let r := post_explain prototype content body fn w in
  (calls w <= calls (world r) <= 1 + calls w)%nat
  /\ forall x, status x = 400 -> In x (sent r) -> world r = w.
Proof.
  cbv zeta. unfold post_explain.
  pose proof (safeBody_sends body ["code"; "language"]%string) as S.
  destruct (safeBody prototype body _) as [[b'|] out].
  - destruct S as [_ ->]. unfold call_fn.
    destruct (fn (calls w)) as [response|err];
      [destruct (content response)|]; cbn [world sent calls app];
      (split; [lia|]); intros r Hr [<-|[]]; discriminate Hr.
  - cbn [world]. split; [lia|reflexivity].
Qed.

Lemma post_fix_calls body fn w :
  let r := post_fix prototype truthy content body fn w in
  (calls w <= calls (world r) <= 3 + calls w)%nat
  /\ forall x, status x = 400 -> In x (sent r) -> world r = w.
Proof.
  cbv zeta. unfold post_fix.
  destruct body as [b|]; [|cbn; split; [lia|reflexivity]].
  destruct (match get prototype "code" b with
            | Some v => truthy v
            | None => false
            end); [|cbn; split; [lia|reflexivity]].
  pose proof (safeAIRequest_default_calls fn w) as B.
  destruct (safeAIRequest_default fn w) as [o w1]. cbn [snd] in B.
  destruct o as [ai|err].
  - destruct (content ai) as [err|text];
      [|destruct (clean (or_else text []))]; cbn [world sent];
      (split; [exact B|]); intros r Hr [<-|[]]; discriminate Hr.
  - cbn [world sent]. split; [exact B|].
    intros r Hr [<-|[]]; discriminate Hr.
Qed.

(** X4: [/analyze] and [/explain] call the model at most once, so a
    failed call is not retried; [/fix] calls it at most three times; a
    handler that answers 400 has not called it. *)
Theorem handlers_call_budget body fn w :
  let analyze := post_analyze prototype content JSON_parse empty_array body fn w in
  let fix_ := post_fix prototype truthy content body fn w in
  let explain := post_explain prototype content body fn w in
  (calls w <= calls (world analyze) <= 1 + calls w)%nat
  /\ (calls w <= calls (world explain) <= 1 + calls w)%nat
  /\ (calls w <= calls (world fix_) <= 3 + calls w)%nat
  /\ (forall r, status r = 400 ->
        (In r (sent analyze) -> world analyze = w)
        /\ (In r (sent explain) -> world explain = w)
        /\ (In r (sent fix_) -> world fix_ = w)).
Proof.
  cbv zeta.
  destruct (post_analyze_calls body fn w) as [A1 A2].
  destruct (post_explain_calls body fn w) as [E1 E2].
  destruct (post_fix_calls body fn w) as [F1 F2].
  split; [exact A1|]. split; [exact E1|]. split; [exact F1|].
  intros r Hr. split; [apply A2, Hr|]. split; [apply E2, Hr|apply F2, Hr].
Qed.

(** X5: [/fix] calls the model through [safeAIRequest] with its default
    of two retries: when three calls in a row fail, it answers 500
    "Fix failed" with the error of the third call as details and logs
    it, after exactly three calls and two waits of 1000 ms. *)
Theorem post_fix_gives_up b fn w code e0 e1 e2 :
  get prototype "code" b = Some code -> truthy code = true ->
  fn (calls w) = Thrown e0 ->
  fn (S (calls w)) = Thrown e1 ->
  fn (S (S (calls w))) = Thrown e2 ->
  let r := post_fix prototype truthy content (Some b) fn w in
  sent r = [mkResponse 500 (ErrorDetails "Fix failed" e2)]
  /\ logged r = [("Fix error:"%string, e2)]
  /\ calls (world r) = (3 + calls w)%nat
  /\ effects (world r)
     = effects w ++ [Invoke (calls w); Warn e0; SetTimeout 1000;
                     Invoke (S (calls w)); Warn e1; SetTimeout 1000;
                     Invoke (S (S (calls w)))].
Proof.
  intros Hc Ht H0 H1 H2 r. subst r. unfold post_fix. rewrite Hc, Ht.
  rewrite safeAIRequest_default_unfold. cbv zeta. rewrite H0, H1, H2.
  cbn. repeat split.
Qed.

(** X6: an answer of the model that is one fenced block, with white
    space around it or not, is lost: the first replacement removes the
    block together with the code in it, and [/fix] answers 500
    "AI returned empty fix". *)
Theorem post_fix_loses_fenced_answer b fn w code ai before inner after :
  get prototype "code" b = Some code -> truthy code = true ->
  fn (calls w) = Fulfilled ai ->
  content ai = Content (Some (before ++ fence ++ inner ++ fence ++ after)) ->
  forallb isWhiteSpace before = true ->
  forallb isWhiteSpace after = true ->
  ~ In 96%N inner ->
  sent (post_fix prototype truthy content (Some b) fn w)
  = [mkResponse 500 (Error "AI returned empty fix")].
Proof.
  intros Hc Ht H0 Hai B A I. unfold post_fix. rewrite Hc, Ht.
  rewrite safeAIRequest_default_unfold. cbv zeta. rewrite H0, Hai.
  assert (E : or_else (Some (before ++ fence ++ inner ++ fence ++ after)) []
              = before ++ fence ++ inner ++ fence ++ after).
  { unfold or_else. destruct before; reflexivity. }
  rewrite E, (clean_fenced before inner after B A I). reflexivity.
Qed.

(** X7: an answer without a backtick comes back as it is but for the
    white space at its two ends. *)
Theorem post_fix_returns_plain_answer b fn w code ai text :
  get prototype "code" b = Some code -> truthy code = true ->
  fn (calls w) = Fulfilled ai ->
  content ai = Content (Some text) ->
  ~ In 96%N text ->
  trim text <> [] ->
  sent (post_fix prototype truthy content (Some b) fn w)
  = [mkResponse 200 (Fixed (trim text))].
Proof.
  intros Hc Ht H0 Hai P N. unfold post_fix. rewrite Hc, Ht.
  rewrite safeAIRequest_default_unfold. cbv zeta. rewrite H0, Hai.
  assert (E : or_else (Some text) [] = text) by (destruct text; reflexivity).
  rewrite E, (clean_plain text P).
  destruct (trim text); [contradiction|reflexivity].
Qed.

(** X8: whenever [/fix] answers 200, the output is not empty, holds no
    fence of three backticks, and neither begins nor ends with white
    space. *)
Theorem post_fix_output_is_clean body fn w output :
  In (mkResponse 200 (Fixed output))
     (sent (post_fix prototype truthy content body fn w)) ->
  output <> [] /\ includes fence output = false /\ trim output = output.
Proof.
  unfold post_fix. destruct body as [b|]; [|intros []].
  destruct (match get prototype "code" b with
            | Some v => truthy v
            | None => false
            end); [|intros [H|[]]; discriminate H].
  destruct (safeAIRequest_default fn w) as [[ai|err] w1];
    [|intros [H|[]]; discriminate H].
  destruct (content ai) as [err|text]; [intros [H|[]]; discriminate H|].
  destruct (clean (or_else text [])) as [|c raw] eqn:E;
    [intros [H|[]]; discriminate H|].
  intros [H|[]]. injection H as <-. rewrite <- E.
  split; [rewrite E; discriminate|].
  split; [apply clean_leaves_no_fence|apply clean_trimmed].
Qed.

(** X10: once the model call of [/analyze] is fulfilled, the answer is
    200 whatever the model wrote: the issues are what [JSON.parse] makes
    of the content when the content is not empty and is JSON, and the
    empty array when the content cannot be read, is missing or empty,
    or is not JSON. *)
Theorem post_analyze_answers_200 body b fn w response :
  fst (safeBody prototype body ["code"; "language"]%string) = Some b ->
  JSON_parse (units "[]") = Some empty_array ->
  fn (calls w) = Fulfilled response ->
  exists issues,
    sent (post_analyze prototype content JSON_parse empty_array body fn w)
    = [mkResponse 200 (Issues issues)]
    /\ (forall text v,
           content response = Content (Some text) -> text <> [] ->
           JSON_parse text = Some v -> issues = v)
    /\ ((forall text, content response = Content (Some text) ->
                      text = [] \/ JSON_parse text = None) ->
        issues = empty_array).
Proof.
  intros Hb Hj H0. unfold post_analyze.
  pose proof (safeBody_sends body ["code"; "language"]%string) as S.
  destruct (safeBody prototype body _) as [[b'|] out]; [|discriminate Hb].
  destruct S as [_ ->]. unfold call_fn. rewrite H0.
  destruct (content response) as [err|[text|]] eqn:C.
  - exists empty_array. split; [reflexivity|]. split; [discriminate|reflexivity].
  - destruct text as [|c t]; cbn [or_else].
    + rewrite Hj. exists empty_array. split; [reflexivity|].
      split; [|reflexivity]. intros text v E N. injection E as <-. contradiction.
    + destruct (JSON_parse (c :: t)) as [v|] eqn:P.
      * exists v. split; [reflexivity|]. split.
        -- intros text v' E _ P'. injection E as <-. congruence.
        -- intros Hbad. destruct (Hbad (c :: t) eq_refl); congruence.
      * exists empty_array. split; [reflexivity|]. split; [|reflexivity].
        intros text v' E _ P'. injection E as <-. congruence.
  - cbn [or_else]. rewrite Hj. exists empty_array.
    split; [reflexivity|]. split; [discriminate|reflexivity].
Qed.

End HandlerFacts.



Section HandlerExamples.
Import Js Server Handlers.

(** The field [language] is missing. *)
Lemma safeBody_reports_first_missing_witness :
  safeBody no_prototype (Some no_language) ["code"; "language"]%string
  = (None, [mkResponse 400 (Error "Missing required field: language")])
  /\ ((Some no_language = None
       /\ [mkResponse 400 (Error "Missing required field: language")]
          = [mkResponse 400 (Error "Missing JSON body")])
      \/ exists b before key after,
          Some no_language = Some b
          /\ ["code"; "language"]%string = before ++ key :: after
          /\ Forall (fun k => has no_prototype k b = true) before
          /\ has no_prototype key b = false
          /\ [mkResponse 400 (Error "Missing required field: language")]
             = [mkResponse 400 (Error ("Missing required field: " ++ key))]).
Proof.
  split; [reflexivity|].
  apply (safeBody_reports_first_missing no_prototype (Some no_language)
           ["code"; "language"]%string _ eq_refl).
Defined.

(** The model is down. *)
Lemma post_fix_gives_up_witness :
  sent (post_fix no_prototype nonempty text_of (Some request)
          (fun _ => Thrown "ECONNRESET") world0)
  = [mkResponse 500 (ErrorDetails "Fix failed" "ECONNRESET")]
  /\ calls (world (post_fix no_prototype nonempty text_of (Some request)
                     (fun _ => Thrown "ECONNRESET") world0)) = 3%nat.
Proof.
  destruct (post_fix_gives_up no_prototype nonempty text_of request
              (fun _ => Thrown "ECONNRESET") world0 "let x = 1"%string
              "ECONNRESET"%string "ECONNRESET"%string "ECONNRESET"%string
              eq_refl eq_refl eq_refl eq_refl eq_refl) as (R1 & _ & R3 & _).
  split; [exact R1|exact R3].
Defined.

(** The model fences its code. *)
Lemma post_fix_loses_fenced_answer_witness :
  sent (post_fix no_prototype nonempty answers_fenced (Some request)
          (fun _ => Fulfilled "completion") world0)
  = [mkResponse 500 (Error "AI returned empty fix")].
Proof.
  apply (post_fix_loses_fenced_answer no_prototype nonempty answers_fenced
           request (fun _ => Fulfilled "completion") world0
           "let x = 1"%string "completion"%string [] fenced_inner [10%N]
           eq_refl eq_refl eq_refl eq_refl eq_refl eq_refl).
  vm_compute. intros H. repeat (destruct H as [H|H]; [discriminate H|]). exact H.
Defined.

(** The model does as it is told. *)
Lemma post_fix_returns_plain_answer_witness :
  sent (post_fix no_prototype nonempty text_of (Some request)
          (fun _ => Fulfilled "  let x = 2;  ") world0)
  = [mkResponse 200 (Fixed (units "let x = 2;"))].
Proof.
  apply (post_fix_returns_plain_answer no_prototype nonempty text_of request
           (fun _ => Fulfilled "  let x = 2;  ") world0
           "let x = 1"%string "  let x = 2;  "%string (units "  let x = 2;  ")
           eq_refl eq_refl eq_refl eq_refl).
  - vm_compute. intros H. repeat (destruct H as [H|H]; [discriminate H|]). exact H.
  - vm_compute. discriminate.
Defined.

Lemma post_fix_output_is_clean_witness :
  units "let x = 2;" <> []
  /\ includes fence (units "let x = 2;") = false
  /\ trim (units "let x = 2;") = units "let x = 2;".
Proof.
  apply (post_fix_output_is_clean no_prototype nonempty text_of (Some request)
           (fun _ => Fulfilled "  let x = 2;  ") world0).
  vm_compute. left. reflexivity.
Defined.

(** The model answers in prose. *)
Lemma post_analyze_answers_200_witness :
  exists issues,
    sent (post_analyze no_prototype text_of parse_empty_array "[]"%string
            (Some request) (fun _ => Fulfilled "No issues found.") world0)
    = [mkResponse 200 (Issues issues)]
    /\ issues = "[]"%string.
Proof.
  destruct (post_analyze_answers_200 no_prototype text_of
              parse_empty_array "[]"%string (Some request) request
              (fun _ => Fulfilled "No issues found.") world0
              "No issues found."%string eq_refl eq_refl eq_refl)
    as (issues & S & _ & E).
  exists issues. split; [exact S|]. apply E.
  intros text H. injection H as <-. right. reflexivity.
Defined.

End HandlerExamples.



(* ================================================================= *)
(** ** Helpers of the extension *)

Section EscapeFacts.
Import Js Extension.

(** What [escapeHTML] puts in the place of one code unit. *)
Lemma escape_unit_cases (c : N) :
  let e := escape_unit c in
  (c = 38%N /\ e = [38; 97; 109; 112; 59]%N)
  \/ (c = 60%N /\ e = [38; 108; 116; 59]%N)
  \/ (c = 62%N /\ e = [38; 103; 116; 59]%N)
  \/ (c = 34%N /\ e = [38; 113; 117; 111; 116; 59]%N)
  \/ (c <> 38%N /\ c <> 60%N /\ c <> 62%N /\ c <> 34%N /\ e = [c]).
Proof.
  cbv zeta. unfold escape_unit, markup. cbn [existsb].
  destruct (N.eqb_spec c 38) as [->|H1]; [left; split; reflexivity|].
  destruct (N.eqb_spec c 60) as [->|H2]; [right; left; split; reflexivity|].
  destruct (N.eqb_spec c 62) as [->|H3]; [right; right; left; split; reflexivity|].
  destruct (N.eqb_spec c 34) as [->|H4];
    [right; right; right; left; split; reflexivity|].
  right; right; right; right. repeat split; assumption.
Qed.

(** X15: the text that [escapeHTML] returns holds no less-than sign, no
    greater-than sign and no double quote. *)
Theorem escapeHTML_leaves_no_markup (str : JsString) :
  Forall (fun c => c <> 60%N /\ c <> 62%N /\ c <> 34%N) (escapeHTML str).
Proof.
  induction str as [|c str IH]; [constructor|].
  unfold escapeHTML. cbn [flat_map]. apply Forall_app. split; [|exact IH].
  destruct (escape_unit_cases c)
    as [[_ ->]|[[_ ->]|[[_ ->]|[[_ ->]|(H1 & H2 & H3 & H4 & ->)]]]];
    repeat constructor; try discriminate; assumption.
Qed.

(** X16: [escapeHTML] loses nothing: two texts with the same escaped
    form are the same text. *)
Theorem escapeHTML_injective (a b : JsString) :
  escapeHTML a = escapeHTML b -> a = b.
Proof.
  revert b. induction a as [|x a IH]; intros [|y b] H.
  - reflexivity.
  - exfalso. unfold escapeHTML in H. cbn [flat_map] in H.
    destruct (escape_unit_cases y)
      as [[_ E]|[[_ E]|[[_ E]|[[_ E]|(_ & _ & _ & _ & E)]]]];
      rewrite E in H; discriminate H.
  - exfalso. unfold escapeHTML in H. cbn [flat_map] in H.
    destruct (escape_unit_cases x)
      as [[_ E]|[[_ E]|[[_ E]|[[_ E]|(_ & _ & _ & _ & E)]]]];
      rewrite E in H; discriminate H.
  - unfold escapeHTML in H. cbn [flat_map] in H.
    fold (escapeHTML a) in H. fold (escapeHTML b) in H.
    destruct (escape_unit_cases x)
      as [[X E]|[[X E]|[[X E]|[[X E]|(X1 & X2 & X3 & X4 & E)]]]];
      rewrite E in H; clear E;
      destruct (escape_unit_cases y)
        as [[Y F]|[[Y F]|[[Y F]|[[Y F]|(Y1 & Y2 & Y3 & Y4 & F)]]]];
      rewrite F in H; clear F;
      cbn [app] in H;
      try discriminate H;
      try (injection H as H; subst; f_equal; apply IH; assumption);
      try (injection H as H0 H; subst; congruence).
Qed.

Lemma escapeHTML_injective_witness : units "a < b" = units "a < b".
Proof. apply escapeHTML_injective. reflexivity. Defined.

End EscapeFacts.



Section BlockRangeFacts.
Import Js Extension.

Lemma scan_down_step doc e :
  scan_down doc e =
  if (S e <? lineCount doc)%nat then
    match lineAt doc e with
    | None => None
    | Some text => if includes rbrace text then Some e else scan_down doc (S e)
    end
  else Some e.
Proof.
  simp scan_down.
  destruct (le_lt_dec (lineCount doc) (S e)) as [Hle|Hlt]; simpl.
  - destruct (Nat.ltb_spec (S e) (lineCount doc)); [lia|reflexivity].
  - destruct (Nat.ltb_spec (S e) (lineCount doc)); [|lia].
    destruct (lineAt doc e) as [text|]; simpl; [|reflexivity].
    destruct (includes rbrace text); [reflexivity|].
    simp scan_down. reflexivity.
Qed.

Lemma lineAt_Some doc n :
  (n < lineCount doc)%nat -> exists text, lineAt doc n = Some text.
Proof.
  intros H. unfold lineAt. destruct (nth_error doc n) eqn:E; [eauto|].
  apply nth_error_None in E. unfold lineCount in H. lia.
Qed.

Lemma scan_up_spec doc :
  forall first, (first < lineCount doc)%nat ->
    exists s, scan_up doc first = Some s
              /\ (s <= first)%nat
              /\ (s = 0%nat \/ opens doc s)
              /\ forall n, (s < n <= first)%nat -> ~ opens doc n.
Proof.
  induction first as [|above IH]; intros H.
  - exists 0%nat. simpl. repeat split; [lia|left; reflexivity|intros; lia].
  - cbn [scan_up]. destruct (lineAt_Some doc (S above) H) as [text E].
    rewrite E. destruct (includes lbrace text) eqn:I.
    + exists (S above). repeat split; [lia|right; exists text; auto|intros; lia].
    + destruct IH as (s & E1 & E2 & E3 & E4); [lia|].
      exists s. repeat split; [exact E1|lia|exact E3|].
      intros n Hn (text' & T1 & T2).
      destruct (Nat.eq_dec n (S above)) as [->|Hne].
      * rewrite E in T1. injection T1 as <-. congruence.
      * apply (E4 n); [lia|exists text'; auto].
Qed.

Lemma scan_down_spec doc :
  forall k last, (lineCount doc - last = k)%nat -> (last < lineCount doc)%nat ->
    exists e, scan_down doc last = Some e
              /\ (last <= e < lineCount doc)%nat
              /\ (S e = lineCount doc \/ closes doc e)
              /\ forall n, (last <= n < e)%nat -> ~ closes doc n.
Proof.
  induction k as [|k IH]; intros last Hk H; [lia|].
  rewrite scan_down_step.
  destruct (Nat.ltb_spec (S last) (lineCount doc)) as [Hlt|Hge].
  - destruct (lineAt_Some doc last H) as [text E]. rewrite E.
    destruct (includes rbrace text) eqn:I.
    + exists last. repeat split; [lia|lia|right; exists text; auto|intros; lia].
    + destruct (IH (S last)) as (e & E1 & E2 & E3 & E4); [lia|lia|].
      exists e. repeat split; [exact E1|lia|lia|exact E3|].
      intros n Hn (text' & T1 & T2).
      destruct (Nat.eq_dec n last) as [->|Hne].
      * rewrite E in T1. injection T1 as <-. congruence.
      * apply (E4 n); [lia|exists text'; auto].
  - exists last. repeat split; [lia|lia|left; lia|intros; lia].
Qed.

Lemma scan_up_le doc : forall first s,
  scan_up doc first = Some s -> (s <= first)%nat.
Proof.
  induction first as [|above IH]; intros s H.
  - injection H as <-. lia.
  - cbn [scan_up] in H.
    destruct (lineAt doc (S above)) as [text|]; [|discriminate].
    destruct (includes lbrace text); [injection H as <-; lia|].
    specialize (IH s H). lia.
Qed.

Lemma scan_down_ge doc : forall k last e,
  (lineCount doc - last = k)%nat -> scan_down doc last = Some e ->
  (last <= e)%nat.
Proof.
  induction k as [|k IH]; intros last e Hk H; rewrite scan_down_step in H.
  - destruct (Nat.ltb_spec (S last) (lineCount doc)); [lia|].
    injection H as <-. lia.
  - destruct (Nat.ltb_spec (S last) (lineCount doc)).
    + destruct (lineAt doc last) as [text|]; [|discriminate].
      destruct (includes rbrace text); [injection H as <-; lia|].
      assert (S last <= e)%nat by (apply IH; [lia|exact H]). lia.
    + injection H as <-. lia.
Qed.

(** The constructor leaves the two positions in their places. *)
Lemma newRange_ordered s e n :
  (s <= e)%nat ->
  newRange (mkPosition s 0) (mkPosition e n)
  = mkRange (mkPosition s 0) (mkPosition e n).
Proof.
  intros H. unfold newRange, isAfter. cbn [line character].
  destruct (Nat.ltb_spec e s); [lia|]. rewrite andb_false_r. reflexivity.
Qed.

(** X11: for a selection that lies in the document,
    [findCodeBlockRange] returns a range of whole lines that lies in the
    document and contains the lines of the selection: it starts at
    character 0 of a line at or above the first one and ends at the end
    of a line at or below the last one. *)
Theorem findCodeBlockRange_encloses doc range :
  (line (start range) <= line (end_ range) < lineCount doc)%nat ->
  exists block text,
    findCodeBlockRange doc range = Some block
    /\ (line (start block) <= line (start range))%nat
    /\ (line (end_ range) <= line (end_ block) < lineCount doc)%nat
    /\ character (start block) = 0%nat
    /\ lineAt doc (line (end_ block)) = Some text
    /\ character (end_ block) = length text.
Proof.
  intros [H1 H2]. unfold findCodeBlockRange.
  destruct (scan_up_spec doc (line (start range))) as (s & S1 & S2 & _); [lia|].
  destruct (scan_down_spec doc _ (line (end_ range)) eq_refl H2) as (e & E1 & E2 & _).
  rewrite S1, E1.
  destruct (lineAt_Some doc e) as [text T]; [lia|]. rewrite T.
  rewrite newRange_ordered by lia.
  exists (mkRange (mkPosition s 0) (mkPosition e (length text))), text.
  cbn [line start end_ character]. repeat split; try assumption; lia.
Qed.

Lemma findCodeBlockRange_inv doc range block :
  (line (start range) <= line (end_ range))%nat ->
  findCodeBlockRange doc range = Some block ->
  exists text,
    scan_up doc (line (start range)) = Some (line (start block))
    /\ scan_down doc (line (end_ range)) = Some (line (end_ block))
    /\ lineAt doc (line (end_ block)) = Some text
    /\ block = mkRange (mkPosition (line (start block)) 0)
                       (mkPosition (line (end_ block)) (length text)).
Proof.
  intros Hr. unfold findCodeBlockRange.
  destruct (scan_up doc (line (start range))) as [s|] eqn:U; [|discriminate].
  destruct (scan_down doc (line (end_ range))) as [e|] eqn:D; [|discriminate].
  destruct (lineAt doc e) as [text|] eqn:T; [|discriminate].
  apply scan_up_le in U. apply (scan_down_ge doc _ _ _ eq_refl) in D.
  rewrite newRange_ordered by lia.
  intros H. injection H as <-. exists text. cbn. auto.
Qed.

Lemma scan_up_lt doc : forall first s,
  scan_up doc first = Some s -> (first < lineCount doc)%nat \/ first = 0%nat.
Proof.
  intros [|above] s H; [right; reflexivity|left].
  cbn [scan_up] in H. destruct (lineAt doc (S above)) eqn:E; [|discriminate].
  unfold lineAt in E. apply nth_error_Some. unfold lineCount. congruence.
Qed.

(** X12: the range starts at the nearest line, from the first line of
    the selection upwards, that holds an opening brace, or at line 0
    when none of the lines from there down to line 1 holds one (line 0
    itself is not looked at); it ends at the nearest line, from the last
    line of the selection downwards, that holds a closing brace, or at
    the last line of the document. *)
Theorem findCodeBlockRange_stops_at_braces doc range block :
  (line (start range) <= line (end_ range))%nat ->
  findCodeBlockRange doc range = Some block ->
  (line (start block) = 0%nat \/ opens doc (line (start block)))
  /\ (forall n, (line (start block) < n <= line (start range))%nat ->
                ~ opens doc n)
  /\ (S (line (end_ block)) = lineCount doc \/ closes doc (line (end_ block)))
  /\ (forall n, (line (end_ range) <= n < line (end_ block))%nat ->
                ~ closes doc n).
Proof.
  intros Hr H.
  destruct (findCodeBlockRange_inv _ _ _ Hr H) as (text & U & D & T & _).
  assert (He : (line (end_ range) < lineCount doc)%nat).
  { rewrite scan_down_step in D.
    destruct (Nat.ltb_spec (S (line (end_ range))) (lineCount doc)); [lia|].
    injection D as D. rewrite <- D in T.
    apply nth_error_Some. unfold lineAt in T. congruence. }
  destruct (scan_down_spec doc _ _ eq_refl He) as (e & E1 & E2 & E3 & E4).
  rewrite D in E1. injection E1 as <-.
  destruct (scan_up_lt _ _ _ U) as [Hs|Hs].
  - destruct (scan_up_spec doc _ Hs) as (s & S1 & S2 & S3 & S4).
    rewrite U in S1. injection S1 as <-. auto.
  - rewrite Hs in U. simpl in U. injection U as U. rewrite <- U, Hs.
    repeat split; [left; reflexivity|intros; lia|exact E3|exact E4].
Qed.

(** A loop that starts where it stopped stops there again. *)
Lemma scan_up_fixed doc : forall first s,
  scan_up doc first = Some s -> scan_up doc s = Some s.
Proof.
  induction first as [|above IH]; intros s H.
  - injection H as <-. reflexivity.
  - pose proof H as H'. cbn [scan_up] in H.
    destruct (lineAt doc (S above)) as [text|]; [|discriminate].
    destruct (includes lbrace text); [|exact (IH s H)].
    injection H as <-. exact H'.
Qed.

Lemma scan_down_fixed doc : forall k last e,
  (lineCount doc - last = k)%nat -> scan_down doc last = Some e ->
  scan_down doc e = Some e.
Proof.
  induction k as [|k IH]; intros last e Hk H; pose proof H as H';
    rewrite scan_down_step in H.
  - destruct (Nat.ltb_spec (S last) (lineCount doc)); [lia|].
    injection H as <-. exact H'.
  - destruct (Nat.ltb_spec (S last) (lineCount doc)).
    + destruct (lineAt doc last) as [text|]; [|discriminate].
      destruct (includes rbrace text); [injection H as <-; exact H'|].
      apply (IH (S last)); [lia|exact H].
    + injection H as <-. exact H'.
Qed.

(** X13: a range that [findCodeBlockRange] returned is returned as it is
    when the function is applied to it. *)
Theorem findCodeBlockRange_idempotent doc range block :
  (line (start range) <= line (end_ range))%nat ->
  findCodeBlockRange doc range = Some block ->
  findCodeBlockRange doc block = Some block.
Proof.
  intros Hr H.
  destruct (findCodeBlockRange_inv _ _ _ Hr H) as (text & U & D & T & E).
  assert (Hb : (line (start block) <= line (end_ block))%nat).
  { apply scan_up_le in U. apply (scan_down_ge doc _ _ _ eq_refl) in D. lia. }
  unfold findCodeBlockRange.
  rewrite (scan_up_fixed doc _ _ U), (scan_down_fixed doc _ _ _ eq_refl D), T.
  rewrite newRange_ordered by exact Hb.
  rewrite E at 3. reflexivity.
Qed.

(** X14: for a range that ends below the last line of the document
    [findCodeBlockRange] throws: [lineAt] is called with a line that the
    document does not have. *)
Theorem findCodeBlockRange_outside_document doc range :
  (lineCount doc <= line (end_ range))%nat ->
  findCodeBlockRange doc range = None.
Proof.
  intros H. unfold findCodeBlockRange.
  destruct (scan_up doc (line (start range))); [|reflexivity].
  rewrite scan_down_step.
  destruct (Nat.ltb_spec (S (line (end_ range))) (lineCount doc)); [lia|].
  destruct (lineAt doc (line (end_ range))) eqn:E; [|reflexivity].
  exfalso. assert (line (end_ range) < lineCount doc)%nat; [|lia].
  apply nth_error_Some. unfold lineAt in E. congruence.
Qed.

Lemma findCodeBlockRange_encloses_witness :
  exists found text,
    findCodeBlockRange sample selection = Some found
    /\ (line (start found) <= line (start selection))%nat
    /\ (line (end_ selection) <= line (end_ found) < lineCount sample)%nat
    /\ character (start found) = 0%nat
    /\ lineAt sample (line (end_ found)) = Some text
    /\ character (end_ found) = length text.
Proof.
  apply (findCodeBlockRange_encloses sample selection).
  cbn. lia.
Defined.

Lemma findCodeBlockRange_stops_at_braces_witness :
  findCodeBlockRange sample selection = Some block
  /\ (line (start block) = 0%nat \/ opens sample (line (start block)))
  /\ (S (line (end_ block)) = lineCount sample
      \/ closes sample (line (end_ block))).
Proof.
  assert (H : findCodeBlockRange sample selection = Some block)
    by (vm_compute; reflexivity).
  split; [exact H|].
  destruct (findCodeBlockRange_stops_at_braces sample selection block
              ltac:(cbn; lia) H) as (B1 & _ & B3 & _).
  split; [exact B1|exact B3].
Defined.

Lemma findCodeBlockRange_idempotent_witness :
  findCodeBlockRange sample selection = Some block
  /\ findCodeBlockRange sample block = Some block.
Proof.
  assert (H : findCodeBlockRange sample selection = Some block)
    by (vm_compute; reflexivity).
  split; [exact H|].
  exact (findCodeBlockRange_idempotent sample selection block
           ltac:(cbn; lia) H).
Defined.

(** A diagnostic of the model that points below the five lines. *)
Lemma findCodeBlockRange_outside_document_witness :
  findCodeBlockRange sample (mkRange (mkPosition 2 0) (mkPosition 7 0)) = None.
Proof.
  apply findCodeBlockRange_outside_document. vm_compute. lia.
Defined.

End BlockRangeFacts.



(* ================================================================= *)
(** ** The debounce of the analysis *)

Section DebounceFacts.
Import Debounce.

Variable blank : string -> bool.
Variable text_length : string -> Z.

Lemma scheduleAnalysis_One t doc config s :
  One s ->
  timeouts (scheduleAnalysis t doc config s)
  = [mkTimeout (nextTimeout s) t
       (match debounceMs config with Some ms => ms | None => 1500 end) doc]
  /\ analyzeTimer (scheduleAnalysis t doc config s) = Some (nextTimeout s).
Proof.
  intros [L A]. unfold scheduleAnalysis.
  destruct (timeouts s) as [|tm [|tm' l]] eqn:E; [| |simpl in L; lia].
  - destruct (analyzeTimer s); cbn; rewrite E; auto.
  - rewrite (A tm (or_introl eq_refl)). cbn. rewrite E. cbn.
    rewrite Nat.eqb_refl. cbn. auto.
Qed.

Lemma take_timeout_length h l tm rest :
  take_timeout h l = Some (tm, rest) ->
  handle tm = h /\ length l = S (length rest)
  /\ In tm l /\ forall x, In x rest -> In x l.
Proof.
  revert tm rest. induction l as [|y l IH]; intros tm rest H; [discriminate|].
  cbn [take_timeout] in H. destruct (Nat.eqb_spec (handle y) h) as [E|E].
  - injection H as <- <-. repeat split; [exact E|left; reflexivity|].
    intros x Hx. right. exact Hx.
  - destruct (take_timeout h l) as [[x r]|]; [|discriminate].
    injection H as <- <-. destruct (IH x r eq_refl) as (I1 & I2 & I3 & I4).
    repeat split; [exact I1|simpl; lia|right; exact I3|].
    intros z [<-|Hz]; [left; reflexivity|right; apply I4, Hz].
Qed.

Lemma take_timeout_In l tm :
  In tm l -> exists x rest, take_timeout (handle tm) l = Some (x, rest).
Proof.
  induction l as [|y l IH]; intros [].
  - subst y. cbn. rewrite Nat.eqb_refl. eauto.
  - cbn. destruct (handle y =? handle tm)%nat; [eauto|].
    destruct (IH H) as (x & rest & ->). eauto.
Qed.

(** The only timeout is taken when it fires. *)
Lemma take_timeout_One s tm :
  One s -> In tm (timeouts s) ->
  take_timeout (handle tm) (timeouts s) = Some (tm, []).
Proof.
  intros [L _] Hin.
  destruct (timeouts s) as [|x [|y l]]; [destruct Hin| |simpl in L; lia].
  destruct Hin as [->|[]]. cbn. rewrite Nat.eqb_refl. reflexivity.
Qed.

Lemma One_frame s s' :
  timeouts s' = timeouts s -> analyzeTimer s' = analyzeTimer s ->
  One s -> One s'.
Proof. unfold One. intros -> ->. auto. Qed.

Lemma One_listener t doc config s :
  One s -> One (onDidChangeTextDocument text_length t doc config s).
Proof.
  intros I. unfold onDidChangeTextDocument.
  destruct (negb (isAnalysisEnabled s)); [exact I|].
  destruct (negb (String.eqb (scheme doc) "file")); [exact I|].
  match goal with |- context [if ?c then s else _] => destruct c end; [exact I|].
  match goal with |- context [if ?c then s else _] => destruct c end; [exact I|].
  destruct (scheduleAnalysis_One t doc config s I) as [T A].
  split; rewrite T; [simpl; lia|]. intros tm [<-|[]]. exact A.
Qed.

Lemma One_step t e s s' :
  One s -> step blank text_length t e s = Some s' -> One s'.
Proof.
  intros I H. destruct e as [doc text config| |config|h|doc|token r];
    cbn [step] in H.
  - injection H as <-. apply One_listener.
    revert I. apply One_frame; reflexivity.
  - injection H as <-. revert I. apply One_frame; reflexivity.
  - injection H as <-. revert I. apply One_frame; reflexivity.
  - destruct (take_timeout h (timeouts s)) as [[tm rest]|] eqn:E; [|discriminate].
    injection H as <-. destruct I as [L A].
    destruct (take_timeout_length _ _ _ _ E) as (_ & T2 & _ & T4).
    split; cbn; [lia|]. intros x Hx. apply A, T4, Hx.
  - injection H as <-. revert I. apply One_frame; reflexivity.
  - destruct (Analysis.turn blank (Analysis.Settled token r) (editor s));
      [|discriminate].
    injection H as <-. revert I. apply One_frame; reflexivity.
Qed.

Lemma One_run evs : forall s s',
  One s -> run blank text_length evs s = Some s' -> One s'.
Proof.
  induction evs as [|[t e] evs IH]; intros s s' I H; simpl in H.
  - injection H as <-. exact I.
  - destruct (step blank text_length t e s) as [s1|] eqn:E; [|discriminate].
    exact (IH s1 s' (One_step _ _ _ _ I E) H).
Qed.

Lemma One_start : One start.
Proof. split; [simpl; lia|intros tm []]. Qed.

(** X17: at most one timeout of [scheduleAnalysis] is pending at any
    time, the one in [analyzeTimer]; and after a call of
    [scheduleAnalysis] the only pending timeout is the one that this
    call set, for its document and with its delay (1500 ms when the
    setting is absent): the analysis that an earlier call had scheduled
    is cancelled, also when it was for another document. *)
Theorem scheduleAnalysis_keeps_one_timeout evs s :
  run blank text_length evs start = Some s ->
  (length (timeouts s) <= 1)%nat
  /\ (forall tm, In tm (timeouts s) -> analyzeTimer s = Some (handle tm))
  /\ forall t doc config,
       timeouts (scheduleAnalysis t doc config s)
       = [mkTimeout (nextTimeout s) t
            (match debounceMs config with Some ms => ms | None => 1500 end)
            doc].
Proof.
  intros H. pose proof (One_run evs start s One_start H) as I.
  destruct I as [L A]. split; [exact L|]. split; [exact A|].
  intros t doc config. apply scheduleAnalysis_One. split; assumption.
Qed.

(** X18: when the timeout fires while an analysis is under way,
    [analyzeDocument] returns at once: nothing is posted, and no
    timeout is left that would analyse the document later. *)
Theorem timeout_during_analysis_is_dropped evs s tm t :
  run blank text_length evs start = Some s ->
  Analysis.isAnalyzing (editor s) = true ->
  In tm (timeouts s) ->
  exists s', step blank text_length t (Fire (handle tm)) s = Some s'
             /\ timeouts s' = []
             /\ editor s' = editor s
             /\ texts s' = texts s.
Proof.
  intros H Ha Hin. pose proof (One_run evs start s One_start H) as I.
  cbn [step]. rewrite (take_timeout_One s tm I Hin).
  eexists. split; [reflexivity|].
  unfold analyze. cbn [timeouts editor texts set_editor set_timeouts].
  unfold Analysis.analyzeDocument. rewrite Ha. auto.
Qed.

(** X24: switching the analysis off does not cancel the timeout that is
    pending: when it fires, the document is posted to the server
    although [isAnalysisEnabled] is false. *)
Theorem pending_analysis_survives_switch_off evs s tm t1 t2 :
  run blank text_length evs start = Some s ->
  isAnalysisEnabled s = true ->
  In tm (timeouts s) ->
  Analysis.isAnalyzing (editor s) = false ->
  blank (texts s (uri (document tm))) = false ->
  exists s',
    run blank text_length [(t1, Toggle); (t2, Fire (handle tm))] s = Some s'
    /\ isAnalysisEnabled s' = false
    /\ In (Analysis.Posted (Analysis.nextToken (editor s))
             (texts s (uri (document tm))))
          (Analysis.actions (editor s')).
Proof.
  intros H He Hin Ha Hb. pose proof (One_run evs start s One_start H) as I.
  cbn [run step]. unfold toggleAnalysis, updateStatusBar.
  cbn [timeouts set_editor set_isAnalysisEnabled].
  rewrite (take_timeout_One s tm I Hin).
  eexists. split; [reflexivity|].
  unfold analyze.
  cbn [isAnalysisEnabled editor texts set_editor set_timeouts
       set_isAnalysisEnabled].
  rewrite He. split; [reflexivity|].
  unfold Analysis.analyzeDocument.
  cbn [Analysis.isAnalyzing Analysis.log]. rewrite Ha, Hb.
  match goal with |- context [Analysis.post _ ?x] => set (ed := x) end.
  assert (N : Analysis.nextToken ed = Analysis.nextToken (editor s)).
  { subst ed. cbn [Analysis.cancelSource Analysis.set_isAnalyzing Analysis.log].
    destruct (Analysis.cancelSource (editor s)) as [token|]; [|reflexivity].
    unfold Analysis.cancel.
    match goal with |- context [if ?c then _ else _] => destruct c end;
      reflexivity. }
  rewrite <- N. unfold Analysis.post. cbn [Analysis.actions].
  apply in_or_app. right. left. reflexivity.
Qed.

End DebounceFacts.

Section DebounceExamples.
Import Debounce.

Lemma scheduleAnalysis_keeps_one_timeout_witness :
  run Analysis.blank_if_empty ascii_length burst start = Some after_burst
  /\ timeouts after_burst = [mkTimeout 2 900 500 util_ts]
  /\ timeouts (scheduleAnalysis 1000 main_ts defaults after_burst)
     = [mkTimeout 3 1000 1500 main_ts].
Proof.
  assert (H : run Analysis.blank_if_empty ascii_length burst start
              = Some after_burst) by (vm_compute; reflexivity).
  split; [exact H|]. split; [reflexivity|].
  destruct (scheduleAnalysis_keeps_one_timeout Analysis.blank_if_empty
              ascii_length burst after_burst H) as (_ & _ & S).
  exact (S 1000 main_ts defaults).
Defined.

Lemma timeout_during_analysis_is_dropped_witness :
  run Analysis.blank_if_empty ascii_length edit_during_analysis start
  = Some analysing
  /\ exists s',
      step Analysis.blank_if_empty ascii_length 3100 (Fire 1) analysing = Some s'
      /\ timeouts s' = []
      /\ editor s' = editor analysing
      /\ texts s' = texts analysing.
Proof.
  assert (H : run Analysis.blank_if_empty ascii_length edit_during_analysis start
              = Some analysing) by (vm_compute; reflexivity).
  split; [exact H|].
  apply (timeout_during_analysis_is_dropped Analysis.blank_if_empty ascii_length
           edit_during_analysis analysing (mkTimeout 1 1600 1500 main_ts) 3100 H).
  - reflexivity.
  - left. reflexivity.
Defined.

Lemma pending_analysis_survives_switch_off_witness :
  run Analysis.blank_if_empty ascii_length [(0, Change main_ts "a" defaults)] start
  = Some just_changed
  /\ exists s',
      run Analysis.blank_if_empty ascii_length switched_off just_changed = Some s'
      /\ isAnalysisEnabled s' = false
      /\ In (Analysis.Posted 0 "a") (Analysis.actions (editor s')).
Proof.
  assert (H : run Analysis.blank_if_empty ascii_length
                [(0, Change main_ts "a" defaults)] start = Some just_changed)
    by (vm_compute; reflexivity).
  split; [exact H|].
  apply (pending_analysis_survives_switch_off Analysis.blank_if_empty
           ascii_length _ just_changed (mkTimeout 0 0 1500 main_ts) 700 1500 H).
  - reflexivity.
  - left. reflexivity.
  - reflexivity.
  - reflexivity.
Defined.

End DebounceExamples.



(* ================================================================= *)
(** ** Inline suggestions *)

Section InlineFacts.
Import Inline.

Variable truthy : JsValue -> bool.

Lemma mem_In token l : Analysis.mem token l = true <-> In token l.
Proof.
  unfold Analysis.mem. rewrite existsb_exists. split.
  - intros (x & Hx & E). apply Nat.eqb_eq in E. subst. exact Hx.
  - intros H. exists token. split; [exact H|apply Nat.eqb_refl].
Qed.

Lemma Superseded_fresh : Superseded fresh.
Proof.
  split; [intros token []|]. split; [intros token []|].
  intros token H. discriminate H.
Qed.

Lemma Superseded_provide s :
  Superseded s -> Superseded (provideInlineCompletionItems s).
Proof.
  intros (A & B & C). unfold provideInlineCompletionItems.
  destruct (lastRequest s) as [last|] eqn:L.
  - unfold cancel. destruct (Analysis.mem last (awaiting s)) eqn:M;
      unfold Superseded; cbn [lastRequest nextToken awaiting aborted]; rewrite ?L;
      cbn [lastRequest nextToken awaiting aborted].
    + pose proof (C last eq_refl) as Hlast.
      split; [|split].
      * intros token Hin. apply in_app_or in Hin. destruct Hin as [Hin|[<-|[]]].
        -- right. destruct (A token Hin) as [E|E]; [left; congruence|right; exact E].
        -- left. reflexivity.
      * intros token [<-|Hin].
        -- split; [lia|]. intros E. injection E as E. lia.
        -- destruct (B token Hin) as [B1 _]. split; [lia|].
           intros E. injection E as E. lia.
      * intros token E. injection E as <-. lia.
    + split; [|split].
      * intros token Hin. apply in_app_or in Hin. destruct Hin as [Hin|[<-|[]]].
        -- destruct (A token Hin) as [E|E]; [|right; exact E].
           injection E as <-. apply mem_In in Hin. congruence.
        -- left. reflexivity.
      * intros token Hin. destruct (B token Hin) as [B1 _]. split; [lia|].
        intros E. injection E as E. lia.
      * intros token E. injection E as <-. lia.
  - unfold Superseded. cbn [lastRequest nextToken awaiting aborted]. split; [|split].
    + intros token Hin. apply in_app_or in Hin. destruct Hin as [Hin|[<-|[]]].
      * destruct (A token Hin) as [E|E]; [discriminate|right; exact E].
      * left. reflexivity.
    + intros token Hin. destruct (B token Hin) as [B1 _]. split; [lia|].
      intros E. injection E as E. lia.
    + intros token E. injection E as <-. lia.
Qed.

Lemma Superseded_turn e s s' :
  Superseded s -> turn truthy e s = Some s' -> Superseded s'.
Proof.
  intros I H. destruct e as [|token r]; cbn [turn] in H.
  - injection H as <-. apply Superseded_provide, I.
  - destruct (Analysis.mem token (awaiting s)
              && Bool.eqb (is_cancelled r) (Analysis.mem token (aborted s)));
      [|discriminate].
    injection H as <-. destruct I as (A & B & C).
    destruct r as [c o|err|]; cbn [resume lastRequest nextToken awaiting aborted];
      (split; [|split; assumption]);
      intros x Hx; apply filter_In in Hx; apply A, Hx.
Qed.

Lemma Superseded_turns evs : forall s s',
  Superseded s -> turns truthy evs s = Some s' -> Superseded s'.
Proof.
  induction evs as [|e evs IH]; intros s s' I H; simpl in H.
  - injection H as <-. exact I.
  - destruct (turn truthy e s) as [s1|] eqn:E; [|discriminate].
    exact (IH s1 s' (Superseded_turn _ _ _ I E) H).
Qed.

(** X19: a request for suggestions that is no longer the latest one
    when its post settles was cancelled: its call returns nothing and
    logs nothing.  The latest request is never cancelled. *)
Theorem superseded_request_returns_nothing evs s token r s' :
  turns truthy evs fresh = Some s ->
  turn truthy (Settled token r) s = Some s' ->
  (lastRequest s <> Some token ->
   r = Cancelled
   /\ returned s' = returned s ++ [(token, None)]
   /\ errors s' = errors s)
  /\ (lastRequest s = Some token -> r <> Cancelled).
Proof.
  intros H T.
  pose proof (Superseded_turns evs fresh s Superseded_fresh H) as (A & B & C).
  cbn [turn] in T.
  destruct (Analysis.mem token (awaiting s)) eqn:M; [|discriminate].
  destruct (Bool.eqb (is_cancelled r) (Analysis.mem token (aborted s))) eqn:Q;
    [|discriminate].
  injection T as <-. apply mem_In in M. apply eqb_prop in Q. split.
  - intros Hl. destruct (A token M) as [E|E]; [contradiction|].
    apply mem_In in E. rewrite E in Q.
    destruct r; try discriminate Q. repeat split.
  - intros Hl E. subst r. cbn in Q. symmetry in Q. apply mem_In in Q.
    destruct (B token Q) as [_ N]. contradiction.
Qed.

End InlineFacts.



Section InlineExamples.
Import Inline.

Lemma superseded_request_returns_nothing_witness :
  turns Handlers.nonempty [Provide; Provide] fresh = Some typing_fast
  /\ turn Handlers.nonempty (Settled 0 Cancelled) typing_fast = Some first_dropped
  /\ returned first_dropped = [(0%nat, None)]
  /\ errors first_dropped = [].
Proof.
  assert (H : turns Handlers.nonempty [Provide; Provide] fresh = Some typing_fast)
    by (vm_compute; reflexivity).
  assert (T : turn Handlers.nonempty (Settled 0 Cancelled) typing_fast
              = Some first_dropped) by (vm_compute; reflexivity).
  split; [exact H|]. split; [exact T|].
  destruct (superseded_request_returns_nothing Handlers.nonempty
              [Provide; Provide] typing_fast 0%nat Cancelled first_dropped H T)
    as [S _].
  destruct S as (_ & R & E); [discriminate|].
  split; [exact R|exact E].
Defined.

End InlineExamples.



(* ================================================================= *)
(** ** The countdown of the status bar *)

Section LeakFacts.
Import AiScheduler Countdown.

Lemma leaked_frame id s s' :
  intervals s' = intervals s -> cooldownInterval s' = cooldownInterval s ->
  nextTimerId s' = nextTimerId s ->
  leaked id s -> leaked id s'.
Proof. unfold leaked. intros -> -> ->. auto. Qed.

Lemma leaked_startCooldown id ms s :
  leaked id s -> leaked id (startCooldown ms s).
Proof.
  intros (H1 & H2 & H3). unfold startCooldown.
  destruct (statusBarItem s); [|repeat split; assumption].
  unfold leaked. cbn. rewrite map_app, in_app_iff.
  repeat split; [left; exact H1| |lia].
  intros E. injection E as E. lia.
Qed.

Lemma in_fst_filter id c (l : list (nat * Z)) :
  id <> c -> In id (map fst l) ->
  In id (map fst (filter (fun e => negb (fst e =? c)%nat) l)).
Proof.
  intros Hne. induction l as [|[i r] l IH]; intros H; [exact H|].
  cbn [filter fst]. destruct H as [H|H].
  - cbn [fst] in H. subst i.
    destruct (Nat.eqb_spec id c); [contradiction|]. left. reflexivity.
  - destruct (i =? c)%nat; cbn [negb]; [apply IH, H|right; apply IH, H].
Qed.

Lemma leaked_stopCooldown id s :
  leaked id s -> leaked id (stopCooldown s).
Proof.
  intros (H1 & H2 & H3). unfold stopCooldown.
  destruct (statusBarItem s); [|repeat split; assumption].
  destruct (cooldownInterval s) as [c|] eqn:C; unfold leaked; cbn.
  - repeat split; [|discriminate|exact H3].
    apply in_fst_filter; [congruence|exact H1].
  - repeat split; [exact H1|discriminate|exact H3].
Qed.

Lemma map_fst_update id r (l : list (nat * Z)) :
  map fst (map (fun e => if (fst e =? id)%nat then (id, r) else e) l) = map fst l.
Proof.
  induction l as [|[i x] l IH]; [reflexivity|].
  cbn [map fst]. rewrite IH. f_equal.
  destruct (Nat.eqb_spec i id); [subst; reflexivity|reflexivity].
Qed.

Lemma leaked_cooldownTick id id' remaining s :
  leaked id s -> leaked id (cooldownTick id' remaining s).
Proof.
  intros (H1 & H2 & H3). unfold cooldownTick.
  match goal with |- context [stopCooldown ?x] => assert (L : leaked id x) end.
  { unfold leaked. cbn. rewrite map_fst_update. auto. }
  destruct (remaining - 1 <=? 0); [apply leaked_stopCooldown, L|].
  revert L. apply leaked_frame; reflexivity.
Qed.

Lemma leaked_dispatch id now s :
  leaked id s -> leaked id (processQueue_dispatch now s).
Proof.
  intros H. apply leaked_stopCooldown in H. unfold processQueue_dispatch.
  destruct (jobQueue (stopCooldown s)); [exact H|].
  revert H. apply leaked_frame; reflexivity.
Qed.

Lemma leaked_processQueue id d now s :
  leaked id s -> leaked id (processQueue d now s).
Proof.
  intros H. unfold processQueue.
  destruct (isRunning s); [exact H|].
  destruct (length (jobQueue s) =? 0)%nat; [exact H|].
  destruct (now - lastCallTime s <? d); [|apply leaked_dispatch, H].
  apply (leaked_startCooldown id (d - (now - lastCallTime s))) in H.
  revert H. apply leaked_frame; reflexivity.
Qed.

Lemma leaked_settle id d now job o s :
  leaked id s -> leaked id (processQueue_settle d now job o s).
Proof.
  intros H. unfold processQueue_settle.
  match goal with |- context [processQueue d now ?x] => assert (L : leaked id x) end.
  { revert H. apply leaked_frame; destruct o; reflexivity. }
  match goal with |- context [if ?c then _ else _] => destruct c end;
    [apply leaked_processQueue, L|exact L].
Qed.

Lemma leaked_runAI id d now f p s :
  leaked id s -> leaked id (runAI d now f p s).
Proof.
  intros H. unfold runAI. apply leaked_processQueue.
  revert H. apply leaked_frame; reflexivity.
Qed.

Lemma leaked_step id d t e s s' :
  leaked id s -> step d t e s = Some s' -> leaked id s'.
Proof.
  intros H Hs. destruct e as [text|f p|k|h o|id']; cbn [step] in Hs.
  - apply Some_eq in Hs. subst s'. revert H. apply leaked_frame; reflexivity.
  - apply Some_eq in Hs. subst s'. apply leaked_runAI, H.
  - destruct (take_nth k (sleeping s)) as [[due rest]|]; [|discriminate].
    destruct (t <? due); [discriminate|].
    apply Some_eq in Hs. subst s'. apply leaked_dispatch.
    revert H. apply leaked_frame; reflexivity.
  - destruct (take_job h (inFlight s)) as [[job rest]|]; [|discriminate].
    apply Some_eq in Hs. subst s'. apply leaked_settle.
    revert H. apply leaked_frame; reflexivity.
  - destruct (lookup_interval id' (intervals s)); [|discriminate].
    apply Some_eq in Hs. subst s'. apply leaked_cooldownTick, H.
Qed.

(** X21: an interval timer that [cooldownInterval] does not hold (a
    second [startCooldown] has overwritten the variable) is never
    cleared: whatever happens afterwards, the timer stays live and can
    fire, and the variable never holds it again. *)
Theorem overwritten_interval_is_never_cleared d evs id : forall s s',
  leaked id s -> run d evs s = Some s' ->
  leaked id s'
  /\ exists remaining, lookup_interval id (intervals s') = Some remaining.
Proof.
  assert (L : forall s, leaked id s ->
                exists remaining, lookup_interval id (intervals s) = Some remaining).
  { intros s (H & _). induction (intervals s) as [|[i r] l IH]; [destruct H|].
    cbn [lookup_interval]. destruct (Nat.eqb_spec i id); [eauto|].
    apply IH. destruct H as [H|H]; [contradiction|exact H]. }
  induction evs as [|[t e] evs IH]; intros s s' H Hr; simpl in Hr.
  - apply Some_eq in Hr. subst s'. split; [exact H|apply L, H].
  - destruct (step d t e s) as [s1|] eqn:E; [|discriminate].
    apply (IH s1 s' (leaked_step _ _ _ _ _ _ H E) Hr).
Qed.

Lemma lookup_update id r (l : list (nat * Z)) x :
  lookup_interval id l = Some x ->
  lookup_interval id (map (fun e => if (fst e =? id)%nat then (id, r) else e) l)
  = Some r.
Proof.
  induction l as [|[i y] l IH]; [discriminate|].
  cbn [lookup_interval map fst]. destruct (Nat.eqb_spec i id) as [->|N].
  - intros _. cbn [lookup_interval]. rewrite Nat.eqb_refl. reflexivity.
  - intros H. cbn [lookup_interval]. destruct (Nat.eqb_spec i id); [contradiction|].
    apply IH, H.
Qed.

Lemma lookup_filter id c (l : list (nat * Z)) :
  id <> c ->
  lookup_interval id (filter (fun e => negb (fst e =? c)%nat) l)
  = lookup_interval id l.
Proof.
  intros Hne. induction l as [|[i y] l IH]; [reflexivity|].
  cbn [filter fst lookup_interval]. destruct (Nat.eqb_spec i c) as [->|N]; cbn [negb].
  - destruct (Nat.eqb_spec c id); [congruence|exact IH].
  - cbn [lookup_interval]. rewrite IH. reflexivity.
Qed.

(** X22: once such a timer has counted down, each of its ticks calls
    [stopCooldown]: the status bar shows "AI Ready" and the countdown
    that is under way is stopped, although the activations of
    [processQueue] that sleep go on sleeping; the timer itself stays
    as it is, so the next tick does the same. *)
Theorem leaked_timer_resets_the_status_bar d t id remaining text s :
  leaked id s ->
  lookup_interval id (intervals s) = Some remaining ->
  remaining <= 1 ->
  statusBarItem s = Some text ->
  exists s', step d t (IntervalTick id) s = Some s'
             /\ statusBarItem s' = Some readyText
             /\ cooldownInterval s' = None
             /\ (forall c, cooldownInterval s = Some c ->
                           ~ In c (map fst (intervals s')))
             /\ sleeping s' = sleeping s
             /\ leaked id s'
             /\ lookup_interval id (intervals s') = Some (remaining - 1).
Proof.
  intros (H1 & H2 & H3) Hl Hr Ht. cbn [step]. rewrite Hl.
  eexists. split; [reflexivity|].
  pose proof (leaked_cooldownTick id id remaining s (conj H1 (conj H2 H3))) as L.
  split; [|split; [|split; [|split; [|split; [exact L|]]]]];
    unfold cooldownTick in *;
    destruct (Z.leb_spec (remaining - 1) 0) as [_|]; try lia;
    unfold stopCooldown; cbn; rewrite Ht;
    destruct (cooldownInterval s) as [c|] eqn:C; cbn; try reflexivity.
  - intros c' E. injection E as <-.
    rewrite in_map_iff. intros ((i & x) & E1 & E2). cbn in E1. subst i.
    apply filter_In in E2. destruct E2 as [_ E2]. cbn in E2.
    rewrite Nat.eqb_refl in E2. discriminate.
  - discriminate.
  - rewrite lookup_filter by congruence. apply (lookup_update _ _ _ _ Hl).
  - apply (lookup_update _ _ _ _ Hl).
Qed.

End LeakFacts.



Section CountdownFacts.
Import AiScheduler Countdown.

Lemma ceil_seconds_bounds ms :
  1000 * (ceil_seconds ms - 1) < ms <= 1000 * ceil_seconds ms.
Proof.
  unfold ceil_seconds.
  pose proof (Z.div_mod (- ms) 1000 ltac:(lia)) as E.
  pose proof (Z.mod_pos_bound (- ms) 1000 ltac:(lia)) as B.
  lia.
Qed.

Lemma not_in_cleared id (l : list (nat * Z)) :
  ~ In id (map fst (filter (fun e => negb (fst e =? id)%nat) l)).
Proof.
  rewrite in_map_iff. intros ((i & x) & E1 & E2). cbn in E1. subst i.
  apply filter_In in E2. destruct E2 as [_ E2]. cbn in E2.
  rewrite Nat.eqb_refl in E2. discriminate.
Qed.

Lemma counting_tick id m s :
  counting id m s ->
  (1 < m -> counting id (m - 1) (cooldownTick id m s))
  /\ (m = 1 -> stopped id (cooldownTick id m s)).
Proof.
  intros (C1 & C2 & C3 & C4). unfold cooldownTick. split; intros Hm.
  - destruct (Z.leb_spec (m - 1) 0); [lia|].
    unfold counting. cbn. rewrite C2.
    repeat split; [apply (lookup_update _ _ _ _ C3)|lia].
  - destruct (Z.leb_spec (m - 1) 0); [|lia].
    unfold stopCooldown. cbn. rewrite C1, C2. unfold stopped. cbn.
    repeat split. apply not_in_cleared.
Qed.

Lemma counting_run d id : forall times m s,
  counting id m s -> Z.of_nat (length times) <= m ->
  exists s', run d (ticks id times) s = Some s'
             /\ (Z.of_nat (length times) < m ->
                 counting id (m - Z.of_nat (length times)) s')
             /\ (Z.of_nat (length times) = m -> stopped id s').
Proof.
  induction times as [|t times IH]; intros m s C L.
  - exists s. split; [reflexivity|]. split.
    + intros _. rewrite Z.sub_0_r. exact C.
    + intros E. destruct C as (_ & _ & _ & C4). simpl in E. lia.
  - pose proof C as (C1 & C2 & C3 & C4).
    destruct (counting_tick id m s C) as [T1 T2].
    cbn [ticks map run step]. rewrite C3.
    change (map (fun t0 => (t0, IntervalTick id)) times) with (ticks id times).
    cbn [length] in *. rewrite Nat2Z.inj_succ in *.
    destruct (Z.eq_dec m 1) as [->|Hm].
    + assert (times = []) by (destruct times; [reflexivity|simpl in L; lia]).
      subst times. exists (cooldownTick id 1 s).
      split; [reflexivity|]. split; [simpl; lia|]. intros _. apply T2. reflexivity.
    + destruct (IH (m - 1) (cooldownTick id m s)) as (s' & R & I1 & I2);
        [apply T1; lia|lia|].
      exists s'. split; [exact R|]. split.
      * intros Hlt. replace (m - Z.succ (Z.of_nat (length times)))
          with (m - 1 - Z.of_nat (length times)) by lia.
        apply I1. lia.
      * intros E. apply I2. lia.
Qed.

Lemma lookup_fresh id r (l : list (nat * Z)) :
  Forall (fun e => (fst e < id)%nat) l ->
  lookup_interval id (l ++ [(id, r)]) = Some r.
Proof.
  induction l as [|[i x] l IH]; intros H.
  - cbn. rewrite Nat.eqb_refl. reflexivity.
  - inversion H as [|? ? H1 H2]; subst. cbn in H1. cbn [app lookup_interval].
    destruct (Nat.eqb_spec i id); [lia|]. apply IH, H2.
Qed.

(** X23: with a status bar item, [startCooldown(ms)] shows the number of
    seconds rounded up; each tick of its timer lowers the number shown
    by one, and the tick that brings it to zero shows "AI Ready", clears
    the timer and empties [cooldownInterval]. *)
Theorem countdown_counts_down d ms text s times :
  statusBarItem s = Some text ->
  0 < ms ->
  Forall (fun e => (fst e < nextTimerId s)%nat) (intervals s) ->
  Z.of_nat (length times) <= ceil_seconds ms ->
  1000 * (ceil_seconds ms - 1) < ms <= 1000 * ceil_seconds ms
  /\ exists s',
      run d (ticks (nextTimerId s) times) (startCooldown ms s) = Some s'
      /\ (Z.of_nat (length times) < ceil_seconds ms ->
          statusBarItem s'
          = Some (cooldownText (ceil_seconds ms - Z.of_nat (length times)))
          /\ cooldownInterval s' = Some (nextTimerId s))
      /\ (Z.of_nat (length times) = ceil_seconds ms ->
          statusBarItem s' = Some readyText
          /\ cooldownInterval s' = None
          /\ ~ In (nextTimerId s) (map fst (intervals s'))).
Proof.
  intros Ht Hms Hf Hl. pose proof (ceil_seconds_bounds ms) as B.
  split; [exact B|].
  assert (C : counting (nextTimerId s) (ceil_seconds ms) (startCooldown ms s)).
  { unfold startCooldown. rewrite Ht. unfold counting. cbn.
    repeat split; [apply lookup_fresh, Hf|lia]. }
  destruct (counting_run d _ times _ _ C Hl) as (s' & R & I1 & I2).
  exists s'. split; [exact R|]. split.
  - intros H. destruct (I1 H) as (J1 & J2 & _). auto.
  - exact I2.
Qed.

(** X20: as long as no job is submitted while an activation of
    [processQueue] sleeps through a cooldown, at most one call is in
    flight at any time, and every call starts at least [MIN_DELAY] after
    the last success. *)
Theorem calm_runs_are_spaced d evs s :
  calm d evs init -> run d evs init = Some s ->
  (length (inFlight s) <= 1)%nat
  /\ forall pre t e post x y,
      evs = pre ++ (t, e) :: post ->
      run d pre init = Some x -> step d t e x = Some y ->
      (length (inFlight y) <= 1)%nat
      /\ (dispatched y = dispatched x
          \/ exists job, dispatched y = dispatched x ++ [(job, t)]
                         /\ d <= t - lastCallTime y).
Proof.
  intros Hc Hr.
  apply (calm_single_flight_and_spacing d evs init s); [|exact Hc|exact Hr].
  unfold one_activation. cbn. repeat split; [lia|congruence|intros due []].
Qed.

End CountdownFacts.



Section CountdownExamples.
Import AiScheduler Countdown.

Lemma calm_runs_are_spaced_witness :
  calm MIN_DELAY Examples.countdown_trace init
  /\ run MIN_DELAY Examples.countdown_trace init = Some Examples.countdown_final
  /\ (length (inFlight Examples.countdown_final) <= 1)%nat.
Proof.
  assert (C : calm MIN_DELAY Examples.countdown_trace init)
    by (vm_compute; repeat split).
  assert (H : run MIN_DELAY Examples.countdown_trace init
              = Some Examples.countdown_final) by (vm_compute; reflexivity).
  split; [exact C|]. split; [exact H|].
  exact (proj1 (calm_runs_are_spaced MIN_DELAY Examples.countdown_trace
                  Examples.countdown_final C H)).
Defined.

Lemma leaked_two_countdowns : leaked 0 two_countdowns.
Proof.
  unfold leaked. split; [left; reflexivity|].
  split; [discriminate|]. vm_compute. lia.
Defined.

Lemma overwritten_interval_is_never_cleared_witness :
  leaked 0 two_countdowns
  /\ run MIN_DELAY (ticks 0 twenty_seconds) two_countdowns = Some run_down
  /\ leaked 0 run_down
  /\ exists remaining, lookup_interval 0 (intervals run_down) = Some remaining.
Proof.
  assert (H : run MIN_DELAY (ticks 0 twenty_seconds) two_countdowns
              = Some run_down) by (vm_compute; reflexivity).
  split; [exact leaked_two_countdowns|]. split; [exact H|].
  exact (overwritten_interval_is_never_cleared MIN_DELAY
           (ticks 0 twenty_seconds) 0 two_countdowns run_down
           leaked_two_countdowns H).
Defined.

Lemma leaked_run_down : leaked 0 run_down.
Proof.
  unfold leaked. split; [left; reflexivity|].
  split; [discriminate|]. vm_compute. lia.
Defined.

Lemma leaked_timer_resets_the_status_bar_witness :
  cooldownInterval run_down = Some 1%nat
  /\ sleeping run_down = [121500; 121500]
  /\ exists s', step MIN_DELAY 122000 (IntervalTick 0) run_down = Some s'
                /\ statusBarItem s' = Some readyText
                /\ cooldownInterval s' = None
                /\ sleeping s' = [121500; 121500].
Proof.
  split; [reflexivity|]. split; [reflexivity|].
  destruct (leaked_timer_resets_the_status_bar MIN_DELAY 122000 0 1
              (cooldownText 1) run_down leaked_run_down eq_refl
              ltac:(lia) eq_refl)
    as (s' & S1 & S2 & S3 & _ & S5 & _).
  exists s'. split; [exact S1|]. split; [exact S2|]. split; [exact S3|exact S5].
Defined.

Lemma countdown_counts_down_witness :
  exists s',
    run MIN_DELAY (ticks 0 [1000; 2000; 3000])
      (startCooldown 2500 with_status_bar) = Some s'
    /\ statusBarItem s' = Some readyText
    /\ cooldownInterval s' = None.
Proof.
  destruct (countdown_counts_down MIN_DELAY 2500 "AI" with_status_bar
              [1000; 2000; 3000] eq_refl ltac:(lia) ltac:(constructor)
              ltac:(vm_compute; discriminate))
    as (_ & s' & R & _ & I).
  exists s'. split; [exact R|].
  destruct (I eq_refl) as (I1 & I2 & _). split; [exact I1|exact I2].
Defined.

End CountdownExamples.
